(** * II Command Center: the command parser, dispatcher, tab table and
      task scheduler of [O-code/ii.js], embedded in Rocq.

    JavaScript strings are modelled as lists of code units.  The code units
    are those of the Latin-1 range (U+0000..U+00FF), one [ascii] each; the
    regular expressions of the source use no [u] flag, so their classes
    ([\w], [\d], [\s], [.]) and the [i] flag act on single code units.
    JavaScript numbers are modelled as [Z] (exact for magnitudes below
    2^53), with [option Z] where the source can produce [NaN]. *)

From Stdlib Require Import String Ascii ZArith Bool Lia Arith FinFun List.
Import ListNotations.
Open Scope string_scope.
Open Scope list_scope.

(** ** JavaScript strings *)

Module JsString.

Definition jsstr := list ascii.

Definition lit (s : string) : list ascii := list_ascii_of_string s.
Coercion lit : string >-> list.

Definition code (c : ascii) : N := N_of_ascii c.

Definition in_range (lo hi : N) (c : ascii) : bool :=
  (N.leb lo (code c) && N.leb (code c) hi)%bool.

(** [WhiteSpace] and [LineTerminator] code units (ECMA-262 12.2, 12.3)
    that exist in the Latin-1 range: TAB, LF, VT, FF, CR, SP, NBSP. *)
Definition is_line_terminator (c : ascii) : bool :=
  (N.eqb (code c) 10 || N.eqb (code c) 13)%bool.

Definition is_space (c : ascii) : bool :=
  (in_range 9 13 c || N.eqb (code c) 32 || N.eqb (code c) 160)%bool.

Definition is_digit (c : ascii) : bool := in_range 48 57 c.
Definition is_upper (c : ascii) : bool := in_range 65 90 c.
Definition is_lower (c : ascii) : bool := in_range 97 122 c.

(** [\w]: [A-Za-z0-9_]. *)
Definition is_word (c : ascii) : bool :=
  (is_upper c || is_lower c || is_digit c || N.eqb (code c) 95)%bool.

(** [String.prototype.toLowerCase] on one Latin-1 code unit: A-Z and the
    accented capitals U+00C0..U+00DE (but not the multiplication sign). *)
Definition lower_char (c : ascii) : ascii :=
  if (is_upper c || (in_range 192 222 c && negb (N.eqb (code c) 215)))%bool
  then ascii_of_N (code c + 32) else c.

Definition toLowerCase (s : jsstr) : jsstr := map lower_char s.

(** Comparison of two code units under the [i] flag: [Canonicalize] maps a
    code unit to its upper case unless that leaves the code unit's own
    range, so in Latin-1 two code units agree iff their lower cases do,
    except that U+00B5 and U+00FF have no upper case in the range and
    stay as they are (neither is in any pattern of the source). *)
Definition eqb_ci (a b : ascii) : bool := Ascii.eqb (lower_char a) (lower_char b).

Fixpoint eqb (s t : jsstr) : bool :=
  match s, t with
  | [], [] => true
  | a :: s', b :: t' => (Ascii.eqb a b && eqb s' t')%bool
  | _, _ => false
  end.

(** [s.startsWith(p)] *)
Fixpoint startsWith (p s : jsstr) : bool :=
  match p, s with
  | [], _ => true
  | a :: p', b :: s' => (Ascii.eqb a b && startsWith p' s')%bool
  | _ :: _, [] => false
  end.

(** [startsWith] up to letter case. *)
Fixpoint startsWith_ci (p s : jsstr) : bool :=
  match p, s with
  | [], _ => true
  | a :: p', b :: s' => (eqb_ci a b && startsWith_ci p' s')%bool
  | _ :: _, [] => false
  end.

(** [s.includes(p)] *)
Fixpoint includes (p s : jsstr) : bool :=
  (startsWith p s || match s with [] => false | _ :: s' => includes p s' end)%bool.

Fixpoint trimStart (s : jsstr) : jsstr :=
  match s with
  | c :: s' => if is_space c then trimStart s' else s
  | [] => []
  end.

Definition trimEnd (s : jsstr) : jsstr := rev (trimStart (rev s)).

(** [s.trim()] *)
Definition trim (s : jsstr) : jsstr := trimEnd (trimStart s).

(** [s.split(sep)] for a non-empty separator: the pieces between the
    occurrences of [sep], found left to right without overlap.  [skip]
    counts the code units of a separator still to be passed over. *)
Fixpoint split_go (sep s : jsstr) (skip : nat) : list jsstr :=
  match s with
  | [] => [[]]
  | c :: s' =>
      match skip with
      | S n => split_go sep s' n
      | O =>
          if startsWith sep s then [] :: split_go sep s' (length sep - 1)
          else match split_go sep s' 0 with
               | p :: ps => (c :: p) :: ps
               | [] => [[c]]
               end
      end
  end.

Definition split (sep s : jsstr) : list jsstr := split_go sep s 0.

(** The digits of a non-negative integer, as [String(n)] prints them. *)
Definition digit_char (d : nat) : ascii := ascii_of_nat (48 + d).

Fixpoint digits_go (fuel n : nat) (acc : jsstr) : jsstr :=
  match fuel with
  | O => acc
  | S f =>
      let acc' := digit_char (n mod 10) :: acc in
      if Nat.ltb n 10 then acc' else digits_go f (n / 10) acc'
  end.

Definition nat_to_str (n : nat) : jsstr := digits_go (S n) n [].

Definition num_to_str (z : Z) : jsstr :=
  if Z.ltb z 0 then "-"%char :: nat_to_str (Z.to_nat (- z))
  else nat_to_str (Z.to_nat z).

(** [String(x)] for a number that may be [NaN]. *)
Definition optnum_to_str (z : option Z) : jsstr :=
  match z with Some v => num_to_str v | None => lit "NaN" end.

(** [parseInt(s)] (ECMA-262 19.2.5) with no radix argument: leading white
    space is skipped, a sign is read, a [0x]/[0X] prefix selects radix 16,
    and the longest prefix of digits is the value; [None] is [NaN]. *)
Definition digit_val (radix : Z) (c : ascii) : option Z :=
  let v :=
    if is_digit c then Some (Z.of_N (code c) - 48)%Z
    else if is_lower c then Some (Z.of_N (code c) - 97 + 10)%Z
    else if is_upper c then Some (Z.of_N (code c) - 65 + 10)%Z
    else None in
  match v with
  | Some d => if Z.ltb d radix then Some d else None
  | None => None
  end.

Fixpoint parse_digits (radix : Z) (s : jsstr) (acc : option Z) : option Z :=
  match s with
  | c :: s' =>
      match digit_val radix c with
      | Some d =>
          parse_digits radix s'
            (Some (match acc with Some a => a * radix + d | None => d end)%Z)
      | None => acc
      end
  | [] => acc
  end.

Definition parseInt (s : jsstr) : option Z :=
  let s1 := trimStart s in
  let '(neg, s2) :=
    match s1 with
    | c :: r =>
        if Ascii.eqb c "-" then (true, r)
        else if Ascii.eqb c "+" then (false, r) else (false, s1)
    | [] => (false, s1)
    end in
  let '(radix, s3) :=
    match s2 with
    | z :: x :: r =>
        if (Ascii.eqb z "0" && (Ascii.eqb x "x" || Ascii.eqb x "X"))%bool
        then (16%Z, r) else (10%Z, s2)
    | _ => (10%Z, s2)
    end in
  match parse_digits radix s3 None with
  | Some v => Some (if neg then (- v)%Z else v)
  | None => None
  end.

End JsString.

Import JsString.

(** ** Regular expressions

    The backtracking matcher of ECMA-262 22.2.2, for the constructs the
    source's patterns use: literals (with or without the [i] flag), the
    classes [.], [\w], [\d], [\s], sequence, alternation, greedy [*] and
    [+] on a single code unit or class, greedy [?], capturing groups and
    [$].  A match is searched from the leftmost start position on; at each
    position alternatives are tried left to right and repetitions longest
    first. *)

Module Regex.

Inductive atom :=
| Chr (c : ascii)       (* a literal code unit *)
| ChrI (c : ascii)      (* a literal code unit under the [i] flag *)
| Dot | Word | Digit | Space.

Definition amatch (a : atom) (c : ascii) : bool :=
  match a with
  | Chr x => Ascii.eqb x c
  | ChrI x => eqb_ci x c
  | Dot => negb (is_line_terminator c)
  | Word => is_word c
  | Digit => is_digit c
  | Space => is_space c
  end.

Inductive regex :=
| Eps
| Atom (a : atom)
| Cat (r1 r2 : regex)
| Alt (r1 r2 : regex)
| Star (a : atom)
| Plus (a : atom)
| Opt (r : regex)
| Grp (n : nat) (r : regex)
| Eos.

(** Captures: the groups set so far, most recent first. *)
Definition caps := list (nat * jsstr).

Fixpoint capture (n : nat) (cs : caps) : option jsstr :=
  match cs with
  | (k, v) :: cs' => if Nat.eqb k n then Some v else capture n cs'
  | [] => None
  end.

Definition cont := jsstr -> caps -> option caps.

Fixpoint star (a : atom) (s : jsstr) (cs : caps) (k : cont) : option caps :=
  match s with
  | c :: s' =>
      if amatch a c then
        match star a s' cs k with
        | Some r => Some r
        | None => k s cs
        end
      else k s cs
  | [] => k [] cs
  end.

Fixpoint m (r : regex) (s : jsstr) (cs : caps) (k : cont) : option caps :=
  match r with
  | Eps => k s cs
  | Atom a =>
      match s with
      | c :: s' => if amatch a c then k s' cs else None
      | [] => None
      end
  | Cat r1 r2 => m r1 s cs (fun s1 c1 => m r2 s1 c1 k)
  | Alt r1 r2 =>
      match m r1 s cs k with
      | Some r => Some r
      | None => m r2 s cs k
      end
  | Star a => star a s cs k
  | Plus a =>
      match s with
      | c :: s' => if amatch a c then star a s' cs k else None
      | [] => None
      end
  | Opt r1 =>
      match m r1 s cs k with
      | Some r => Some r
      | None => k s cs
      end
  | Grp n r1 =>
      m r1 s cs (fun s1 c1 => k s1 ((n, firstn (length s - length s1) s) :: c1))
  | Eos => match s with [] => k [] cs | _ :: _ => None end
  end.

Definition accept : cont := fun _ cs => Some cs.

(** A pattern that begins with [^]: only the start of the input is tried. *)
Definition exec_anchored (r : regex) (s : jsstr) : option caps := m r s [] accept.

(** [s.match(r)] / [r.exec(s)] for a pattern without the [g] flag. *)
Fixpoint exec (r : regex) (s : jsstr) : option caps :=
  match m r s [] accept with
  | Some cs => Some cs
  | None => match s with [] => None | _ :: s' => exec r s' end
  end.

(** [r.test(s)] *)
Definition test (r : regex) (s : jsstr) : bool :=
  match exec r s with Some _ => true | None => false end.

(** A run of literal code units. *)
Fixpoint str (s : jsstr) : regex :=
  match s with
  | [] => Eps
  | [c] => Atom (Chr c)
  | c :: s' => Cat (Atom (Chr c)) (str s')
  end.

Fixpoint istr (s : jsstr) : regex :=
  match s with
  | [] => Eps
  | [c] => Atom (ChrI c)
  | c :: s' => Cat (Atom (ChrI c)) (istr s')
  end.

Fixpoint rseq (rs : list regex) : regex :=
  match rs with
  | [] => Eps
  | [r] => r
  | r :: rs' => Cat r (rseq rs')
  end.

(** What a pattern can match: [lang r p t] says that [r] matches [p] when
    the rest of the input is [t]. *)
Fixpoint lang (r : regex) (p t : jsstr) : Prop :=
  match r with
  | Eps => p = []
  | Atom a => exists c, p = [c] /\ amatch a c = true
  | Cat r1 r2 => exists p1 p2, p = p1 ++ p2 /\ lang r1 p1 (p2 ++ t) /\ lang r2 p2 t
  | Alt r1 r2 => lang r1 p t \/ lang r2 p t
  | Star a => Forall (fun c => amatch a c = true) p
  | Plus a => p <> [] /\ Forall (fun c => amatch a c = true) p
  | Opt r1 => p = [] \/ lang r1 p t
  | Grp _ r1 => lang r1 p t
  | Eos => p = [] /\ t = []
  end.

(** The number of dots of a string. *)
Definition dots (s : jsstr) : nat := length (filter (Ascii.eqb ".") s).

Definition all_digits (s : jsstr) : Prop := Forall (fun c => is_digit c = true) s.

(** Captures no longer than [n], and continuations that keep them so. *)
Definition bounded (n : nat) (cs : caps) : Prop :=
  Forall (fun e => (length (snd e) <= n)%nat) cs.

Definition keeps_bound (n len : nat) (k : cont) : Prop :=
  forall s1 c1 res, (length s1 <= len)%nat -> bounded n c1 ->
                    k s1 c1 = Some res -> bounded n res.

End Regex.

Import Regex.

(** The patterns of [ii.js], in the order of the source. *)
Module Patterns.

(** [/^(Raitha|Rena|Leaf)/i] (anchored at the start) *)
Definition ii_name : regex :=
  Grp 1 (Alt (istr "Raitha") (Alt (istr "Rena") (istr "Leaf"))).

(** [/Ex\.(\w+)/i] *)
Definition action : regex := Cat (istr "Ex.") (Grp 1 (Plus Word)).

(** [/--\s*(.+)/] *)
Definition params : regex := rseq [str "--"; Star Space; Grp 1 (Plus Dot)].

(** [/(.+)\.(\d+)$/] *)
Definition url_count : regex :=
  rseq [Grp 1 (Plus Dot); str "."; Grp 2 (Plus Digit); Eos].

(** [/(.+)\.(\d+)\.(\d+)$/] *)
Definition url_num_num : regex :=
  rseq [Grp 1 (Plus Dot); str "."; Grp 2 (Plus Digit); str ".";
       Grp 3 (Plus Digit); Eos].

(** [/(.+)\.(.+)$/] *)
Definition url_target : regex :=
  rseq [Grp 1 (Plus Dot); str "."; Grp 2 (Plus Dot); Eos].

(** [/(.+)\.(.+)\.(\d+)(min|sec)?$/] *)
Definition compare : regex :=
  rseq [Grp 1 (Plus Dot); str "."; Grp 2 (Plus Dot); str ".";
       Grp 3 (Plus Digit); Opt (Grp 4 (Alt (str "min") (str "sec"))); Eos].

(** [/(.+)\.(.+)\.(\d+)(sec|min)?$/] *)
Definition monitor : regex :=
  rseq [Grp 1 (Plus Dot); str "."; Grp 2 (Plus Dot); str ".";
       Grp 3 (Plus Digit); Opt (Grp 4 (Alt (str "sec") (str "min"))); Eos].

(** [/(.+)\.(\d+)\.(\d+)(min|sec)?$/] *)
Definition ping : regex :=
  rseq [Grp 1 (Plus Dot); str "."; Grp 2 (Plus Digit); str ".";
       Grp 3 (Plus Digit); Opt (Grp 4 (Alt (str "min") (str "sec"))); Eos].

(** [/(.+)\.(.+)\.(daily|weekly|hourly)$/i] *)
Definition schedule : regex :=
  rseq [Grp 1 (Plus Dot); str "."; Grp 2 (Plus Dot); str ".";
       Grp 3 (Alt (istr "daily") (Alt (istr "weekly") (istr "hourly"))); Eos].

(** [/(.+)\.(\d+)\.(\d+)(sec|min)?$/] *)
Definition loop : regex :=
  rseq [Grp 1 (Plus Dot); str "."; Grp 2 (Plus Digit); str ".";
       Grp 3 (Plus Digit); Opt (Grp 4 (Alt (str "sec") (str "min"))); Eos].

(** [/(.+)\.(\d+)(sec|min)?$/] *)
Definition rotate : regex :=
  rseq [Grp 1 (Plus Dot); str "."; Grp 2 (Plus Digit);
       Opt (Grp 3 (Alt (str "sec") (str "min"))); Eos].

(** The allow-list of [isValidStreamingUrl]. *)
Definition streaming : list regex :=
  [ str "youtube.com/watch?v=";
    str "youtu.be/";
    str "youtube.com/live/";
    str "youtube.com/embed/";
    str "twitch.tv/";
    str "twitch.tv/videos/";
    str "vimeo.com/";
    str "player.vimeo.com/";
    str "dailymotion.com/video/";
    str "dai.ly/";
    rseq [str "facebook.com/"; Star Dot; str "/videos/"];
    str "fb.watch/";
    str "instagram.com/p/";
    str "instagram.com/reel/";
    rseq [str "tiktok.com/@"; Star Dot; str "/video/"];
    str "vm.tiktok.com/";
    str ".m3u8";
    str ".mp4" ].

(** What follows the first group in [url_num_num]: [\.(\d+)\.(\d+)$]. *)
Definition num_num_tail : regex :=
  rseq [str "."; Grp 2 (Plus Digit); str "."; Grp 3 (Plus Digit); Eos].


End Patterns.

(** ** The engine state

    The globals of [ii.js] ([activeTabs], [scheduledTasks], [activeLoops],
    [taskIdCounter]) together with what the browser keeps for the script:
    the pending timers of [setTimeout]/[setInterval] under a virtual clock,
    the lines written to the output panel, and the objects that closures
    share (loop records, the counters of one [executeCommand] run). *)

Module Engine.

Open Scope Z_scope.

(** A JavaScript number that is an integer or [NaN] ([None]). *)
Definition num := option Z.

Definition nmul (a : num) (k : Z) : num :=
  match a with Some v => Some (v * k) | None => None end.
Definition nadd (a : num) (k : Z) : num :=
  match a with Some v => Some (v + k) | None => None end.
(** [a / k] where [a] is a multiple of [k] (every use in the source). *)
Definition ndiv (a : num) (k : Z) : num :=
  match a with Some v => Some (v / k) | None => None end.
Definition nlt (a : num) (k : Z) : bool :=
  match a with Some v => v <? k | None => false end.
Definition ngt (a : num) (k : Z) : bool :=
  match a with Some v => k <? v | None => false end.
Definition show (a : num) : jsstr := optnum_to_str a.

Inductive level := Info | Success | Error | Warning | Voice.

(** The result of a call that may [throw new Error(message)]. *)
Inductive outcome :=
| Ok (result : jsstr)
| Throw (message : jsstr).

(** One entry of [activeTabs]: [{ id, url, type, element }].  The element
    is the tab's window in the page, known by its identity; [muted] is the
    [muted] property of the element's iframe ([None] while never set). *)
Record tab := mkTab {
  tab_id : Z;
  tab_url : jsstr;
  tab_type : jsstr;
  tab_element : nat;
  tab_muted : option bool
}.

(** One value of [activeLoops]. *)
Record loopTask := mkLoop {
  loop_command : jsstr;
  loop_iterations : num;
  loop_delay : num;
  loop_current : Z;
  loop_interval : option nat
}.

(** One value of [scheduledTasks]. *)
Record scheduledTask := mkSched {
  sched_command : jsstr;
  sched_time : jsstr;
  sched_repeat : jsstr;
  sched_active : bool
}.

(** The closures handed to [setTimeout] and [setInterval], by the place of
    the source that creates them and the variables they capture.  The
    closures of one chain share the array [commands] that [executeChain]
    made; [array] is the identity of that array object. *)
Inductive callback :=
| CbMulti (run : nat) (cmdIndex : nat) (cmd : jsstr)  (* executeCommand, a [|] line *)
| CbSummary (run : nat)                               (* executeCommand, the summary *)
| CbLoop (loopId : Z)                                 (* startLoop *)
| CbParallel (i : nat) (cmd : jsstr)                  (* executeParallel *)
| CbChain (array : nat) (commands : list jsstr) (index : nat)
                                                      (* executeChainSequence *)
| CbReload (element : nat).                           (* openTabsWithRefresh *)

(** A pending timer.  [tm_due] is the time of its creation plus the delay
    as the script passed it, and [tm_period] the delay of an interval as
    the script passed it; what the host makes of the delay is in
    [fire_time] and [host_period] below. *)
Record timer := mkTimer {
  tm_id : nat;
  tm_due : Z;
  tm_period : option Z;      (* [Some p] for [setInterval] *)
  tm_cb : callback
}.

Record state := mkState {
  activeTabs : list tab;
  scheduledTasks : list (Z * scheduledTask);
  activeLoops : list Z;               (* the keys present in [activeLoops] *)
  loopObjects : list (Z * loopTask);  (* the loop records, by loop id *)
  taskIdCounter : Z;
  counters : list (Z * Z);            (* commandCount, errorCount of each run *)
  timers : list timer;
  nextTimer : nat;
  now : Z;
  nextElement : nat;
  nextArray : nat;                    (* the command arrays of chains made so far *)
  output : list (level * jsstr);
  hostname : jsstr;                   (* window.location.hostname *)
  fullscreenSupported : bool          (* iframe.requestFullscreen exists *)
}.

Definition initial (host : jsstr) (fs : bool) : state :=
  mkState [] [] [] [] 0 [] [] 1%nat 0 0%nat 0%nat [] host fs.

Definition set_tabs (ts : list tab) (st : state) : state :=
  mkState ts (scheduledTasks st) (activeLoops st) (loopObjects st)
    (taskIdCounter st) (counters st) (timers st) (nextTimer st) (now st)
    (nextElement st) (nextArray st) (output st) (hostname st)
    (fullscreenSupported st).

Definition set_scheduled (x : list (Z * scheduledTask)) (st : state) : state :=
  mkState (activeTabs st) x (activeLoops st) (loopObjects st)
    (taskIdCounter st) (counters st) (timers st) (nextTimer st) (now st)
    (nextElement st) (nextArray st) (output st) (hostname st)
    (fullscreenSupported st).

Definition set_activeLoops (x : list Z) (st : state) : state :=
  mkState (activeTabs st) (scheduledTasks st) x (loopObjects st)
    (taskIdCounter st) (counters st) (timers st) (nextTimer st) (now st)
    (nextElement st) (nextArray st) (output st) (hostname st)
    (fullscreenSupported st).

Definition set_loopObjects (x : list (Z * loopTask)) (st : state) : state :=
  mkState (activeTabs st) (scheduledTasks st) (activeLoops st) x
    (taskIdCounter st) (counters st) (timers st) (nextTimer st) (now st)
    (nextElement st) (nextArray st) (output st) (hostname st)
    (fullscreenSupported st).

Definition set_taskIdCounter (x : Z) (st : state) : state :=
  mkState (activeTabs st) (scheduledTasks st) (activeLoops st)
    (loopObjects st) x (counters st) (timers st) (nextTimer st) (now st)
    (nextElement st) (nextArray st) (output st) (hostname st)
    (fullscreenSupported st).

Definition set_counters (x : list (Z * Z)) (st : state) : state :=
  mkState (activeTabs st) (scheduledTasks st) (activeLoops st)
    (loopObjects st) (taskIdCounter st) x (timers st) (nextTimer st) (now st)
    (nextElement st) (nextArray st) (output st) (hostname st)
    (fullscreenSupported st).

Definition set_timers (x : list timer) (n : nat) (st : state) : state :=
  mkState (activeTabs st) (scheduledTasks st) (activeLoops st)
    (loopObjects st) (taskIdCounter st) (counters st) x n (now st)
    (nextElement st) (nextArray st) (output st) (hostname st)
    (fullscreenSupported st).

Definition set_now (x : Z) (st : state) : state :=
  mkState (activeTabs st) (scheduledTasks st) (activeLoops st)
    (loopObjects st) (taskIdCounter st) (counters st) (timers st)
    (nextTimer st) x (nextElement st) (nextArray st) (output st) (hostname st)
    (fullscreenSupported st).

Definition set_nextElement (x : nat) (st : state) : state :=
  mkState (activeTabs st) (scheduledTasks st) (activeLoops st)
    (loopObjects st) (taskIdCounter st) (counters st) (timers st)
    (nextTimer st) (now st) x (nextArray st) (output st) (hostname st)
    (fullscreenSupported st).

Definition set_nextArray (x : nat) (st : state) : state :=
  mkState (activeTabs st) (scheduledTasks st) (activeLoops st)
    (loopObjects st) (taskIdCounter st) (counters st) (timers st)
    (nextTimer st) (now st) (nextElement st) x (output st) (hostname st)
    (fullscreenSupported st).

Definition set_output (x : list (level * jsstr)) (st : state) : state :=
  mkState (activeTabs st) (scheduledTasks st) (activeLoops st)
    (loopObjects st) (taskIdCounter st) (counters st) (timers st)
    (nextTimer st) (now st) (nextElement st) (nextArray st) x (hostname st)
    (fullscreenSupported st).

(** *** Logging *)

Definition log (message : jsstr) (type : level) (st : state) : state :=
  set_output (output st ++ [(type, message)]) st.

Definition logInfo (msg : jsstr) := log msg Info.
Definition logSuccess (msg : jsstr) := log msg Success.
Definition logError (msg : jsstr) := log msg Error.
Definition logWarning (msg : jsstr) := log msg Warning.

(** The check mark, the cross and the horizontal rule that the source
    prints lie outside the code units of the model; they are kept as named
    constants. *)
Definition glyph_check : jsstr := "[v]".
Definition glyph_cross : jsstr := "[x]".
Definition glyph_rule : jsstr := "----------------------------------------".
Definition dquote : jsstr := [ascii_of_nat 34].
Definition newline : jsstr := [ascii_of_nat 10].

(** *** Timers *)

(** [setTimeout(cb, delay)]; the result is the timer's id.  A negative
    delay counts as 0. *)
Definition setTimeout (cb : callback) (delay : Z) (st : state) : nat * state :=
  let t := mkTimer (nextTimer st) (now st + Z.max 0 delay) None cb in
  (nextTimer st, set_timers (timers st ++ [t]) (S (nextTimer st)) st).

(** [setInterval(cb, delay)].  The timer keeps the delay as the script
    passed it; what the host makes of it, a 32-bit [long] and never less
    than a millisecond between two runs, is [host_delay] and [host_period]
    below, applied where the timer is run ([fire_time], [rearm]). *)
Definition setInterval (cb : callback) (delay : Z) (st : state) : nat * state :=
  let t := mkTimer (nextTimer st) (now st + Z.max 0 delay) (Some (Z.max 0 delay)) cb in
  (nextTimer st, set_timers (timers st ++ [t]) (S (nextTimer st)) st).

(** [clearInterval(id)]; [undefined] or an unknown id clears nothing. *)
Definition clearInterval (i : option nat) (st : state) : state :=
  match i with
  | Some n =>
      set_timers (filter (fun t => negb (Nat.eqb (tm_id t) n)) (timers st))
        (nextTimer st) st
  | None => st
  end.

(** The delay of a timer is a WebIDL [long]: the host reduces the number
    it is given modulo 2^32 into the signed 32-bit range. *)
Definition to_long (d : Z) : Z := (d + 2 ^ 31) mod 2 ^ 32 - 2 ^ 31.

(** The time the host waits before the first run: a delay that came out
    negative counts as 0, so a delay of more than 2147483647 ms that wraps
    below 0 runs at once. *)
Definition host_delay (d : Z) : Z := Z.max 0 (to_long d).

(** The time between two runs of an interval.  Hosts hold a repeating
    timer to a least delay (in the HTML standard 4 ms, once the timer has
    repeated five times); the model takes 1 ms, the least that an integer
    clock can move, so between the runs of a 0 ms interval the clock
    moves on and the other timers get their turn. *)
Definition host_period (d : Z) : Z := Z.max 1 (host_delay d).

(** When a pending timer runs next.  [tm_due] is counted with the delay as
    the script wrote it; for an interval the host's delay takes its place.
    The timeouts of this program wait 1000 ms or an index times 100 or
    200 ms, which is a 32-bit delay for every text of less than ten
    million commands, and run at [tm_due]. *)
Definition fire_time (t : timer) : Z :=
  match tm_period t with
  | Some p => tm_due t - p + host_delay p
  | None => tm_due t
  end.

(** A timer delay that is [NaN] counts as 0. *)
Definition delay_of (d : num) : Z := match d with Some v => v | None => 0 end.

(** *** Tab management *)

(** [activeTabs.length > 0 ? Math.max(...activeTabs.map(t => t.id)) + 1 : 0] *)
Definition startId (tabs : list tab) : Z :=
  match map tab_id tabs with
  | [] => 0
  | x :: r => fold_left Z.max r x + 1
  end.

(** The number of rounds of [for (let i = 0; i < count; i++)]. *)
Definition rounds (count : num) : nat :=
  match count with Some v => Z.to_nat v | None => 0%nat end.

Definition tabs_word (n : nat) : jsstr :=
  show (Some (Z.of_nat n)) ++ " Tab" ++ (if Nat.eqb n 1 then "" else "s").

Definition openTabs (url : jsstr) (count : num) (type : jsstr) (st : state) : state :=
  let start := startId (activeTabs st) in
  let fresh :=
    map (fun i => mkTab (start + Z.of_nat i) url type (nextElement st + i)%nat None)
        (seq 0 (rounds count)) in
  let st1 :=
    set_nextElement (nextElement st + rounds count)%nat
      (set_tabs (activeTabs st ++ fresh) st) in
  logSuccess (glyph_check ++ " Opened " ++ show count
              ++ " tab(s) in execution screen (Total: "
              ++ show (Some (Z.of_nat (length (activeTabs st1)))) ++ ")") st1.

Definition openTabsWithRefresh (url : jsstr) (interval : num) (count : num)
    (st : state) : state :=
  let st1 := openTabs url count "refresh" st in
  fold_left (fun s t => snd (setInterval (CbReload (tab_element t)) (delay_of interval) s))
            (activeTabs st1) st1.

(** [closeTab(index)]: the page holds an element [tab-<id>] for each entry
    of [activeTabs]. *)
Definition closeTab (index : Z) (st : state) : state :=
  if existsb (fun t => tab_id t =? index) (activeTabs st)
  then set_tabs (filter (fun t => negb (tab_id t =? index)) (activeTabs st)) st
  else st.

Definition closeAllTabs (st : state) : state :=
  let count := length (activeTabs st) in
  logInfo ("Closed all " ++ show (Some (Z.of_nat count)) ++ " tab(s)")
          (set_tabs [] st).

(** *** URL utilities *)

Definition isValidStreamingUrl (url : jsstr) : bool :=
  existsb (fun pattern => test pattern url) Patterns.streaming.

(** [s.split(a)[1]]: [None] is [undefined]. *)
Definition second (l : list jsstr) : option jsstr := nth_error l 1.
Definition first (l : list jsstr) : jsstr := nth 0 l [].

(** Calling [.split] on [undefined] throws a [TypeError]. *)
Definition typeError : outcome := Throw "TypeError: undefined has no properties".

Definition convertYouTubeUrl (url : jsstr) (autoplay : bool) : outcome :=
  let videoId : option jsstr :=
    if includes "youtube.com/watch?v=" url then
      option_map (fun x => first (split "&" x)) (second (split "v=" url))
    else if includes "youtu.be/" url then
      option_map (fun x => first (split "?" x)) (second (split "youtu.be/" url))
    else if includes "youtube.com/live/" url then
      option_map (fun x => first (split "?" x)) (second (split "live/" url))
    else if includes "youtube.com/embed/" url then
      option_map (fun x => first (split "?" x)) (second (split "embed/" url))
    else Some [] in
  match videoId with
  | None => typeError
  | Some [] => Throw "Could not extract YouTube video ID"
  | Some v =>
      let embedUrl := "https://www.youtube.com/embed/" ++ v
                      ++ "?rel=0&modestbranding=1&controls=1&showinfo=0" in
      Ok (if autoplay then embedUrl ++ "&autoplay=1&mute=1" else embedUrl)
  end.

Definition convertTwitchUrl (host : jsstr) (url : jsstr) (autoplay : bool) : outcome :=
  if includes "/videos/" url then
    match second (split "/videos/" url) with
    | None => typeError
    | Some x =>
        let video := first (split "?" x) in
        let embedUrl := "https://player.twitch.tv/?video=" ++ video
                        ++ "&parent=" ++ host in
        Ok (if autoplay then embedUrl ++ "&autoplay=true&muted=true" else embedUrl)
    end
  else
    let channel :=
      match second (split "twitch.tv/" url) with
      | Some (c :: p) => first (split "?" (first (split "/" (c :: p))))
      | _ => []
      end in
    match channel with
    | [] => Throw "Could not extract Twitch channel"
    | _ =>
        let embedUrl := "https://player.twitch.tv/?channel=" ++ channel
                        ++ "&parent=" ++ host in
        Ok (if autoplay then embedUrl ++ "&autoplay=true&muted=true" else embedUrl)
    end.

Definition convertVimeoUrl (url : jsstr) (autoplay : bool) : outcome :=
  let videoId : option jsstr :=
    if includes "vimeo.com/" url then
      option_map (fun x => first (split "/" (first (split "?" x))))
                 (second (split "vimeo.com/" url))
    else Some [] in
  match videoId with
  | None => typeError
  | Some [] => Throw "Could not extract Vimeo video ID"
  | Some v =>
      let embedUrl := "https://player.vimeo.com/video/" ++ v
                      ++ "?title=0&byline=0&portrait=0" in
      Ok (if autoplay then embedUrl ++ "&autoplay=1&muted=1" else embedUrl)
  end.

Definition convertDailyMotionUrl (url : jsstr) (autoplay : bool) : outcome :=
  let videoId : option jsstr :=
    if includes "dailymotion.com/video/" url then
      option_map (fun x => first (split "_" (first (split "?" x))))
                 (second (split "/video/" url))
    else if includes "dai.ly/" url then
      option_map (fun x => first (split "?" x)) (second (split "dai.ly/" url))
    else Some [] in
  match videoId with
  | None => typeError
  | Some [] => Throw "Could not extract DailyMotion video ID"
  | Some v =>
      let embedUrl := "https://www.dailymotion.com/embed/video/" ++ v
                      ++ "?ui-logo=0" in
      Ok (if autoplay then embedUrl ++ "&autoplay=1&mute=1" else embedUrl)
  end.

Definition limited (platform : jsstr) : jsstr :=
  platform ++ " embeds have limitations due to platform restrictions".

Definition convertToEmbedUrl (url : jsstr) (autoplay : bool) (st : state)
    : outcome * state :=
  if (includes "youtube.com" url || includes "youtu.be" url)%bool then
    (convertYouTubeUrl url autoplay, st)
  else if includes "twitch.tv" url then
    (convertTwitchUrl (hostname st) url autoplay, st)
  else if includes "vimeo.com" url then
    (convertVimeoUrl url autoplay, st)
  else if (includes "dailymotion.com" url || includes "dai.ly" url)%bool then
    (convertDailyMotionUrl url autoplay, st)
  else if (includes "facebook.com" url || includes "fb.watch" url)%bool then
    (Ok url, logWarning (limited "Facebook") st)
  else if includes "instagram.com" url then
    (Ok url, logWarning (limited "Instagram") st)
  else if includes "tiktok.com" url then
    (Ok url, logWarning (limited "TikTok") st)
  else (Ok url, st).

(** *** Captures of a successful match *)

(** [match[n]] for a group that takes part in every match of its pattern. *)
Definition group (n : nat) (cs : caps) : jsstr :=
  match capture n cs with Some v => v | None => [] end.

(** [match[n] === s]; an unset group is [undefined]. *)
Definition group_is (n : nat) (cs : caps) (s : jsstr) : bool :=
  match capture n cs with Some v => eqb v s | None => false end.

(** [match[n] || 'sec'] *)
Definition unit_of (n : nat) (cs : caps) : jsstr :=
  match capture n cs with
  | Some (c :: v) => c :: v
  | _ => lit "sec"
  end.

Definition count_str (n : nat) : jsstr := show (Some (Z.of_nat n)).

(** *** Raitha commands (media and browser automation) *)

Definition executeWatch (params : jsstr) (st : state) : outcome * state :=
  match exec Patterns.url_count params with
  | None => (Throw "Format: <url>.<tabs>", st)
  | Some mt =>
      let url := trim (group 1 mt) in
      let tabCount := parseInt (group 2 mt) in
      if (nlt tabCount 1 || ngt tabCount 100)%bool then (Throw "Tab count: 1-100", st)
      else if negb (isValidStreamingUrl url) then
        (Throw "Invalid streaming platform URL", st)
      else
        match convertToEmbedUrl url false st with
        | (Throw e, st1) => (Throw e, st1)
        | (Ok embedUrl, st1) =>
            let st2 := openTabs embedUrl tabCount "watch" st1 in
            (Ok ("Opened " ++ show tabCount ++ " tab(s) watching: " ++ url), st2)
        end
  end.

Definition executeLurk (params : jsstr) (st : state) : outcome * state :=
  match exec Patterns.url_count params with
  | None => (Throw "Format: <url>.<tabs>", st)
  | Some mt =>
      let url := trim (group 1 mt) in
      let tabCount := parseInt (group 2 mt) in
      if (nlt tabCount 1 || ngt tabCount 100)%bool then (Throw "Tab count: 1-100", st)
      else if negb (isValidStreamingUrl url) then
        (Throw "Invalid streaming platform URL", st)
      else
        match convertToEmbedUrl url true st with
        | (Throw e, st1) => (Throw e, st1)
        | (Ok embedUrl, st1) =>
            let st2 := openTabs embedUrl tabCount "lurk" st1 in
            (Ok ("Opened " ++ show tabCount ++ " tab(s) lurking in: " ++ url), st2)
        end
  end.

Definition executeRefresh (params : jsstr) (st : state) : outcome * state :=
  match exec Patterns.url_num_num params with
  | None => (Throw "Format: <url>.<interval_sec>.<tabs>", st)
  | Some mt =>
      let url := trim (group 1 mt) in
      let interval := nmul (parseInt (group 2 mt)) 1000 in
      let tabCount := parseInt (group 3 mt) in
      let st1 := openTabsWithRefresh url interval tabCount st in
      (Ok ("Opened " ++ show tabCount ++ " tab(s) with "
           ++ show (ndiv interval 1000) ++ "s auto-refresh"), st1)
  end.

Definition set_muted (b : bool) (t : tab) : tab :=
  mkTab (tab_id t) (tab_url t) (tab_type t) (tab_element t) (Some b).

(** [t.id === id]; nothing equals [NaN]. *)
Definition id_is (id : num) (t : tab) : bool :=
  match id with Some v => tab_id t =? v | None => false end.

(** [const tab = activeTabs.find(t => t.id === id); if (tab) iframe.muted = b] *)
Fixpoint mute_found (b : bool) (id : num) (tabs : list tab) : list tab :=
  match tabs with
  | [] => []
  | t :: r => if id_is id t then set_muted b t :: r else t :: mute_found b id r
  end.

(** [tabIds.forEach(id => ...)] *)
Definition mute_all (b : bool) (tabIds : list num) (tabs : list tab) : list tab :=
  fold_left (fun ts id => mute_found b id ts) tabIds tabs.

Definition tabIds_of (params : jsstr) : list num :=
  map (fun n => nadd (parseInt (trim n)) (-1)) (split "," params).

Definition executeMute (params : jsstr) (st : state) : outcome * state :=
  if eqb (toLowerCase params) "all" then
    (Ok ("Muted all " ++ count_str (length (activeTabs st)) ++ " tab(s)"),
     set_tabs (map (set_muted true) (activeTabs st)) st)
  else
    let tabIds := tabIds_of params in
    (Ok ("Muted " ++ count_str (length tabIds) ++ " tab(s)"),
     set_tabs (mute_all true tabIds (activeTabs st)) st).

Definition executeUnmute (params : jsstr) (st : state) : outcome * state :=
  if eqb (toLowerCase params) "all" then
    (Ok ("Unmuted all " ++ count_str (length (activeTabs st)) ++ " tab(s)"),
     set_tabs (map (set_muted false) (activeTabs st)) st)
  else
    let tabIds := tabIds_of params in
    (Ok ("Unmuted " ++ count_str (length tabIds) ++ " tab(s)"),
     set_tabs (mute_all false tabIds (activeTabs st)) st).

Definition executeScroll (params : jsstr) (st : state) : outcome * state :=
  (Ok "Scroll command registered",
   logWarning "Scroll command simulated (cross-origin restrictions apply)" st).

Definition executeFullscreen (params : jsstr) (st : state) : outcome * state :=
  let tabNum := nadd (parseInt params) (-1) in
  if existsb (id_is tabNum) (activeTabs st) then
    if fullscreenSupported st then
      (Ok ("Tab " ++ show (nadd tabNum 1) ++ " in fullscreen"), st)
    else (Throw "Fullscreen not supported", st)
  else (Throw ("Tab " ++ show (nadd tabNum 1) ++ " not found"), st).

Definition executeRaithaCommand (action params : jsstr) (st : state)
    : outcome * state :=
  if eqb action "watch" then executeWatch params st
  else if eqb action "lurk" then executeLurk params st
  else if eqb action "refresh" then executeRefresh params st
  else if eqb action "mute" then executeMute params st
  else if eqb action "unmute" then executeUnmute params st
  else if eqb action "scroll" then executeScroll params st
  else if eqb action "fullscreen" then executeFullscreen params st
  else (Throw ("Unknown Raitha action: " ++ action
               ++ ". Available: watch, lurk, refresh, mute, unmute, scroll, fullscreen"),
        st).

(** *** Rena commands (data and testing) *)

Definition executeTest (params : jsstr) (st : state) : outcome * state :=
  match exec Patterns.url_count params with
  | None => (Throw "Format: <url>.<requests_per_sec>", st)
  | Some mt =>
      let url := trim (group 1 mt) in
      let rps := parseInt (group 2 mt) in
      (Ok ("Load test started on " ++ url),
       logInfo ("Load testing " ++ url ++ " at " ++ show rps ++ " requests/sec") st)
  end.

Definition executeScrape (params : jsstr) (st : state) : outcome * state :=
  match exec Patterns.url_target params with
  | None => (Throw "Format: <url>.<target>", st)
  | Some mt =>
      let url := trim (group 1 mt) in
      let target := trim (group 2 mt) in
      let st1 := logInfo ("Scraping " ++ target ++ " from " ++ url) st in
      (Ok ("Scraping " ++ target ++ " from " ++ url),
       openTabs url (Some 1) "scrape" st1)
  end.

Definition executeCompare (params : jsstr) (st : state) : outcome * state :=
  match exec Patterns.compare params with
  | None => (Throw "Format: <url1>.<url2>.<interval>", st)
  | Some mt =>
      let url1 := trim (group 1 mt) in
      let url2 := trim (group 2 mt) in
      let interval := parseInt (group 3 mt) in
      (Ok ("Monitoring comparison every " ++ show interval ++ unit_of 4 mt),
       logInfo ("Comparing " ++ url1 ++ " vs " ++ url2 ++ " every "
                ++ show interval ++ unit_of 4 mt) st)
  end.

Definition executeMonitor (params : jsstr) (st : state) : outcome * state :=
  match exec Patterns.monitor params with
  | None => (Throw "Format: <url>.<keyword>.<check_interval>", st)
  | Some mt =>
      let url := trim (group 1 mt) in
      let keyword := trim (group 2 mt) in
      let interval := parseInt (group 3 mt) in
      (Ok ("Monitoring for " ++ dquote ++ keyword ++ dquote ++ " every "
           ++ show interval ++ unit_of 4 mt),
       logInfo ("Monitoring " ++ url ++ " for " ++ dquote ++ keyword ++ dquote
                ++ " every " ++ show interval ++ unit_of 4 mt) st)
  end.

Definition executeDownload (params : jsstr) (st : state) : outcome * state :=
  (Ok "Download initiated (browser security may block)",
   logInfo ("Download command: " ++ params) st).

Definition executePing (params : jsstr) (st : state) : outcome * state :=
  match exec Patterns.ping params with
  | None => (Throw "Format: <url>.<interval>.<duration>", st)
  | Some mt =>
      let url := trim (group 1 mt) in
      let interval := parseInt (group 2 mt) in
      let duration := parseInt (group 3 mt) in
      (Ok "Keep-alive ping started",
       logInfo ("Pinging " ++ url ++ " every " ++ show interval ++ unit_of 4 mt
                ++ " for " ++ show duration ++ unit_of 4 mt) st)
  end.

Definition executeRenaCommand (action params : jsstr) (st : state)
    : outcome * state :=
  if eqb action "test" then executeTest params st
  else if eqb action "scrape" then executeScrape params st
  else if eqb action "compare" then executeCompare params st
  else if eqb action "monitor" then executeMonitor params st
  else if eqb action "download" then executeDownload params st
  else if eqb action "ping" then executePing params st
  else (Throw ("Unknown Rena action: " ++ action
               ++ ". Available: test, scrape, compare, monitor, download, ping"),
        st).

(** *** Leaf commands (schedule and network) *)

Fixpoint lookup {A} (k : Z) (l : list (Z * A)) : option A :=
  match l with
  | (k', v) :: r => if k' =? k then Some v else lookup k r
  | [] => None
  end.

(** [obj[k] = v] *)
Definition store {A} (k : Z) (v : A) (l : list (Z * A)) : list (Z * A) :=
  (k, v) :: filter (fun e => negb (fst e =? k)) l.

Definition executeSchedule (params : jsstr) (st : state) : outcome * state :=
  match exec Patterns.schedule params with
  | None => (Throw "Format: <command>.<time>.<repeat>", st)
  | Some mt =>
      let command := trim (group 1 mt) in
      let time := trim (group 2 mt) in
      let repeat := toLowerCase (group 3 mt) in
      let taskId := taskIdCounter st in
      let st1 := set_taskIdCounter (taskId + 1) st in
      let st2 :=
        set_scheduled (store taskId (mkSched command time repeat true)
                             (scheduledTasks st1)) st1 in
      (Ok ("Task scheduled (ID: " ++ show (Some taskId) ++ ")"),
       logInfo ("Scheduled " ++ dquote ++ command ++ dquote ++ " at " ++ time
                ++ " (" ++ repeat ++ ")") st2)
  end.

(** [startLoop(loopId)]: the interval's callback closes over the loop
    record and its id. *)
Definition startLoop (loopId : Z) (st : state) : state :=
  if negb (existsb (Z.eqb loopId) (activeLoops st)) then st
  else
    match lookup loopId (loopObjects st) with
    | None => st
    | Some loop =>
        let '(handle, st1) := setInterval (CbLoop loopId) (delay_of (loop_delay loop)) st in
        let loop' := mkLoop (loop_command loop) (loop_iterations loop)
                            (loop_delay loop) (loop_current loop) (Some handle) in
        let st2 := set_loopObjects (store loopId loop' (loopObjects st1)) st1 in
        logInfo ("Loop " ++ show (Some loopId) ++ " started") st2
    end.

Definition executeLoop (params : jsstr) (st : state) : outcome * state :=
  match exec Patterns.loop params with
  | None => (Throw "Format: <command>.<iterations>.<delay>", st)
  | Some mt =>
      let command := trim (group 1 mt) in
      let iterations := parseInt (group 2 mt) in
      let delay := nmul (parseInt (group 3 mt))
                        (if group_is 4 mt "min" then 60000 else 1000) in
      let loopId := taskIdCounter st in
      let st1 := set_taskIdCounter (loopId + 1) st in
      let st2 :=
        set_activeLoops (loopId :: filter (fun k => negb (k =? loopId)) (activeLoops st1))
          (set_loopObjects (store loopId (mkLoop command iterations delay 0 None)
                                  (loopObjects st1)) st1) in
      let st3 := startLoop loopId st2 in
      (Ok ("Loop started: " ++ show iterations ++ " times with "
           ++ show (ndiv delay 1000) ++ "s delay (ID: " ++ show (Some loopId) ++ ")"),
       st3)
  end.

Definition executeBatch (params : jsstr) (st : state) : outcome * state :=
  (Ok "Batch mode activated", logInfo ("Batch execution: " ++ params) st).

(** [l.forEach((x, i) => f(x, i))] *)
Fixpoint forEach_from {A} (f : A -> nat -> state -> state) (l : list A) (i : nat)
    (st : state) : state :=
  match l with
  | [] => st
  | x :: r => forEach_from f r (S i) (f x i st)
  end.

Definition forEach {A} (f : A -> nat -> state -> state) (l : list A) (st : state) :=
  forEach_from f l 0 st.

Definition executeParallel (params : jsstr) (st : state) : outcome * state :=
  let commands := map trim (split "|" params) in
  let st1 := logInfo ("Executing " ++ count_str (length commands)
                      ++ " commands in parallel") st in
  let st2 :=
    forEach (fun cmd i s => snd (setTimeout (CbParallel i cmd) (Z.of_nat i * 100) s))
            commands st1 in
  (Ok (count_str (length commands) ++ " commands running in parallel"), st2).

Definition executeRotate (params : jsstr) (st : state) : outcome * state :=
  match exec Patterns.rotate params with
  | None => (Throw "Format: <url_list>.<interval>", st)
  | Some mt =>
      let urls := map trim (split "," (group 1 mt)) in
      let interval := nmul (parseInt (group 2 mt))
                           (if group_is 3 mt "min" then 60000 else 1000) in
      (Ok "URL rotation started",
       logInfo ("Rotating through " ++ count_str (length urls) ++ " URLs every "
                ++ show (ndiv interval 1000) ++ "s") st)
  end.

(** [parseAndExecute] and the handlers of the Leaf commands call each
    other: [executeChain] runs the first step of its chain at once, through
    [executeChainSequence] and [parseAndExecute].  The handlers are written
    over the dispatcher they call, and the knot is tied below. *)
Section Dispatch.

(** [parseAndExecute] as seen from inside a handler. *)
Variable dispatch : jsstr -> state -> outcome * state.

(** [executeChainSequence(commands, index)], for the array [commands] of
    identity [array]. *)
Definition executeChainSequence_with (array : nat) (commands : list jsstr)
    (index : nat) (st : state) : state :=
  match nth_error commands index with
  | None => logSuccess "Chain completed" st
  | Some command =>
      match dispatch command st with
      | (Ok result, st1) =>
          let st2 := logSuccess ("Chain step " ++ count_str (index + 1) ++ ": "
                                 ++ result) st1 in
          snd (setTimeout (CbChain array commands (index + 1)) 1000 st2)
      | (Throw message, st1) =>
          logError ("Chain failed at step " ++ count_str (index + 1) ++ ": "
                    ++ message) st1
      end
  end.

Definition executeChain_with (params : jsstr) (st : state) : outcome * state :=
  let commands := map trim (split "->" params) in
  let array := nextArray st in
  let st1 := logInfo ("Chaining " ++ count_str (length commands) ++ " commands")
                     (set_nextArray (S array) st) in
  let st2 := executeChainSequence_with array commands 0 st1 in
  (Ok ("Chain of " ++ count_str (length commands) ++ " commands started"), st2).

Definition executeLeafCommand_with (action params : jsstr) (st : state)
    : outcome * state :=
  if eqb action "schedule" then executeSchedule params st
  else if eqb action "loop" then executeLoop params st
  else if eqb action "batch" then executeBatch params st
  else if eqb action "parallel" then executeParallel params st
  else if eqb action "chain" then executeChain_with params st
  else if eqb action "rotate" then executeRotate params st
  else (Throw ("Unknown Leaf action: " ++ action
               ++ ". Available: schedule, loop, batch, parallel, chain, rotate"),
        st).

Definition executeAction_with (iiName action params : jsstr) (st : state)
    : outcome * state :=
  if eqb iiName "raitha" then executeRaithaCommand action params st
  else if eqb iiName "rena" then executeRenaCommand action params st
  else if eqb iiName "leaf" then executeLeafCommand_with action params st
  else (Throw ("Unknown II: " ++ iiName), st).

Definition parseAndExecute_with (command : jsstr) (st : state) : outcome * state :=
  match exec_anchored Patterns.ii_name command with
  | None => (Throw "Command must start with II name", st)
  | Some iiMatch =>
      let iiName := toLowerCase (group 1 iiMatch) in
      match exec Patterns.action command with
      | None => (Throw "Invalid action format. Use: Ex.[action]", st)
      | Some actionMatch =>
          let action := toLowerCase (group 1 actionMatch) in
          match exec Patterns.params command with
          | None => (Throw "Missing parameters. Use: -- [params]", st)
          | Some paramsMatch =>
              let params := trim (group 1 paramsMatch) in
              executeAction_with iiName action params st
          end
      end
  end.

End Dispatch.

(** The command of a nested call is a proper part of the command that
    makes it (the text after its [--]), so the nesting of calls is bounded
    by the length of the command; [parseAndExecute_fuel] unfolds that many
    levels (see [parseAndExecute_unfold]). *)
Fixpoint parseAndExecute_fuel (n : nat) (command : jsstr) (st : state)
    : outcome * state :=
  match n with
  | O => (Throw "Maximum call stack size exceeded", st)
  | S n' => parseAndExecute_with (parseAndExecute_fuel n') command st
  end.

Definition parseAndExecute (command : jsstr) (st : state) : outcome * state :=
  parseAndExecute_fuel (S (length command)) command st.

Definition executeAction := executeAction_with parseAndExecute.
Definition executeLeafCommand := executeLeafCommand_with parseAndExecute.
Definition executeChain := executeChain_with parseAndExecute.
Definition executeChainSequence := executeChainSequence_with parseAndExecute.

(** *** Timer callbacks *)

Definition nge (a : Z) (b : num) : bool :=
  match b with Some v => v <=? a | None => false end.

(** The callback of [startLoop]'s [setInterval]. *)
Definition loopTick (loopId : Z) (st : state) : state :=
  match lookup loopId (loopObjects st) with
  | None => st
  | Some loop0 =>
      match parseAndExecute (loop_command loop0) st with
      | (Ok _, st1) =>
          match lookup loopId (loopObjects st1) with
          | None => st1
          | Some loop =>
              let loop' := mkLoop (loop_command loop) (loop_iterations loop)
                                  (loop_delay loop) (loop_current loop + 1)
                                  (loop_interval loop) in
              let st2 := set_loopObjects (store loopId loop' (loopObjects st1)) st1 in
              if nge (loop_current loop') (loop_iterations loop') then
                let st3 := clearInterval (loop_interval loop') st2 in
                let st4 := set_activeLoops
                             (filter (fun k => negb (k =? loopId)) (activeLoops st3)) st3 in
                logSuccess ("Loop " ++ show (Some loopId) ++ " completed "
                            ++ show (loop_iterations loop') ++ " iterations") st4
              else st2
          end
      | (Throw message, st1) =>
          logError ("Loop " ++ show (Some loopId) ++ " error: " ++ message) st1
      end
  end.

(** The callback of [executeParallel]'s [setTimeout]. *)
Definition parallelRun (i : nat) (cmd : jsstr) (st : state) : state :=
  match parseAndExecute cmd st with
  | (Ok _, st1) => st1
  | (Throw message, st1) =>
      logError ("Parallel command " ++ count_str (i + 1) ++ " failed: " ++ message) st1
  end.

Definition bump_command (run : nat) (cs : list (Z * Z)) : list (Z * Z) :=
  match nth_error cs run with
  | Some (c, e) => firstn run cs ++ (c + 1, e) :: skipn (S run) cs
  | None => cs
  end.

Definition bump_error (run : nat) (cs : list (Z * Z)) : list (Z * Z) :=
  match nth_error cs run with
  | Some (c, e) => firstn run cs ++ (c, e + 1) :: skipn (S run) cs
  | None => cs
  end.

(** The callback of a [|] line of [executeCommand]. *)
Definition multiRun (run cmdIndex : nat) (cmd : jsstr) (st : state) : state :=
  match parseAndExecute cmd st with
  | (Ok [], st1) => st1
  | (Ok result, st1) =>
      logSuccess (glyph_check ++ " Multi-command " ++ count_str (cmdIndex + 1)
                  ++ ": " ++ result)
                 (set_counters (bump_command run (counters st1)) st1)
  | (Throw message, st1) =>
      logError (glyph_cross ++ " Multi-command " ++ count_str (cmdIndex + 1)
                ++ ": " ++ message)
               (set_counters (bump_error run (counters st1)) st1)
  end.

(** The summary that [executeCommand] prints after one second. *)
Definition summary (run : nat) (st : state) : state :=
  let '(commandCount, errorCount) := nth run (counters st) (0, 0) in
  let st1 :=
    if errorCount =? 0 then
      logSuccess ("All " ++ show (Some commandCount) ++ " command(s) executed!")
                 (logSuccess glyph_rule st)
    else logWarning ("Completed with " ++ show (Some errorCount) ++ " error(s)") st in
  logInfo glyph_rule st1.

Definition run_callback (cb : callback) (st : state) : state :=
  match cb with
  | CbMulti run cmdIndex cmd => multiRun run cmdIndex cmd st
  | CbSummary run => summary run st
  | CbLoop loopId => loopTick loopId st
  | CbParallel i cmd => parallelRun i cmd st
  | CbChain array commands index => executeChainSequence array commands index st
  | CbReload _ => st        (* [iframe.src = iframe.src]: the page reloads *)
  end.

(** *** The event loop

    The pending timer whose [fire_time] comes first runs next; among
    timers that run at the same time, the one created first.  The clock
    moves to that time, an interval is armed again one [host_period]
    later, and the callback runs to completion. *)
Definition earlier (a b : timer) : bool :=
  ((fire_time a <? fire_time b)
   || ((fire_time a =? fire_time b) && Nat.leb (tm_id a) (tm_id b)))%bool.

Fixpoint next_timer (ts : list timer) : option timer :=
  match ts with
  | [] => None
  | t :: r =>
      match next_timer r with
      | Some u => Some (if earlier t u then t else u)
      | None => Some t
      end
  end.

Definition rearm (t : timer) (ts : list timer) : list timer :=
  match tm_period t with
  | Some p =>
      map (fun u => if Nat.eqb (tm_id u) (tm_id t)
                    then mkTimer (tm_id u) (tm_due u + host_period p) (tm_period u) (tm_cb u)
                    else u) ts
  | None => filter (fun u => negb (Nat.eqb (tm_id u) (tm_id t))) ts
  end.

(** The start of one turn of the event loop: the timer that fires, and
    the state in which its callback starts; [None] when no timer is
    pending. *)
Definition prepare (st : state) : option (timer * state) :=
  match next_timer (timers st) with
  | None => None
  | Some t =>
      let st1 := set_now (Z.max (now st) (fire_time t)) st in
      Some (t, set_timers (rearm t (timers st1)) (nextTimer st1) st1)
  end.

(** One turn of the event loop: the timer that fires and the state after
    its callback. *)
Definition fire (st : state) : option (timer * state) :=
  match prepare st with
  | None => None
  | Some (t, st1) => Some (t, run_callback (tm_cb t) st1)
  end.

(** [n] turns of the event loop: the timers that fired, each with the
    state in which its callback started, and the state at the end. *)
Fixpoint run (n : nat) (st : state) : list (timer * state) * state :=
  match n with
  | O => ([], st)
  | S n' =>
      match prepare st with
      | None => ([], st)
      | Some (t, st1) =>
          let '(turns, st2) := run n' (run_callback (tm_cb t) st1) in
          ((t, st1) :: turns, st2)
      end
  end.

(** *** Text shown as HTML *)

(** [s.replace(/c/g, by)] for a pattern that is one literal code unit and
    a replacement text without [$]. *)
Definition replaceAll (c : ascii) (by_text : jsstr) (s : jsstr) : jsstr :=
  flat_map (fun x => if Ascii.eqb x c then by_text else [x]) s.

Definition quote_char : ascii := ascii_of_nat 34.

Definition escapeHtml (text : jsstr) : jsstr :=
  replaceAll "'" "&#039;"
    (replaceAll quote_char "&quot;"
       (replaceAll ">" "&gt;"
          (replaceAll "<" "&lt;"
             (replaceAll "&" "&amp;" text)))).

(** *** Command execution *)

Definition nonblank (line : jsstr) : bool :=
  match trim line with [] => false | _ :: _ => true end.

(** The body of [lines.forEach((line, index) => ...)] of [executeCommand]. *)
Definition executeLine (run : nat) (line : jsstr) (index : nat) (st : state) : state :=
  let trimmed := trim line in
  if (negb (nonblank trimmed) || startsWith "//" trimmed)%bool then st
  else if (includes "|" trimmed && negb (startsWith "Leaf Ex.parallel" trimmed))%bool then
    let multiCommands := map trim (split "|" trimmed) in
    let st1 := logInfo ("Executing " ++ count_str (length multiCommands)
                        ++ " commands simultaneously...") st in
    forEach (fun cmd cmdIndex s =>
               snd (setTimeout (CbMulti run cmdIndex cmd) (Z.of_nat cmdIndex * 200) s))
            multiCommands st1
  else
    match parseAndExecute trimmed st with
    | (Ok [], st1) => st1
    | (Ok result, st1) =>
        logSuccess (glyph_check ++ " Command " ++ count_str (index + 1) ++ ": " ++ result)
                   (set_counters (bump_command run (counters st1)) st1)
    | (Throw message, st1) =>
        logError (glyph_cross ++ " Command " ++ count_str (index + 1) ++ ": " ++ message)
                 (set_counters (bump_error run (counters st1)) st1)
    end.

(** [executeCommand()], on the text of the command input. *)
Definition executeCommand (value : jsstr) (st : state) : state :=
  let input := trim value in
  match input with
  | [] => logWarning "No command entered!" st
  | _ :: _ =>
      let st1 := logInfo "Executing commands..." (logInfo glyph_rule st) in
      let lines := filter nonblank (split newline input) in
      let run := length (counters st1) in
      let st2 := set_counters (counters st1 ++ [(0, 0)]) st1 in
      let st3 := forEach (executeLine run) lines st2 in
      snd (setTimeout (CbSummary run) 1000 st3)
  end.

End Engine.

Import Engine.
Open Scope Z_scope.

(** ** Notions used to state the properties *)

Module Spec.

(** The ids of the open tabs, in the order of [activeTabs]. *)
Definition ids (st : state) : list Z := map tab_id (activeTabs st).

(** [[a; a+1; ...; a+n-1]] *)
Definition zseq (a : Z) (n : nat) : list Z := map (fun i => a + Z.of_nat i) (seq 0 n).

(** The tabs that one call of [openTabs] appends to the table. *)
Definition opened (url : jsstr) (count : num) (type : jsstr) (st : state) : list tab :=
  skipn (length (activeTabs st)) (activeTabs (openTabs url count type st)).

(** What a tab is, apart from the mute flag of its iframe. *)
Definition identity (t : tab) : Z * jsstr * jsstr * nat :=
  (tab_id t, tab_url t, tab_type t, tab_element t).

(** A tab is requested by a mute parameter string when one of its
    comma-separated entries, read as a number, is the tab's id plus one. *)
Definition requested (params : jsstr) (t : tab) : bool :=
  existsb (fun entry => match parseInt (trim entry) with
                        | Some n => n =? tab_id t + 1
                        | None => false
                        end)
          (split "," params).

(** What mute ([b = true]) or unmute ([b = false]) with the parameter
    string [params] does to the tab table: every tab keeps its identity; a
    tab changes only by having its flag set to [b], and only when it is
    requested; the table is unchanged when no tab is requested; and when
    the ids are unique exactly the requested tabs have their flag set. *)
Definition mute_effect (b : bool) (params : jsstr) (tabs tabs' : list tab) : Prop :=
  map identity tabs' = map identity tabs /\
  Forall2 (fun t t' => t' = t \/ (requested params t = true /\ t' = set_muted b t))
          tabs tabs' /\
  ((forall t, In t tabs -> requested params t = false) -> tabs' = tabs) /\
  (NoDup (map tab_id tabs) ->
   tabs' = map (fun t => if requested params t then set_muted b t else t) tabs).

(** *** The command grammar, read from the specification

    [<Agent> Ex.<action> -- <params>]: the line starts with one of the
    three agent names in any letter case; it contains [Ex.] followed by an
    identifier, of which the leftmost counts; and it contains [--] followed
    by a non-empty remainder, of which the first counts.  [any_case] says
    whether the marker [Ex.] may be written in any letter case. *)

Definition agents : list jsstr := [lit "raitha"; lit "rena"; lit "leaf"].

(** The agent whose name the line starts with, lower-cased. *)
Definition agent_of (line : jsstr) : option jsstr :=
  find (fun name => JsString.eqb (toLowerCase (firstn (length name) line)) name) agents.

(** The longest run of identifier characters at the start of [s]. *)
Fixpoint identifier (s : jsstr) : jsstr :=
  match s with
  | c :: s' => if is_word c then c :: identifier s' else []
  | [] => []
  end.

(** [s] starts with [Ex.] and an identifier character. *)
Definition marker_here (any_case : bool) (s : jsstr) : bool :=
  ((if any_case then JsString.eqb (toLowerCase (firstn 3 s)) "ex."
    else startsWith "Ex." s)
   && match skipn 3 s with c :: _ => is_word c | [] => false end)%bool.

(** The identifier of the leftmost [Ex.<identifier>] of the line. *)
Fixpoint action_of (any_case : bool) (line : jsstr) : option jsstr :=
  match line with
  | [] => None
  | _ :: rest =>
      if marker_here any_case line then Some (identifier (skipn 3 line))
      else action_of any_case rest
  end.

(** The text after the first occurrence of [sep]. *)
Fixpoint after_first (sep s : jsstr) : option jsstr :=
  match s with
  | [] => None
  | _ :: s' =>
      if startsWith sep s then Some (skipn (length sep) s) else after_first sep s'
  end.

(** The trimmed remainder after the first [--], when it is not empty. *)
Definition params_of (line : jsstr) : option jsstr :=
  match after_first "--" line with
  | Some (c :: r) => Some (trim (c :: r))
  | _ => None
  end.

Inductive parsed :=
| Command (agent action params : jsstr)
| MissingAgent
| MissingAction
| MissingParams.

Definition parse (any_case : bool) (line : jsstr) : parsed :=
  match agent_of line with
  | None => MissingAgent
  | Some agent =>
      match action_of any_case line with
      | None => MissingAction
      | Some name =>
          match params_of line with
          | None => MissingParams
          | Some params => Command agent (toLowerCase name) params
          end
      end
  end.

(** A line holds no line terminator. *)
Definition one_line (s : jsstr) : Prop :=
  Forall (fun c => is_line_terminator c = false) s.

(** The number a string of decimal digits denotes. *)
Definition decimal (d : jsstr) : Z :=
  fold_left (fun acc c => acc * 10 + (Z.of_N (code c) - 48)) d 0.

(** The intervals that [openTabsWithRefresh] creates: one for each tab of
    the list, with consecutive timer ids from [first] on. *)
Fixpoint reload_timers (first : nat) (due period : Z) (tabs : list tab) : list timer :=
  match tabs with
  | [] => []
  | t :: r =>
      mkTimer first due (Some period) (CbReload (tab_element t))
      :: reload_timers (S first) due period r
  end.

(** *** Embeddable platforms *)

Inductive platform := YouTube | Twitch | Vimeo | DailyMotion.

(** The platform whose converter [convertToEmbedUrl] hands the url to. *)
Definition platform_of (url : jsstr) : option platform :=
  if (includes "youtube.com" url || includes "youtu.be" url)%bool then Some YouTube
  else if includes "twitch.tv" url then Some Twitch
  else if includes "vimeo.com" url then Some Vimeo
  else if (includes "dailymotion.com" url || includes "dai.ly" url)%bool
       then Some DailyMotion
  else None.

(** The start of each platform's embed URL, with its embed path segment. *)
Definition embed_prefix (p : platform) : jsstr :=
  match p with
  | YouTube => lit "https://www.youtube.com/embed/"
  | Twitch => lit "https://player.twitch.tv/?"
  | Vimeo => lit "https://player.vimeo.com/video/"
  | DailyMotion => lit "https://www.dailymotion.com/embed/video/"
  end.

Definition youtube_query (autoplay : bool) : jsstr :=
  "?rel=0&modestbranding=1&controls=1&showinfo=0"
  ++ (if autoplay then lit "&autoplay=1&mute=1" else []).

(** The embed URL of the YouTube video [videoId]. *)
Definition youtube_embed (videoId : jsstr) (autoplay : bool) : jsstr :=
  embed_prefix YouTube ++ videoId ++ youtube_query autoplay.

(** The characters of a video identifier: letters, digits, [_] and [-]. *)
Definition is_id_char (c : ascii) : bool := (is_word c || Ascii.eqb c "-")%bool.

Definition identifier_like (s : jsstr) : Prop :=
  s <> [] /\ Forall (fun c => is_id_char c = true) s.

(** No occurrence of [p] can lie in [x ++ s] for a string [x] of
    identifier characters: [p] is not in [s], and no start of [p] made of
    identifier characters is followed in [p] by a start of [s]. *)
Definition apart (p s : jsstr) : bool :=
  (forallb (fun k => negb (forallb is_id_char (firstn k p) && startsWith (skipn k p) s))
           (seq 1 (length p))
   && negb (includes p s))%bool.

(** No occurrence of [p] begins in [a], whatever follows [a]. *)
Fixpoint clear_of (p a : jsstr) : bool :=
  match a with
  | [] => true
  | _ :: a' => (negb (startsWith p a) && negb (startsWith a p) && clear_of p a')%bool
  end.

(** *** Timers and runs of the event loop *)

(** The array of the chain a callback belongs to. *)
Definition chain_of (cb : callback) : option nat :=
  match cb with CbChain a _ _ => Some a | _ => None end.

Definition is_loop (cb : callback) : bool :=
  match cb with CbLoop _ => true | _ => false end.

(** The timer is a pending step of the chain with the array [a]. *)
Definition of_chain (a : nat) (tm : timer) : bool :=
  match chain_of (tm_cb tm) with Some b => Nat.eqb a b | None => false end.

(** The states the engine can be in: timer ids are unique and below the
    next id, the arrays of pending chain steps have been made, no timer is
    due in the past, periods are not negative, and the timer a loop record
    names is a loop's interval. *)
Record wf (st : state) : Prop := mkWf {
  wf_ids : forall tm, In tm (timers st) -> (tm_id tm < nextTimer st)%nat;
  wf_nodup : NoDup (map tm_id (timers st));
  wf_arrays : forall tm a, In tm (timers st) -> chain_of (tm_cb tm) = Some a ->
                           (a < nextArray st)%nat;
  wf_due : forall tm, In tm (timers st) -> now st <= tm_due tm;
  wf_period : forall tm p, In tm (timers st) -> tm_period tm = Some p -> 0 <= p;
  wf_loops : forall l loop T,
      lookup l (loopObjects st) = Some loop -> loop_interval loop = Some T ->
      (T < nextTimer st)%nat /\
      forall tm, In tm (timers st) -> tm_id tm = T -> is_loop (tm_cb tm) = true
}.

(** A timer made on the way from [st] to [st']: its id and its due time
    are new, and it is the step of a chain whose array is new or is [own]. *)
Definition made (own : option nat) (st st' : state) (tm : timer) : Prop :=
  (nextTimer st <= tm_id tm < nextTimer st')%nat /\
  now st <= tm_due tm /\
  (forall p, tm_period tm = Some p -> 0 <= p) /\
  (forall a, chain_of (tm_cb tm) = Some a ->
             (nextArray st <= a < nextArray st')%nat \/ own = Some a).

(** [st'] comes from [st] by creating timers and loop records only: the
    clock and the pending timers are as they were. *)
Definition extends (own : option nat) (st st' : state) : Prop :=
  now st' = now st /\
  (nextTimer st <= nextTimer st')%nat /\
  (nextArray st <= nextArray st')%nat /\
  exists new,
    timers st' = timers st ++ new /\
    Forall (made own st st') new /\
    NoDup (map tm_id new) /\
    forall l loop T,
      lookup l (loopObjects st') = Some loop -> loop_interval loop = Some T ->
      (exists loop0, lookup l (loopObjects st) = Some loop0 /\
                     loop_interval loop0 = Some T) \/
      (exists tm, In tm new /\ tm_id tm = T /\ is_loop (tm_cb tm) = true).

(** [st'] has the timers, the clock, the counters and the loop records of
    [st]. *)
Definition same_sched (st st' : state) : Prop :=
  timers st' = timers st /\ nextTimer st' = nextTimer st /\
  nextArray st' = nextArray st /\ now st' = now st /\
  loopObjects st' = loopObjects st.

(** [st'] comes from [st] as [extends] says, except that intervals of
    loops may have been cleared and loop records updated. *)
Definition evolves (own : option nat) (st st' : state) : Prop :=
  exists mid keep,
    extends own st mid /\
    now st' = now mid /\ nextTimer st' = nextTimer mid /\
    nextArray st' = nextArray mid /\
    timers st' = filter keep (timers mid) /\
    (forall u, In u (timers mid) -> keep u = false -> is_loop (tm_cb u) = true) /\
    forall l loop T,
      lookup l (loopObjects st') = Some loop -> loop_interval loop = Some T ->
      exists loop0, lookup l (loopObjects mid) = Some loop0 /\
                    loop_interval loop0 = Some T.




(** The turns of a run that belong to the chain with the array [a]. *)
Definition chain_turns (a : nat) (turns : list (timer * state)) : list (timer * state) :=
  filter (fun turn => of_chain a (fst turn)) turns.


(** The timers that [executeCommand] creates for the commands of a [|]
    line. *)
Fixpoint multi_timers (run first : nat) (start : Z) (i : nat) (cmds : list jsstr)
    : list timer :=
  match cmds with
  | [] => []
  | c :: r =>
      mkTimer first (start + Z.of_nat i * 200) None (CbMulti run i c)
      :: multi_timers run (S first) start (S i) r
  end.


(** The operations on the tab table: [openTabs], the close button of one
    tab, and [closeAllTabs] (the Escape key). *)
Inductive tab_op :=
| Open (url : jsstr) (count : num) (type : jsstr)
| Close (index : Z)
| CloseAll.

Definition apply_op (st : state) (op : tab_op) : state :=
  match op with
  | Open url count type => openTabs url count type st
  | Close index => closeTab index st
  | CloseAll => closeAllTabs st
  end.

Definition apply_ops (ops : list tab_op) (st : state) : state :=
  fold_left apply_op ops st.

Definition is_open (op : tab_op) : bool :=
  match op with Open _ _ _ => true | _ => false end.

(** The state used in the examples: a fresh page, nothing open, nothing
    pending. *)
Definition idle : state := initial "localhost" true.

(** The page after [Leaf Ex.loop -- Raitha Ex.watch test.1.3.1] on a fresh
    page and [k] turns of the event loop: the loop is registered with its
    counter at 0, its interval is pending, and [k] errors are logged. *)
Definition stuck_loop (k : nat) : state :=
  mkState [] [] [0]
          [(0, mkLoop "Raitha Ex.watch test.1" (Some 3) (Some 1000) 0 (Some 1%nat))]
          1 []
          [mkTimer 1 (1000 * (Z.of_nat k + 1)) (Some 1000) (CbLoop 0)] 2
          (1000 * Z.of_nat k) 0 0
          ((Info, lit "Loop 0 started")
             :: repeat (Error, lit "Loop 0 error: Missing parameters. Use: -- [params]") k)
          "localhost" true.

(** The turns of a run, by the time and the callback of the timer. *)
Definition fired (turns : list (timer * state)) : list (Z * callback) :=
  map (fun turn => (tm_due (fst turn), tm_cb (fst turn))) turns.

(** *** Conversion of the four embeddable platforms *)

(** What each converter appends for [autoplay]. *)
Definition autoplay_suffix (p : platform) : jsstr :=
  match p with
  | YouTube => lit "&autoplay=1&mute=1"
  | Twitch => lit "&autoplay=true&muted=true"
  | Vimeo => lit "&autoplay=1&muted=1"
  | DailyMotion => lit "&autoplay=1&mute=1"
  end.

(** The error of each converter that finds no identifier. *)
Definition extraction_error (p : platform) : jsstr :=
  match p with
  | YouTube => lit "Could not extract YouTube video ID"
  | Twitch => lit "Could not extract Twitch channel"
  | Vimeo => lit "Could not extract Vimeo video ID"
  | DailyMotion => lit "Could not extract DailyMotion video ID"
  end.

(** The [n] tabs that [openTabs] makes in the state [st]: ids from
    [startId] on, one page element each, no mute flag yet. *)
Definition fresh_tabs (url type : jsstr) (n : nat) (st : state) : list tab :=
  map (fun i => mkTab (startId (activeTabs st) + Z.of_nat i) url type
                      (nextElement st + i)%nat None)
      (seq 0 n).

(** *** Loops *)




(** *** The tab table and the task ids *)

(** The ids of the open tabs are pairwise distinct; the ids of the
    scheduled tasks and of the registered loops are below the counter they
    were drawn from; and no id names both a scheduled task and a loop. *)
Record tidy (st : state) : Prop := mkTidy {
  tidy_tabs : NoDup (ids st);
  tidy_tasks : forall k, In k (map fst (scheduledTasks st)) -> k < taskIdCounter st;
  tidy_loops : forall k, In k (activeLoops st) -> k < taskIdCounter st;
  tidy_apart : forall k, In k (map fst (scheduledTasks st)) -> ~ In k (activeLoops st)
}.

(** The reload interval with the timer id [id], for the page element [e]
    and with the period [p], is pending in [s]. *)
Definition pending_reload (id : nat) (e : nat) (p : Z) (s : state) : Prop :=
  exists u, In u (timers s) /\ tm_id u = id /\ tm_cb u = CbReload e /\
            tm_period u = Some p.

(** *** Actions that are only announced *)

(** The actions whose handlers start nothing: scroll; test, compare,
    monitor, download and ping; schedule, batch and rotate. *)
Definition simulated (agent action : jsstr) : bool :=
  ((JsString.eqb agent "raitha" && JsString.eqb action "scroll")
   || (JsString.eqb agent "rena"
       && (JsString.eqb action "test" || JsString.eqb action "compare"
           || JsString.eqb action "monitor" || JsString.eqb action "download"
           || JsString.eqb action "ping"))
   || (JsString.eqb agent "leaf"
       && (JsString.eqb action "schedule" || JsString.eqb action "batch"
           || JsString.eqb action "rotate")))%bool.

(** *** Escaped text *)

(** The characters that [escapeHtml] replaces, and what stands for each. *)
Definition special (c : ascii) : bool :=
  (Ascii.eqb c "&" || Ascii.eqb c "<" || Ascii.eqb c ">" || Ascii.eqb c quote_char
   || Ascii.eqb c "'")%bool.

Definition escape_char (c : ascii) : jsstr :=
  if Ascii.eqb c "&" then lit "&amp;"
  else if Ascii.eqb c "<" then lit "&lt;"
  else if Ascii.eqb c ">" then lit "&gt;"
  else if Ascii.eqb c quote_char then lit "&quot;"
  else if Ascii.eqb c "'" then lit "&#039;"
  else [c].

(** The characters that open or close markup or an attribute value. *)
Definition is_markup (c : ascii) : bool :=
  (Ascii.eqb c "<" || Ascii.eqb c ">" || Ascii.eqb c quote_char || Ascii.eqb c "'")%bool.

(** *** The allow-list of streaming URLs *)

(** The entries of the allow-list that are plain texts. *)
Definition streaming_markers : list jsstr :=
  [ lit "youtube.com/watch?v="; lit "youtu.be/"; lit "youtube.com/live/";
    lit "youtube.com/embed/"; lit "twitch.tv/"; lit "twitch.tv/videos/";
    lit "vimeo.com/"; lit "player.vimeo.com/"; lit "dailymotion.com/video/";
    lit "dai.ly/"; lit "fb.watch/"; lit "instagram.com/p/";
    lit "instagram.com/reel/"; lit "vm.tiktok.com/"; lit ".m3u8"; lit ".mp4" ].

(** [url] holds [A], then anything on one line, then [B]. *)
Definition between (A B url : jsstr) : Prop :=
  exists x mid y, url = x ++ A ++ mid ++ B ++ y /\ one_line mid.

(** What the allow-list accepts: a text that holds one of the markers, or
    [facebook.com/] and later on the same line [/videos/], or
    [tiktok.com/@] and later on the same line [/video/]. *)
Definition on_allow_list (url : jsstr) : Prop :=
  (exists marker, In marker streaming_markers /\ includes marker url = true) \/
  between "facebook.com/" "/videos/" url \/
  between "tiktok.com/@" "/video/" url.

(** *** The summary of a run of [executeCommand] *)

(** A command that succeeds in every state with a result that is not
    empty, and leaves the timers, the clock and the counters as they are. *)
Definition counted_command (cmd : jsstr) : Prop :=
  forall s, exists r s',
    parseAndExecute cmd s = (Ok r, s') /\ r <> [] /\
    timers s' = timers s /\ now s' = now s /\ counters s' = counters s.

(** The timer of the summary of the run [rid], created after the [k]
    timers of a [|] line. *)
Definition summary_timer (rid first : nat) (start : Z) (k : nat) : timer :=
  mkTimer (first + k) (start + 1000) None (CbSummary rid).

(** The parts of a [|] line from the part [i] on wait for their turn, the
    summary too when [pending]; [count] parts have been counted. *)
Definition awaiting (rid first : nat) (start : Z) (parts : list jsstr) (i : nat)
    (pending : bool) (count : Z) (s : state) : Prop :=
  timers s = multi_timers rid (first + i) start i (skipn i parts)
             ++ (if pending then [summary_timer rid first start (length parts)] else []) /\
  nth_error (counters s) rid = Some (count, 0) /\
  ((i < length parts)%nat -> now s <= start + Z.of_nat i * 200) /\
  (pending = true -> now s <= start + 1000).

(** The turn of the part [i]: its time and its callback. *)
Definition multi_turn (rid : nat) (start : Z) (parts : list jsstr) (i : nat)
    : Z * callback :=
  (start + Z.of_nat i * 200, CbMulti rid i (nth i parts [])).

(** *** What [executeCommand] counts *)

(** The outcome of a handler started in [s]: the counters of the runs of
    [executeCommand] are as in [s], and the result, if there is one, is
    not the empty text. *)
Definition reported (res : outcome * state) (s : state) : Prop :=
  counters (snd res) = counters s /\
  match fst res with Ok r => r <> [] | Throw _ => True end.

(** The lines that [executeCommand] dispatches at once: neither blank nor
    a comment nor a [|] line to be split. *)
Definition direct (line : jsstr) : bool :=
  (nonblank (trim line) && negb (startsWith "//" (trim line))
   && negb (includes "|" (trim line)
            && negb (startsWith "Leaf Ex.parallel" (trim line))))%bool.

(** What can happen to the page: a tab is opened or closed, timers fire,
    a command is dispatched. *)
Inductive page_event :=
| TabOp (op : tab_op)
| Turns (n : nat)
| Dispatch (command : jsstr).

Definition apply_event (st : state) (ev : page_event) : state :=
  match ev with
  | TabOp op => apply_op st op
  | Turns n => snd (run n st)
  | Dispatch command => snd (parseAndExecute command st)
  end.

Definition apply_events (evs : list page_event) (st : state) : state :=
  fold_left apply_event evs st.

(** The results of the lines that [executeCommand] dispatches at once, in
    the order of the text: each line is dispatched in the state that the
    lines before it have left, whether they failed or not. *)
Fixpoint outcomes (run : nat) (lines : list jsstr) (index : nat) (s : state)
    : list outcome :=
  match lines with
  | [] => []
  | line :: rest =>
      (if direct line then [fst (parseAndExecute (trim line) s)] else [])
      ++ outcomes run rest (S index) (executeLine run line index s)
  end.

Definition failed (o : outcome) : bool :=
  match o with Throw _ => true | Ok _ => false end.

Definition returned (o : outcome) : bool := negb (failed o).

(** *** Every timeout gets its turn *)

(** Loop ids come from [taskIdCounter]: the loops that have a record or a
    pending interval have ids below it, so a new loop never takes the
    record of another. *)
Definition fresh_loops (st : state) : Prop :=
  (forall tm id, In tm (timers st) -> tm_cb tm = CbLoop id -> id < taskIdCounter st) /\
  (forall id loop, lookup id (loopObjects st) = Some loop -> id < taskIdCounter st).

(** The states of the page: well formed, with loop ids in order.  The
    fresh page is sound, and running a text, dispatching a command, a
    turn of the event loop and the operations on the tabs keep it so. *)
Record sound (st : state) : Prop := mkSound {
  sound_wf : wf st;
  sound_loops : fresh_loops st
}.

(** A bound on what dispatching a command of [L] code units can leave
    pending, counted in turns of the event loop up to a time that lies
    [H] ms ahead: a nested command is shorter than the command that holds
    it, a command creates at most one timer per code unit, and an interval
    runs at most once per millisecond. *)
Fixpoint spawn_bound (H L : nat) : nat :=
  match L with
  | O => O
  | S L' => (L' + H + 3) * (1 + spawn_bound H L')
  end.

Definition widest (cmds : list jsstr) : nat := list_max (map (@length ascii) cmds).

Definition loop_text (loops : list (Z * loopTask)) (id : Z) : nat :=
  match lookup id loops with
  | Some loop => length (loop_command loop)
  | None => O
  end.

(** The runs a pending timer can have up to the time [T]. *)
Definition reps (T : Z) (t : timer) : nat :=
  match tm_period t with
  | Some _ => Z.to_nat (T + 1 - fire_time t)
  | None => 1%nat
  end.

(** The turns one run of a callback accounts for: its own and those of
    the timers its command creates. *)
Definition base (H : nat) (loops : list (Z * loopTask)) (cb : callback) : nat :=
  match cb with
  | CbMulti _ _ c => 1 + spawn_bound H (length c)
  | CbParallel _ c => 1 + spawn_bound H (length c)
  | CbLoop id => 1 + spawn_bound H (loop_text loops id)
  | CbChain _ cmds i =>
      1 + (length cmds + 1 - i) * (1 + spawn_bound H (widest cmds))
  | CbSummary _ => O
  | CbReload _ => O
  end.

Definition weight (T : Z) (H : nat) (loops : list (Z * loopTask)) (t : timer) : nat :=
  reps T t * base H loops (tm_cb t).

(** The timers that dispatch nothing. *)
Definition rest_weight (T : Z) (t : timer) : nat :=
  match tm_cb t with
  | CbSummary _ => reps T t
  | CbReload _ => reps T t
  | _ => O
  end.

Definition load (T : Z) (H : nat) (st : state) : nat :=
  list_sum (map (weight T H (loopObjects st)) (timers st)).

Definition rest_load (T : Z) (st : state) : nat :=
  list_sum (map (rest_weight T) (timers st)).

(** From [st] to [st'] the clock stands still, loop ids stay in order, and
    the load grows by [B] at most. *)
Definition within (T : Z) (H B : nat) (st st' : state) : Prop :=
  fresh_loops st -> (Z.to_nat (T + 1 - now st) <= H)%nat ->
  fresh_loops st' /\ now st' = now st /\ taskIdCounter st <= taskIdCounter st' /\
  (load T H st' <= load T H st + B)%nat.



End Spec.

Import Spec.

(** ** Tab ids *)

Lemma fold_max_ge (l : list Z) (x : Z) : x <= fold_left Z.max l x.
Proof.
  revert x; induction l as [|y l IH]; intros x; simpl; [lia|].
  specialize (IH (Z.max x y)); lia.
Qed.

Lemma fold_max_upper (l : list Z) (x : Z) :
  forall y, In y l -> y <= fold_left Z.max l x.
Proof.
  revert x; induction l as [|z l IH]; intros x y Hy; simpl in *; [tauto|].
  destruct Hy as [->|Hy]; [|auto].
  pose proof (fold_max_ge l (Z.max x y)); lia.
Qed.

Lemma fold_max_in (l : list Z) (x : Z) :
  fold_left Z.max l x = x \/ In (fold_left Z.max l x) l.
Proof.
  revert x; induction l as [|z l IH]; intros x; simpl; [now left|].
  destruct (IH (Z.max x z)) as [H|H]; [|now right; right].
  rewrite H. destruct (Z.max_spec x z) as [[_ ->]|[_ ->]]; auto.
Qed.

(** [startId] is 0 on the empty table and one more than the greatest id
    otherwise. *)
Lemma startId_spec (tabs : list tab) :
  (tabs = [] /\ startId tabs = 0) \/
  (exists mx, In mx (map tab_id tabs) /\
              (forall i, In i (map tab_id tabs) -> i <= mx) /\
              startId tabs = mx + 1).
Proof.
  destruct tabs as [|t r]; [now left|right].
  unfold startId; simpl map.
  exists (fold_left Z.max (map tab_id r) (tab_id t)); repeat split.
  - destruct (fold_max_in (map tab_id r) (tab_id t)) as [->|H]; simpl; auto.
  - intros i [<-|Hi]; [apply fold_max_ge|now apply fold_max_upper].
Qed.

Lemma openTabs_tabs url count type st :
  activeTabs (openTabs url count type st) =
  activeTabs st ++
  map (fun i => mkTab (startId (activeTabs st) + Z.of_nat i) url type
                      (nextElement st + i)%nat None)
      (seq 0 (rounds count)).
Proof. reflexivity. Qed.

Lemma opened_ids url count type st :
  map tab_id (opened url count type st) = zseq (startId (activeTabs st)) (rounds count).
Proof.
  unfold opened. rewrite openTabs_tabs, skipn_app, skipn_all, Nat.sub_diag.
  simpl. unfold zseq. rewrite map_map. reflexivity.
Qed.

Lemma zseq_in a n i : In i (zseq a n) <-> a <= i < a + Z.of_nat n.
Proof.
  unfold zseq. rewrite in_map_iff. split.
  - intros (k & <- & Hk). apply in_seq in Hk. lia.
  - intros H. exists (Z.to_nat (i - a)). split; [lia|]. apply in_seq. lia.
Qed.

Lemma startId_zseq (tabs : list tab) (M : nat) :
  map tab_id tabs = zseq 0 M -> startId tabs = Z.of_nat M.
Proof.
  intros H. destruct (startId_spec tabs) as [[-> ->]|(mx & Hin & Hub & ->)].
  - destruct M; [reflexivity|discriminate].
  - rewrite H in *. apply zseq_in in Hin.
    assert (HM : In (Z.of_nat M - 1) (zseq 0 M)) by (apply zseq_in; lia).
    apply Hub in HM. lia.
Qed.

Lemma closeTab_tabs index st :
  activeTabs (closeTab index st) =
  filter (fun t => negb (tab_id t =? index)) (activeTabs st).
Proof.
  unfold closeTab. destruct (existsb _ _) eqn:E; [reflexivity|].
  symmetry. apply forallb_filter_id. rewrite forallb_forall. intros t Ht.
  destruct (tab_id t =? index) eqn:E1; [|reflexivity].
  assert (existsb (fun t => tab_id t =? index) (activeTabs st) = true)
    by (apply existsb_exists; eauto).
  congruence.
Qed.

Lemma opened_fresh url count type st :
  forall i, In i (ids st) -> ~ In i (map tab_id (opened url count type st)).
Proof.
  intros i Hi. rewrite opened_ids, zseq_in. unfold ids in Hi.
  destruct (startId_spec (activeTabs st)) as [[E _]|(mx & _ & Hub & ->)].
  - rewrite E in Hi. contradiction.
  - apply Hub in Hi. lia.
Qed.

Lemma ids_openTabs url count type st :
  ids (openTabs url count type st) = ids st ++ zseq (startId (activeTabs st)) (rounds count).
Proof.
  unfold ids. rewrite openTabs_tabs, map_app, map_map. reflexivity.
Qed.

Lemma map_seq_shift {A} (f : nat -> A) (n k s : nat) :
  map f (seq (s + n) k) = map (fun i => f (i + n)%nat) (seq s k).
Proof.
  revert s; induction k as [|k IH]; intros s; simpl; [reflexivity|].
  f_equal. apply (IH (S s)).
Qed.

Lemma zseq_app a n k : zseq a n ++ zseq (a + Z.of_nat n) k = zseq a (n + k).
Proof.
  unfold zseq. rewrite seq_app, map_app. f_equal.
  rewrite (map_seq_shift _ n k 0). apply map_ext. intros; lia.
Qed.

Lemma zseq_NoDup a n : NoDup (zseq a n).
Proof.
  unfold zseq. apply Injective_map_NoDup; [|apply seq_NoDup].
  intros x y; lia.
Qed.

Lemma ids_NoDup_op st op : NoDup (ids st) -> NoDup (ids (apply_op st op)).
Proof.
  intros H. destruct op as [url count type|index|]; simpl.
  - rewrite ids_openTabs. apply NoDup_app; [assumption|apply zseq_NoDup|].
    intros i Hi Hn. apply (opened_fresh url count type st i Hi).
    now rewrite opened_ids.
  - unfold ids in *. rewrite closeTab_tabs.
    induction (activeTabs st) as [|t r IH]; simpl; [constructor|].
    inversion H; subst. destruct (negb _); simpl; auto.
    constructor; auto. rewrite in_map_iff in *. intros (x & Hx & Hf).
    apply filter_In in Hf. firstorder.
  - constructor.
Qed.

Lemma ids_NoDup_ops ops st : NoDup (ids st) -> NoDup (ids (apply_ops ops st)).
Proof.
  revert st; induction ops as [|op ops IH]; intros st H; simpl; auto.
  apply IH, ids_NoDup_op, H.
Qed.

Lemma ids_only_opens ops st M :
  forallb is_open ops = true -> ids st = zseq 0 M ->
  exists M', ids (apply_ops ops st) = zseq 0 M'.
Proof.
  revert st M; induction ops as [|op ops IH]; intros st M Hops Hst; simpl in *.
  - eauto.
  - apply andb_prop in Hops as [Hop Hops]. destruct op; try discriminate.
    apply (IH _ (M + rounds count)%nat Hops). simpl.
    rewrite ids_openTabs, (startId_zseq _ M Hst), Hst.
    apply (zseq_app 0).
Qed.

(** C2, as amended: [openTabs] appends [count] tabs whose ids run on from
    one more than the greatest id in the table, or from 0 when the table is
    empty.  The ids are [M .. M+N-1] whenever the M existing ids are
    [0 .. M-1], which is so after any sequence of opens from an empty
    table; they are never the id of a tab that is open, so ids stay unique
    under every sequence of opens and closes; and after a tab other than
    the one with the greatest id is closed, the next tabs continue from the
    old greatest id plus one and the closed id is not in the table. *)
Theorem tab_ids_continue_from_max (url : jsstr) (count : num) (type : jsstr) (st : state) :
  let fresh := map tab_id (opened url count type st) in
  activeTabs (openTabs url count type st) = activeTabs st ++ opened url count type st /\
  fresh = zseq (startId (activeTabs st)) (rounds count) /\
  (activeTabs st = [] -> fresh = zseq 0 (rounds count)) /\
  (activeTabs st <> [] ->
     exists mx, In mx (ids st) /\ (forall i, In i (ids st) -> i <= mx) /\
                fresh = zseq (mx + 1) (rounds count)) /\
  (forall M, ids st = zseq 0 M -> fresh = zseq (Z.of_nat M) (rounds count)) /\
  (forall ops, activeTabs st = [] -> forallb is_open ops = true ->
     exists M, ids (apply_ops ops st) = zseq 0 M) /\
  (forall i, In i (ids st) -> ~ In i fresh) /\
  (forall ops, NoDup (ids st) -> NoDup (ids (apply_ops ops st))) /\
  (forall c mx, In c (ids st) -> In mx (ids st) ->
     (forall i, In i (ids st) -> i <= mx) -> c < mx ->
     map tab_id (opened url count type (closeTab c st)) = zseq (mx + 1) (rounds count) /\
     ~ In c (ids (openTabs url count type (closeTab c st)))).
Proof.
  cbv zeta. rewrite opened_ids.
  split; [|split; [|split; [|split; [|split; [|split; [|split; [|split]]]]]]].
  - unfold opened. rewrite openTabs_tabs, skipn_app, skipn_all, Nat.sub_diag.
    reflexivity.
  - reflexivity.
  - intros ->. reflexivity.
  - intros Hne. destruct (startId_spec (activeTabs st)) as [[E _]|(mx & H1 & H2 & ->)];
      [contradiction|]. exists mx; auto.
  - intros M HM. now rewrite (startId_zseq _ M HM).
  - intros ops He Hops. apply (ids_only_opens ops st 0%nat Hops).
    unfold ids. now rewrite He.
  - intros i Hi. rewrite <- (opened_ids url count type). now apply opened_fresh.
  - intros ops. apply ids_NoDup_ops.
  - intros c mx Hc Hmx Hub Hlt.
    assert (Hin : In mx (ids (closeTab c st))).
    { unfold ids in *. rewrite closeTab_tabs. rewrite in_map_iff in *.
      destruct Hmx as (t & Ht & Hin). exists t; split; auto.
      apply filter_In; split; auto. apply negb_true_iff, Z.eqb_neq. lia. }
    assert (Hle : forall i, In i (ids (closeTab c st)) -> i <= mx).
    { intros i Hi. apply Hub. unfold ids in *. rewrite closeTab_tabs in Hi.
      rewrite in_map_iff in *. destruct Hi as (t & Ht & Hf).
      apply filter_In in Hf. exists t; tauto. }
    assert (Hs : startId (activeTabs (closeTab c st)) = mx + 1).
    { destruct (startId_spec (activeTabs (closeTab c st)))
        as [[E _]|(m' & H1 & H2 & ->)].
      - unfold ids in Hin. rewrite E in Hin. contradiction.
      - apply Hle in H1. apply H2 in Hin. lia. }
    split.
    + now rewrite opened_ids, Hs.
    + rewrite ids_openTabs, in_app_iff, Hs, zseq_in. intros [Hc'|Hc']; [|lia].
      unfold ids in Hc'. rewrite closeTab_tabs, in_map_iff in Hc'.
      destruct Hc' as (t & Ht & Hf). apply filter_In in Hf.
      destruct Hf as [_ Hf]. apply negb_true_iff, Z.eqb_neq in Hf. contradiction.
Qed.

Lemma tab_ids_continue_from_max_witness :
  let st := openTabs "u" (Some 3) "watch" idle in
  map tab_id (opened "v" (Some 2) "watch" (closeTab 1 st)) = [3; 4] /\
  ~ In 1 (ids (openTabs "v" (Some 2) "watch" (closeTab 1 st))).
Proof.
  cbv zeta.
  destruct (tab_ids_continue_from_max "v" (Some 2) "watch"
              (openTabs "u" (Some 3) "watch" idle))
    as (_ & _ & _ & _ & _ & _ & _ & _ & H).
  apply (H 1 2); unfold ids; simpl; intuition lia.
Defined.

(** C2, as stated, fails: with the tabs 0 and 2 open (M = 2) after tab 1 was
    closed, opening one more tab gives it the id 3, not M = 2. *)
Lemma tab_ids_after_close_counterexample :
  let st := closeTab 1 (openTabs "u" (Some 3) "watch" idle) in
  length (activeTabs st) = 2%nat /\
  map tab_id (opened "v" (Some 1) "watch" st) = [3] /\
  map tab_id (opened "v" (Some 1) "watch" st) <> zseq 2 1.
Proof. vm_compute. repeat split; discriminate. Qed.

(** ** Strings *)

Lemma eqb_eq (s t : jsstr) : JsString.eqb s t = true <-> s = t.
Proof.
  revert t; induction s as [|a s IH]; intros [|b t]; simpl; split;
    try easy; intros H.
  - apply andb_prop in H as [H1 H2]. apply Ascii.eqb_eq in H1.
    apply IH in H2. congruence.
  - inversion H; subst. rewrite Ascii.eqb_refl. simpl. now apply IH.
Qed.

Lemma eqb_neq (s t : jsstr) : JsString.eqb s t = false <-> s <> t.
Proof.
  rewrite <- eqb_eq. destruct (JsString.eqb s t); split; congruence.
Qed.

(** ** Mute and unmute *)

Lemma existsb_pointwise {A} (f g : A -> bool) (l : list A) :
  (forall x, f x = g x) -> existsb f l = existsb g l.
Proof. intros H. induction l as [|x l IH]; simpl; [reflexivity|]. now rewrite H, IH. Qed.

Lemma existsb_of_map {A B} (f : B -> bool) (g : A -> B) (l : list A) :
  existsb f (map g l) = existsb (fun x => f (g x)) l.
Proof. induction l as [|x l IH]; simpl; [reflexivity|]. now rewrite IH. Qed.

Lemma id_is_set_muted b id t : id_is id (set_muted b t) = id_is id t.
Proof. reflexivity. Qed.

Lemma mute_found_identity b id tabs :
  map identity (mute_found b id tabs) = map identity tabs.
Proof.
  induction tabs as [|t r IH]; simpl; [reflexivity|].
  destruct (id_is id t); simpl; [reflexivity|now rewrite IH].
Qed.

Lemma identity_ids tabs tabs' :
  map identity tabs' = map identity tabs -> map tab_id tabs' = map tab_id tabs.
Proof.
  intros H. apply (f_equal (map (fun x => fst (fst (fst x))))) in H.
  now rewrite !map_map in H.
Qed.

Lemma mute_found_map b id tabs :
  NoDup (map tab_id tabs) ->
  mute_found b id tabs = map (fun t => if id_is id t then set_muted b t else t) tabs.
Proof.
  induction tabs as [|t r IH]; simpl; intros H; [reflexivity|].
  inversion H as [|? ? Hn Hr]; subst.
  destruct (id_is id t) eqn:E; [|now rewrite IH].
  f_equal. symmetry. rewrite <- (map_id r) at 2. apply map_ext_in.
  intros u Hu. destruct (id_is id u) eqn:Eu; [|reflexivity].
  exfalso. apply Hn. destruct id as [v|]; [|discriminate]. simpl in *.
  apply Z.eqb_eq in E, Eu. rewrite E, <- Eu. now apply in_map.
Qed.

Lemma mute_found_step b id tabs :
  Forall2 (fun t t' => t' = t \/ (id_is id t = true /\ t' = set_muted b t))
          tabs (mute_found b id tabs).
Proof.
  induction tabs as [|t r IH]; simpl; [constructor|].
  destruct (id_is id t) eqn:E; constructor; auto.
  clear. induction r; constructor; auto.
Qed.

Lemma mute_all_identity b tabIds tabs :
  map identity (mute_all b tabIds tabs) = map identity tabs.
Proof.
  revert tabs; induction tabIds as [|id l IH]; intros tabs; simpl; [reflexivity|].
  unfold mute_all in *. simpl. now rewrite IH, mute_found_identity.
Qed.

Lemma mute_all_map b tabIds tabs :
  NoDup (map tab_id tabs) ->
  mute_all b tabIds tabs =
  map (fun t => if existsb (fun id => id_is id t) tabIds then set_muted b t else t) tabs.
Proof.
  revert tabs; induction tabIds as [|id l IH]; intros tabs H; unfold mute_all in *; simpl.
  - symmetry. apply map_id.
  - rewrite IH.
    + rewrite mute_found_map by assumption. rewrite map_map. apply map_ext.
      intros t. destruct (id_is id t) eqn:E; simpl.
      * now destruct (existsb _ l).
      * reflexivity.
    + now rewrite (identity_ids _ _ (mute_found_identity b id tabs)).
Qed.

Lemma mute_all_step b tabIds tabs :
  Forall2 (fun t t' => t' = t \/
             (existsb (fun id => id_is id t) tabIds = true /\ t' = set_muted b t))
          tabs (mute_all b tabIds tabs).
Proof.
  revert tabs; induction tabIds as [|id l IH]; intros tabs; unfold mute_all in *; simpl.
  - induction tabs; constructor; auto.
  - specialize (IH (mute_found b id tabs)).
    pose proof (mute_found_step b id tabs) as H.
    revert IH. generalize (fold_left (fun ts id0 => mute_found b id0 ts) l
                                     (mute_found b id tabs)).
    induction H as [|t u r r' Htu Hr IHr]; intros l' IH; inversion IH; subst;
      constructor; auto.
    destruct Htu as [->|[E ->]].
    + match goal with H : _ \/ _ |- _ => destruct H as [->|[E' ->]] end; auto.
      right. split; auto. now rewrite E', orb_true_r.
    + match goal with H : _ \/ _ |- _ => destruct H as [->|[E' ->]] end.
      * right. now rewrite E.
      * right. rewrite E. split; auto.
Qed.

Lemma requested_tabIds params t :
  existsb (fun id => id_is id t) (tabIds_of params) = requested params t.
Proof.
  unfold tabIds_of, requested. rewrite existsb_of_map.
  apply existsb_pointwise. intros e. destruct (parseInt (trim e)) as [n|]; simpl; [|reflexivity].
  destruct (Z.eqb_spec (tab_id t) (n + -1)), (Z.eqb_spec n (tab_id t + 1)); lia || reflexivity.
Qed.

Lemma mute_all_effect b params tabs :
  mute_effect b params tabs (mute_all b (tabIds_of params) tabs).
Proof.
  assert (HF : Forall2 (fun t t' => t' = t \/
                          (requested params t = true /\ t' = set_muted b t))
                       tabs (mute_all b (tabIds_of params) tabs)).
  { eapply Forall2_impl; [|apply mute_all_step]. intros t t' [H|[H1 H2]]; auto.
    right. now rewrite <- requested_tabIds. }
  split; [apply mute_all_identity|split; [exact HF|split]].
  - intros Hno. revert HF. generalize (mute_all b (tabIds_of params) tabs).
    induction tabs as [|t r IH]; intros l HF; inversion HF; subst; [reflexivity|].
    f_equal.
    + match goal with H : _ \/ _ |- _ => destruct H as [->|[E _]] end; auto.
      rewrite Hno in E by now left. discriminate.
    + apply IH; auto. intros u Hu. apply Hno. now right.
  - intros Hnd. rewrite mute_all_map by assumption. apply map_ext.
    intros t. now rewrite requested_tabIds.
Qed.

(** C10, as amended: for every parameter string that is not [all] in any
    letter case (the source compares [params.toLowerCase()] with ['all']),
    mute and unmute return normally; the message counts the comma-separated
    entries of the parameters, whatever they match; each entry is read with
    [parseInt] as a 1-based number and matched against the tab ids; an
    entry that matches no tab (one that is not a number too) changes
    nothing, and the tab table is otherwise unchanged. *)
Theorem mute_unmute_count_entries (params : jsstr) (st : state) :
  toLowerCase params <> lit "all" ->
  (exists tabs',
     executeMute params st =
       (Ok ("Muted " ++ count_str (length (split "," params)) ++ " tab(s)"),
        set_tabs tabs' st) /\
     mute_effect true params (activeTabs st) tabs') /\
  (exists tabs',
     executeUnmute params st =
       (Ok ("Unmuted " ++ count_str (length (split "," params)) ++ " tab(s)"),
        set_tabs tabs' st) /\
     mute_effect false params (activeTabs st) tabs').
Proof.
  intros Hall. apply eqb_neq in Hall. unfold executeMute, executeUnmute.
  rewrite Hall. split; eexists; (split; [|apply mute_all_effect]);
    unfold tabIds_of; now rewrite length_map.
Qed.

Lemma mute_unmute_count_entries_witness :
  let st := openTabs "u" (Some 2) "watch" idle in
  fst (executeMute "2,x,7" st) = Ok "Muted 3 tab(s)" /\
  map tab_muted (activeTabs (snd (executeMute "2,x,7" st))) = [None; Some true].
Proof.
  cbv zeta.
  destruct (mute_unmute_count_entries "2,x,7" (openTabs "u" (Some 2) "watch" idle))
    as [(tabs' & E & _ & _ & _ & H) _]; [vm_compute; discriminate|].
  rewrite E. split; [reflexivity|]. simpl. rewrite H; [reflexivity|].
  vm_compute. repeat constructor; simpl; intuition discriminate.
Defined.

(** C10, as stated, fails at the parameter string [ALL], which is other
    than [all]: both tabs are muted and the message counts the open tabs,
    where the claim has the one entry [ALL] match no tab and the message
    count one entry. *)
Lemma mute_ALL_counterexample :
  let st := openTabs "u" (Some 2) "watch" idle in
  lit "ALL" <> lit "all" /\
  (forall t, In t (activeTabs st) -> requested "ALL" t = false) /\
  fst (executeMute "ALL" st) = Ok "Muted all 2 tab(s)" /\
  fst (executeMute "ALL" st)
    <> Ok ("Muted " ++ count_str (length (split "," "ALL")) ++ " tab(s)") /\
  map tab_muted (activeTabs (snd (executeMute "ALL" st))) = [Some true; Some true] /\
  activeTabs (snd (executeMute "ALL" st)) <> activeTabs st.
Proof.
  cbv zeta. split; [discriminate|]. split.
  - intros t [<-|[<-|[]]]; reflexivity.
  - vm_compute. repeat split; discriminate.
Qed.

(** ** The watch example *)

(** C8: on a state with no open tab, the line
    [Raitha Ex.watch -- https://youtube.com/watch?v=abc123.2] opens exactly
    two tabs, with the ids 0 and 1, both on the YouTube embed URL of
    [abc123] without autoplay or mute parameters, whether the line goes
    through [parseAndExecute] or through [executeCommand]. *)
Theorem watch_example_two_tabs (st : state) :
  activeTabs st = [] ->
  let line := lit "Raitha Ex.watch -- https://youtube.com/watch?v=abc123.2" in
  let embed :=
    lit "https://www.youtube.com/embed/abc123?rel=0&modestbranding=1&controls=1&showinfo=0" in
  let view := map (fun t => (tab_id t, tab_url t, tab_type t)) in
  fst (parseAndExecute line st)
    = Ok "Opened 2 tab(s) watching: https://youtube.com/watch?v=abc123" /\
  view (activeTabs (snd (parseAndExecute line st)))
    = [(0, embed, lit "watch"); (1, embed, lit "watch")] /\
  view (activeTabs (executeCommand line st))
    = [(0, embed, lit "watch"); (1, embed, lit "watch")].
Proof.
  intros H. destruct st; simpl in H; subst. vm_compute. auto.
Qed.

Lemma watch_example_two_tabs_witness :
  map tab_id (activeTabs (snd (parseAndExecute
    "Raitha Ex.watch -- https://youtube.com/watch?v=abc123.2" idle))) = [0; 1].
Proof.
  destruct (watch_example_two_tabs idle eq_refl) as (_ & H & _).
  apply (f_equal (map (fun x => fst (fst x)))) in H.
  rewrite map_map in H. exact H.
Defined.

(** ** Lengths of the parts of a string *)

Lemma trimStart_length (s : jsstr) : (length (trimStart s) <= length s)%nat.
Proof.
  induction s as [|c s IH]; simpl; [lia|]. destruct (is_space c); simpl; lia.
Qed.

Lemma trim_length (s : jsstr) : (length (trim s) <= length s)%nat.
Proof.
  unfold trim, trimEnd. rewrite length_rev.
  etransitivity; [apply trimStart_length|]. rewrite length_rev.
  apply trimStart_length.
Qed.

Lemma split_go_nonempty sep s skip : split_go sep s skip <> [].
Proof.
  revert skip; induction s as [|c s IH]; intros skip; simpl; [discriminate|].
  destruct skip; [|apply IH]. destruct (startsWith sep (c :: s)); [discriminate|].
  destruct (split_go sep s 0); discriminate.
Qed.

Lemma split_go_first_length sep s skip :
  (length (first (split_go sep s skip)) <= length s)%nat.
Proof.
  revert skip; induction s as [|c s IH]; intros skip; simpl; [lia|].
  destruct skip as [|n].
  - destruct (startsWith sep (c :: s)); simpl; [lia|].
    specialize (IH 0%nat). unfold first in *.
    destruct (split_go sep s 0); simpl in *; lia.
  - specialize (IH n). unfold first in *. lia.
Qed.

Lemma split_first_length sep s : (length (first (split sep s)) <= length s)%nat.
Proof. apply split_go_first_length. Qed.

(** ** The matcher *)

Lemma firstn_app_sub {A} (p q : list A) :
  firstn (length (p ++ q) - length q) (p ++ q) = p.
Proof.
  rewrite length_app, Nat.add_sub, firstn_app, Nat.sub_diag, firstn_all.
  simpl. apply app_nil_r.
Qed.

(** A run of literals matches exactly when it is a prefix. *)
Lemma m_str (p s : jsstr) (cs : caps) (k : cont) :
  m (str p) s cs k = if startsWith p s then k (skipn (length p) s) cs else None.
Proof.
  revert s; induction p as [|a p IH]; intros s; [reflexivity|].
  destruct p as [|b p].
  - simpl. destruct s as [|c s]; [reflexivity|].
    destruct (Ascii.eqb a c); reflexivity.
  - change (str (a :: b :: p)) with (Cat (Atom (Chr a)) (str (b :: p))).
    cbn [m amatch]. destruct s as [|c s]; [reflexivity|].
    cbn [startsWith]. destruct (Ascii.eqb a c); [|reflexivity].
    rewrite IH. reflexivity.
Qed.

Lemma m_istr (p s : jsstr) (cs : caps) (k : cont) :
  m (istr p) s cs k = if startsWith_ci p s then k (skipn (length p) s) cs else None.
Proof.
  revert s; induction p as [|a p IH]; intros s; [reflexivity|].
  destruct p as [|b p].
  - simpl. destruct s as [|c s]; [reflexivity|].
    destruct (eqb_ci a c); reflexivity.
  - change (istr (a :: b :: p)) with (Cat (Atom (ChrI a)) (istr (b :: p))).
    cbn [m amatch]. destruct s as [|c s]; [reflexivity|].
    cbn [startsWith_ci]. destruct (eqb_ci a c); [|reflexivity].
    rewrite IH. reflexivity.
Qed.

(** A greedy repetition fails when its continuation fails on every suffix. *)
Lemma star_none (a : atom) (s : jsstr) (cs : caps) (k : cont) :
  (forall p t, s = p ++ t -> k t cs = None) -> star a s cs k = None.
Proof.
  induction s as [|c s IH]; intros H; simpl.
  - apply (H [] []); reflexivity.
  - rewrite IH.
    + destruct (amatch a c); apply (H [] (c :: s)); reflexivity.
    + intros p t ->. apply (H (c :: p) t). reflexivity.
Qed.

(** A greedy repetition over [p ++ q], where [p] is in the class, stops
    after [p] when the continuation accepts [q] and no shorter rest. *)
Lemma star_stop (a : atom) (p q : jsstr) (cs : caps) (k : cont) (r : caps) :
  Forall (fun c => amatch a c = true) p ->
  k q cs = Some r ->
  (forall t1 t2, q = t1 ++ t2 -> t1 <> [] -> k t2 cs = None) ->
  star a (p ++ q) cs k = Some r.
Proof.
  intros Hp Hk Hq. induction Hp as [|c p Hc Hp IH]; simpl.
  - destruct q as [|c q]; simpl; [exact Hk|].
    rewrite star_none.
    + destruct (amatch a c); exact Hk.
    + intros p t ->. apply (Hq (c :: p) t); [reflexivity|discriminate].
  - rewrite Hc, IH. reflexivity.
Qed.

(** A greedy repetition takes the whole input when the continuation
    accepts the end. *)
Lemma star_all (a : atom) (s : jsstr) (cs : caps) (k : cont) (r : caps) :
  Forall (fun c => amatch a c = true) s -> k [] cs = Some r ->
  star a s cs k = Some r.
Proof.
  intros Hs Hk. rewrite <- (app_nil_r s). apply star_stop; auto.
  intros [|] t2 H; [congruence|discriminate].
Qed.

Lemma star_bounded (a : atom) (n : nat) (s : jsstr) (cs : caps) (k : cont) (res : caps) :
  keeps_bound n (length s) k -> bounded n cs ->
  star a s cs k = Some res -> bounded n res.
Proof.
  revert res; induction s as [|c s IH]; intros res Hk Hcs; simpl.
  - apply Hk; auto.
  - destruct (amatch a c); [|apply Hk; auto].
    destruct (star a s cs k) eqn:E.
    + intros [= <-]. apply IH; auto.
      intros s1 c1 r1 Hl. apply Hk. simpl; lia.
    + apply Hk; auto.
Qed.

Lemma m_bounded (r : regex) (n : nat) :
  forall (s : jsstr) (cs : caps) (k : cont) (res : caps),
    (length s <= n)%nat -> keeps_bound n (length s) k -> bounded n cs ->
    m r s cs k = Some res -> bounded n res.
Proof.
  induction r as [|a|r1 IH1 r2 IH2|r1 IH1 r2 IH2|a|a|r1 IH1|g r1 IH1|];
    intros s cs k res Hs Hk Hcs; cbn [m].
  - apply Hk; auto.
  - destruct s as [|c s]; [discriminate|]. destruct (amatch a c); [|discriminate].
    apply Hk; auto. simpl; lia.
  - apply IH1; auto. intros s1 c1 r1' Hl Hc1. apply IH2; auto; [lia|].
    intros s2 c2 r2' Hl2. apply Hk. lia.
  - destruct (m r1 s cs k) eqn:E.
    + intros [= <-]. eapply IH1; eauto.
    + apply IH2; auto.
  - apply star_bounded; auto.
  - destruct s as [|c s]; [discriminate|]. destruct (amatch a c); [|discriminate].
    apply star_bounded; auto. intros s1 c1 r1 Hl. apply Hk. simpl; lia.
  - destruct (m r1 s cs k) eqn:E.
    + intros [= <-]. eapply IH1; eauto.
    + apply Hk; auto.
  - apply IH1; auto. intros s1 c1 r1' Hl Hc1. apply Hk; auto.
    constructor; auto. simpl. rewrite length_firstn. lia.
  - destruct s; [|discriminate]. apply Hk; auto.
Qed.

Lemma accept_keeps n len : keeps_bound n len accept.
Proof. intros s1 c1 res _ H [= <-]. exact H. Qed.

Lemma exec_suffix (r : regex) (s : jsstr) (cs : caps) :
  exec r s = Some cs -> exists p t, s = p ++ t /\ m r t [] accept = Some cs.
Proof.
  induction s as [|c s IH]; simpl.
  - destruct (m r [] [] accept) eqn:E; [|discriminate].
    intros [= <-]. exists [], []. auto.
  - destruct (m r (c :: s) [] accept) eqn:E.
    + intros [= <-]. exists [], (c :: s). auto.
    + intros H. destruct (IH H) as (p & t & -> & Ht). exists (c :: p), t. auto.
Qed.

Lemma group_bounded n g cs : bounded n cs -> (length (group g cs) <= n)%nat.
Proof.
  unfold group. induction 1 as [|[k v] cs Hv Hcs IH]; simpl; [lia|].
  destruct (Nat.eqb k g); auto.
Qed.

(** The parameters of a command are at least two code units shorter than
    the command. *)
Lemma params_shorter (command : jsstr) (cs : caps) :
  exec Patterns.params command = Some cs ->
  (length (group 1 cs) + 2 <= length command)%nat.
Proof.
  intros H. apply exec_suffix in H as (p & t & -> & H).
  unfold Patterns.params in H. cbn [rseq m] in H. rewrite m_str in H.
  destruct (startsWith "--" t) eqn:E; [|discriminate].
  destruct t as [|a [|b t]]; try discriminate.
  change (skipn _ _) with t in H.
  assert (Hb : bounded (length t) cs).
  { revert H. apply (m_bounded (Cat (Star Space) (Grp 1 (Plus Dot)))); auto.
    - apply accept_keeps.
    - constructor. }
  apply (group_bounded _ 1) in Hb. rewrite length_app. simpl. lia.
Qed.

(** ** The dispatcher is well defined *)

Lemma chain_first_shorter (params command : jsstr) :
  nth_error (map trim (split "->" params)) 0 = Some command ->
  (length command <= length params)%nat.
Proof.
  pose proof (split_first_length "->" params) as H. unfold first in H.
  destruct (split "->" params) as [|x l]; simpl; [discriminate|].
  intros [= <-]. simpl in H. pose proof (trim_length x). lia.
Qed.

(** [parseAndExecute] calls its dispatcher on shorter commands only. *)
Lemma parseAndExecute_with_ext (d1 d2 : jsstr -> state -> outcome * state)
    (command : jsstr) (st : state) :
  (forall c' st', (length c' < length command)%nat -> d1 c' st' = d2 c' st') ->
  parseAndExecute_with d1 command st = parseAndExecute_with d2 command st.
Proof.
  intros H. unfold parseAndExecute_with.
  destruct (exec_anchored Patterns.ii_name command); [|reflexivity].
  destruct (exec Patterns.action command); [|reflexivity].
  destruct (exec Patterns.params command) as [pm|] eqn:Ep; [|reflexivity].
  apply params_shorter in Ep.
  unfold executeAction_with, executeLeafCommand_with, executeChain_with,
    executeChainSequence_with.
  repeat match goal with |- context [if ?b then _ else _] => destruct b; try reflexivity end.
  destruct (nth_error _ 0) as [cmd0|] eqn:E0; [|reflexivity].
  apply chain_first_shorter in E0. pose proof (trim_length (group 1 pm)).
  rewrite H by lia. reflexivity.
Qed.

Lemma fuel_irrelevant (n : nat) :
  forall (k : nat) (command : jsstr) (st : state),
    (length command < n)%nat -> (length command < k)%nat ->
    parseAndExecute_fuel n command st = parseAndExecute_fuel k command st.
Proof.
  induction n as [|n IH]; intros k command st Hn Hk; [lia|].
  destruct k as [|k]; [lia|]. simpl.
  apply parseAndExecute_with_ext. intros c' st' Hc. apply IH; lia.
Qed.

(** [parseAndExecute] satisfies the recursive equation of the source: the
    nested calls of a chain's first step reach [parseAndExecute] itself. *)
Lemma parseAndExecute_unfold (command : jsstr) (st : state) :
  parseAndExecute command st = parseAndExecute_with parseAndExecute command st.
Proof.
  unfold parseAndExecute at 1. simpl.
  apply parseAndExecute_with_ext. intros c' st' Hc.
  unfold parseAndExecute. apply fuel_irrelevant; lia.
Qed.

(** ** The command grammar *)

Lemma ascii_eqb_sym (a b : ascii) : Ascii.eqb a b = Ascii.eqb b a.
Proof.
  destruct (Ascii.eqb_spec a b) as [->|H]; [now rewrite Ascii.eqb_refl|].
  symmetry. apply Ascii.eqb_neq. congruence.
Qed.

Lemma startsWith_ci_lower (p s : jsstr) :
  startsWith_ci p s =
  JsString.eqb (toLowerCase (firstn (length p) s)) (toLowerCase p).
Proof.
  revert s; induction p as [|a p IH]; intros s; simpl; [reflexivity|].
  destruct s as [|b s]; simpl; [reflexivity|].
  unfold eqb_ci. now rewrite IH, ascii_eqb_sym.
Qed.

Lemma startsWith_ci_length (p s : jsstr) :
  startsWith_ci p s = true -> (length p <= length s)%nat.
Proof.
  revert s; induction p as [|a p IH]; intros s; simpl; [lia|].
  destruct s as [|b s]; [discriminate|]. intros H.
  apply andb_prop in H as [_ H]. apply IH in H. simpl. lia.
Qed.

Lemma firstn_sub_skipn {A} (n : nat) (l : list A) :
  (n <= length l)%nat -> firstn (length l - length (skipn n l)) l = firstn n l.
Proof. intros H. rewrite length_skipn. f_equal. lia. Qed.

(** The agent pattern finds the agent the line starts with. *)
Lemma exec_ii_name (line : jsstr) :
  match agent_of line with
  | Some agent =>
      exists cs, exec_anchored Patterns.ii_name line = Some cs /\
                 toLowerCase (group 1 cs) = agent
  | None => exec_anchored Patterns.ii_name line = None
  end.
Proof.
  unfold exec_anchored, Patterns.ii_name, agent_of, agents. cbn [m find].
  rewrite !m_istr, !startsWith_ci_lower.
  change (toLowerCase "Raitha") with (lit "raitha").
  change (toLowerCase "Rena") with (lit "rena").
  change (toLowerCase "Leaf") with (lit "leaf").
  change (length (lit "Raitha")) with (length (lit "raitha")).
  change (length (lit "Rena")) with (length (lit "rena")).
  change (length (lit "Leaf")) with (length (lit "leaf")).
  assert (Hg : forall name,
             JsString.eqb (toLowerCase (firstn (length name) line)) name = true ->
             exists cs, accept (skipn (length name) line)
                          [(1%nat, firstn (length line - length (skipn (length name) line)) line)]
                        = Some cs /\ toLowerCase (group 1 cs) = name).
  { intros name H. eexists; split; [reflexivity|]. apply eqb_eq in H.
    unfold group; simpl. rewrite firstn_sub_skipn; [exact H|].
    apply (f_equal (@length _)) in H. unfold toLowerCase in H.
    rewrite length_map, length_firstn in H. lia. }
  destruct (JsString.eqb (toLowerCase (firstn (length (lit "raitha")) line)) "raitha") eqn:E1;
    [now apply Hg|].
  destruct (JsString.eqb (toLowerCase (firstn (length (lit "rena")) line)) "rena") eqn:E2;
    [now apply Hg|].
  destruct (JsString.eqb (toLowerCase (firstn (length (lit "leaf")) line)) "leaf") eqn:E3;
    [now apply Hg|].
  reflexivity.
Qed.

(** A greedy repetition stops where the class stops, when the continuation
    accepts there. *)
Lemma star_longest (a : atom) (p q : jsstr) (cs : caps) (k : cont) (r : caps) :
  Forall (fun c => amatch a c = true) p ->
  match q with c :: _ => amatch a c = false | [] => True end ->
  k q cs = Some r ->
  star a (p ++ q) cs k = Some r.
Proof.
  intros Hp Hq Hk. induction Hp as [|c p Hc Hp IH]; simpl.
  - destruct q as [|c q]; simpl; [exact Hk|]. now rewrite Hq.
  - now rewrite Hc, IH.
Qed.

Lemma identifier_split (s : jsstr) :
  exists rest, s = identifier s ++ rest /\
               Forall (fun c => amatch Word c = true) (identifier s) /\
               match rest with c :: _ => amatch Word c = false | [] => True end.
Proof.
  induction s as [|c s (rest & E & Hw & Hr)]; simpl.
  - exists []. repeat split. constructor.
  - destruct (is_word c) eqn:Ec.
    + exists rest. repeat split; [simpl; f_equal; exact E|now constructor|exact Hr].
    + exists (c :: s). repeat split; [constructor|exact Ec].
Qed.

(** The action pattern, tried at one position. *)
Lemma m_action (s : jsstr) :
  m Patterns.action s [] accept =
  if marker_here true s then Some [(1%nat, identifier (skipn 3 s))] else None.
Proof.
  unfold Patterns.action, marker_here. cbn [m]. rewrite m_istr, startsWith_ci_lower.
  change (toLowerCase "Ex.") with (lit "ex.").
  change (length (lit "Ex.")) with 3%nat.
  destruct (JsString.eqb _ _); [|reflexivity]. cbn [andb].
  destruct (skipn 3 s) as [|c t]; [reflexivity|].
  cbn [amatch identifier]. destruct (is_word c) eqn:Ec; [|reflexivity].
  destruct (identifier_split t) as (rest & E & Hw & Hr).
  pose proof (firstn_app_sub (c :: identifier t) rest) as F.
  simpl app in F. rewrite <- E in F.
  match goal with |- star Word t [] ?K = _ =>
    replace (star Word t [] K) with (star Word (identifier t ++ rest) [] K)
      by (now rewrite <- E)
  end.
  apply star_longest; [exact Hw|exact Hr|]. unfold accept. now rewrite F.
Qed.

(** The action pattern finds the identifier of the leftmost marker. *)
Lemma exec_action (line : jsstr) :
  exec Patterns.action line =
  match action_of true line with
  | Some name => Some [(1%nat, name)]
  | None => None
  end.
Proof.
  induction line as [|c line IH]; [reflexivity|].
  cbn [exec action_of]. rewrite m_action.
  destruct (marker_here true (c :: line)); [reflexivity|exact IH].
Qed.

Lemma trimStart_split (s : jsstr) :
  exists w, s = w ++ trimStart s /\
            Forall (fun c => amatch Space c = true) w /\
            match trimStart s with c :: _ => amatch Space c = false | [] => True end.
Proof.
  induction s as [|c s (w & E & Hw & Hr)]; simpl.
  - exists []. repeat split. constructor.
  - destruct (is_space c) eqn:Ec.
    + exists (c :: w). repeat split; [simpl; f_equal; exact E|now constructor|exact Hr].
    + exists []. repeat split; [constructor|exact Ec].
Qed.

Lemma trimStart_idem (s : jsstr) : trimStart (trimStart s) = trimStart s.
Proof.
  induction s as [|c s IH]; simpl; [reflexivity|].
  destruct (is_space c) eqn:Ec; [exact IH|]. simpl. now rewrite Ec.
Qed.

Lemma trim_trimStart (s : jsstr) : trim (trimStart s) = trim s.
Proof. unfold trim. now rewrite trimStart_idem. Qed.

Lemma trimStart_spaces (s : jsstr) :
  Forall (fun c => is_space c = true) s -> trimStart s = [].
Proof. induction 1 as [|c s Hc _ IH]; simpl; [reflexivity|]. now rewrite Hc. Qed.

Lemma trim_spaces (s : jsstr) : Forall (fun c => is_space c = true) s -> trim s = [].
Proof. intros H. unfold trim. now rewrite trimStart_spaces. Qed.

Lemma one_line_app (p q : jsstr) : one_line (p ++ q) <-> one_line p /\ one_line q.
Proof. apply Forall_app. Qed.

(** [(.+)] takes the whole of a non-empty rest of a line. *)
Lemma m_rest_of_line (s : jsstr) (cs : caps) :
  one_line s ->
  m (Grp 1 (Plus Dot)) s cs accept =
  match s with [] => None | _ :: _ => Some ((1%nat, s) :: cs) end.
Proof.
  intros H. cbn [m]. destruct s as [|c s]; [reflexivity|].
  inversion H as [|? ? Hc Hs]; subst. cbn [amatch]. rewrite Hc. cbn [negb].
  apply star_all.
  - eapply Forall_impl; [|exact Hs]. intros a Ha. simpl. now rewrite Ha.
  - unfold accept. now rewrite Nat.sub_0_r, firstn_all.
Qed.

Lemma star_spaces_only (s : jsstr) :
  s <> [] -> Forall (fun c => is_space c = true) s -> one_line s ->
  exists x, star Space s [] (fun s1 c1 => m (Grp 1 (Plus Dot)) s1 c1 accept)
              = Some [(1%nat, x)] /\
            Forall (fun c => is_space c = true) x.
Proof.
  induction s as [|c s IH]; intros Hne Hs Hl; [congruence|].
  inversion Hs as [|? ? Hc Hs']; subst. inversion Hl as [|? ? Hlc Hl']; subst.
  cbn [star amatch]. rewrite Hc.
  destruct s as [|d s].
  - cbn [star]. rewrite !m_rest_of_line by (constructor; auto).
    exists [c]. split; [reflexivity|now constructor].
  - destruct IH as (x & -> & Hx); auto; [discriminate|]. eauto.
Qed.

(** The parameter pattern, tried where the line has [--]. *)
Lemma m_params (t : jsstr) :
  one_line t -> startsWith "--" t = true ->
  match skipn 2 t with
  | [] => m Patterns.params t [] accept = None
  | c :: r => exists x, m Patterns.params t [] accept = Some [(1%nat, x)] /\
                        trim x = trim (c :: r)
  end.
Proof.
  intros Hl Hs. unfold Patterns.params. cbn [rseq m]. rewrite m_str, Hs.
  change (length (lit "--")) with 2%nat.
  assert (Hr : one_line (skipn 2 t)).
  { rewrite <- (firstn_skipn 2 t) in Hl. now apply one_line_app in Hl. }
  destruct (skipn 2 t) as [|c r] eqn:E; [reflexivity|].
  destruct (trimStart_split (c :: r)) as (w & Ew & Hw & Hstop).
  destruct (trimStart (c :: r)) as [|d rem] eqn:Et.
  - rewrite app_nil_r in Ew. subst w.
    destruct (star_spaces_only (c :: r)) as (x & Hx & Hsp); auto; [discriminate|].
    exists x. split; [exact Hx|]. rewrite (trim_spaces x Hsp).
    symmetry. now apply trim_spaces.
  - exists (d :: rem). split.
    + rewrite Ew. apply star_longest; [exact Hw|exact Hstop|].
      change (m (Grp 1 (Plus Dot)) (d :: rem) [] accept = Some [(1%nat, d :: rem)]).
      rewrite m_rest_of_line; [reflexivity|].
      rewrite Ew in Hr. now apply one_line_app in Hr.
    + rewrite <- Et. apply trim_trimStart.
Qed.

Lemma m_params_none (t : jsstr) :
  startsWith "--" t = false -> m Patterns.params t [] accept = None.
Proof.
  intros Hs. unfold Patterns.params. cbn [rseq m]. now rewrite m_str, Hs.
Qed.

(** The parameter pattern finds the remainder after the first [--]. *)
Lemma exec_params (line : jsstr) :
  one_line line ->
  match params_of line with
  | Some params =>
      exists cs, exec Patterns.params line = Some cs /\ trim (group 1 cs) = params
  | None => exec Patterns.params line = None
  end.
Proof.
  unfold params_of. induction line as [|c line IH]; intros Hl; [reflexivity|].
  cbn [after_first exec]. inversion Hl as [|? ? Hc Hl']; subst.
  destruct (startsWith "--" (c :: line)) eqn:Es.
  - pose proof (m_params (c :: line) Hl Es) as H.
    change (length (lit "--")) with 2%nat.
    destruct (skipn 2 (c :: line)) as [|d r] eqn:E.
    + rewrite H. destruct line as [|c2 [|c3 line]]; [reflexivity| |discriminate].
      cbn [exec]. rewrite !m_params_none; [reflexivity|reflexivity|].
      simpl. apply andb_false_r.
    + destruct H as (x & -> & Hx). eexists; split; [reflexivity|exact Hx].
  - rewrite m_params_none by assumption. apply IH, Hl'.
Qed.

Lemma after_first_dashes (pre rem : jsstr) :
  includes "--" (pre ++ "-") = false ->
  after_first "--" (pre ++ "--" ++ rem) = Some rem.
Proof.
  induction pre as [|c pre IH]; intros H; [reflexivity|].
  change (includes "--" ((c :: pre) ++ "-"))
    with (startsWith "--" (c :: pre ++ "-") || includes "--" (pre ++ "-"))%bool in H.
  apply orb_false_elim in H as [H1 H2].
  change ((c :: pre) ++ "--" ++ rem) with (c :: pre ++ "--" ++ rem).
  cbn [after_first].
  assert (Hs : startsWith "--" (c :: pre ++ "--" ++ rem)
               = startsWith "--" (c :: pre ++ "-"))
    by (destruct pre; reflexivity).
  rewrite Hs, H1. now apply IH.
Qed.

(** C1, as amended: on a line (a string without line terminator),
    [parseAndExecute] dispatches exactly the triple of the command grammar,
    where the marker [Ex.] is recognised in any letter case: the agent is
    the name the line starts with, lower-cased; the action is the
    identifier after the leftmost marker, lower-cased; the parameters are
    the trimmed remainder after the first [--], whatever further [--] that
    remainder holds.  A line without agent name, without marker or without
    a non-empty remainder after [--] fails with the error of the first part
    that is missing, and the state is untouched. *)
Theorem parse_grammar (line : jsstr) (st : state) :
  one_line line ->
  parseAndExecute line st =
    match parse true line with
    | Command agent action params => executeAction agent action params st
    | MissingAgent => (Throw "Command must start with II name", st)
    | MissingAction => (Throw "Invalid action format. Use: Ex.[action]", st)
    | MissingParams => (Throw "Missing parameters. Use: -- [params]", st)
    end
  /\ (forall pre rem,
        line = pre ++ "--" ++ rem -> includes "--" (pre ++ "-") = false ->
        rem <> [] -> params_of line = Some (trim rem)).
Proof.
  intros Hl. split.
  - rewrite parseAndExecute_unfold. unfold parseAndExecute_with, parse.
    pose proof (exec_ii_name line) as Ha.
    destruct (agent_of line) as [agent|]; [|now rewrite Ha].
    destruct Ha as (ca & -> & Ha). rewrite exec_action.
    destruct (action_of true line) as [name|]; [|reflexivity].
    pose proof (exec_params line Hl) as Hp.
    destruct (params_of line) as [params|]; [|now rewrite Hp].
    destruct Hp as (cp & -> & Hp). rewrite Ha, Hp. reflexivity.
  - intros pre rem -> Hpre Hrem. unfold params_of.
    rewrite after_first_dashes by assumption.
    destruct rem; [congruence|reflexivity].
Qed.

Lemma parse_grammar_witness :
  parseAndExecute "LEAF ex.Batch --  a -- b " idle = executeAction "leaf" "batch" "a -- b" idle.
Proof.
  refine (proj1 (parse_grammar "LEAF ex.Batch --  a -- b " idle _)).
  repeat constructor.
Defined.

(** C1, as stated, fails on the letter case of [Ex.]: the line
    [Raitha ex.mute -- all] holds no [Ex.<identifier>], yet it is
    dispatched; and in [Raitha ex.a Ex.mute -- all], whose only
    [Ex.<identifier>] is [Ex.mute], the action dispatched is [a]. *)
Lemma marker_case_counterexample :
  parse false "Raitha ex.mute -- all" = MissingAction /\
  parseAndExecute "Raitha ex.mute -- all" idle = (Ok "Muted all 0 tab(s)", idle) /\
  parse false "Raitha ex.a Ex.mute -- all" = Command "raitha" "mute" "all" /\
  parseAndExecute "Raitha ex.a Ex.mute -- all" idle
    <> executeAction "raitha" "mute" "all" idle.
Proof. vm_compute. repeat split; discriminate. Qed.

(** ** The matcher finds only what its pattern can match *)

Lemma star_sound (a : atom) (s : jsstr) (cs : caps) (k : cont) (res : caps) :
  star a s cs k = Some res ->
  exists p t, s = p ++ t /\ Forall (fun c => amatch a c = true) p /\ k t cs = Some res.
Proof.
  induction s as [|c s IH]; simpl; intros H.
  - exists [], []. auto.
  - destruct (amatch a c) eqn:Ec; [|exists [], (c :: s); auto].
    destruct (star a s cs k) eqn:E.
    + injection H as ->. destruct (IH eq_refl) as (p & t & -> & Hp & Hk).
      exists (c :: p), t. auto.
    + exists [], (c :: s). auto.
Qed.

Lemma m_sound (r : regex) :
  forall (s : jsstr) (cs : caps) (k : cont) (res : caps),
    m r s cs k = Some res ->
    exists p t cs', s = p ++ t /\ lang r p t /\ k t cs' = Some res.
Proof.
  induction r as [|a|r1 IH1 r2 IH2|r1 IH1 r2 IH2|a|a|r1 IH1|g r1 IH1|];
    intros s cs k res H; cbn [m] in H; cbn [lang].
  - exists [], s, cs. auto.
  - destruct s as [|c s]; [discriminate|]. destruct (amatch a c) eqn:Ec; [|discriminate].
    exists [c], s, cs. eauto.
  - apply IH1 in H as (p1 & t1 & cs1 & -> & H1 & H).
    apply IH2 in H as (p2 & t2 & cs2 & -> & H2 & H).
    exists (p1 ++ p2), t2, cs2. rewrite <- app_assoc. eauto 8.
  - destruct (m r1 s cs k) eqn:E.
    + injection H as ->. apply IH1 in E as (p & t & cs' & -> & Hp & Hk). eauto 8.
    + apply IH2 in H as (p & t & cs' & -> & Hp & Hk). eauto 8.
  - apply star_sound in H as (p & t & -> & Hp & Hk). eauto 8.
  - destruct s as [|c s]; [discriminate|]. destruct (amatch a c) eqn:Ec; [|discriminate].
    apply star_sound in H as (p & t & -> & Hp & Hk).
    exists (c :: p), t, cs. repeat split; auto. discriminate.
  - destruct (m r1 s cs k) eqn:E.
    + injection H as ->. apply IH1 in E as (p & t & cs' & -> & Hp & Hk). eauto 8.
    + exists [], s, cs. auto.
  - apply IH1 in H as (p & t & cs' & -> & Hp & Hk). eauto 8.
  - destruct s; [|discriminate]. exists [], [], cs. auto.
Qed.

Lemma lang_str (p0 p t : jsstr) : lang (str p0) p t -> p = p0.
Proof.
  revert p t; induction p0 as [|a p0 IH]; intros p t H; [exact H|].
  destruct p0 as [|b p0].
  - destruct H as (c & -> & Hc). apply Ascii.eqb_eq in Hc. now subst.
  - change (str (a :: b :: p0)) with (Cat (Atom (Chr a)) (str (b :: p0))) in H.
    destruct H as (p1 & p2 & -> & (c & -> & Hc) & H2).
    apply Ascii.eqb_eq in Hc. apply IH in H2. now subst.
Qed.

Lemma dots_app (p q : jsstr) : dots (p ++ q) = (dots p + dots q)%nat.
Proof. unfold dots. now rewrite filter_app, length_app. Qed.

Lemma dots_digits (s : jsstr) : Forall (fun c => amatch Digit c = true) s -> dots s = 0%nat.
Proof.
  unfold dots. induction 1 as [|c s Hc _ IH]; [reflexivity|]. cbn [filter].
  destruct (Ascii.eqb_spec "."%char c) as [<-|_]; [discriminate|exact IH].
Qed.

Lemma m_cat (r1 r2 : regex) (s : jsstr) (cs : caps) (k : cont) :
  m (Cat r1 r2) s cs k = m r1 s cs (fun s1 c1 => m r2 s1 c1 k).
Proof. reflexivity. Qed.

(** A group [(a+)] takes the run [p] of its class when the class stops
    after it and the continuation accepts there. *)
Lemma m_grp_plus (g : nat) (a : atom) (p q : jsstr) (cs : caps) (k : cont) (r : caps) :
  p <> [] -> Forall (fun c => amatch a c = true) p ->
  match q with c :: _ => amatch a c = false | [] => True end ->
  k q ((g, p) :: cs) = Some r ->
  m (Grp g (Plus a)) (p ++ q) cs k = Some r.
Proof.
  intros Hne Hp Hq Hk. destruct p as [|c p]; [congruence|].
  inversion Hp as [|? ? Hc Hp']; subst.
  pose proof (firstn_app_sub (c :: p) q) as F.
  change ((c :: p) ++ q) with (c :: p ++ q) in *. cbn [m]. rewrite Hc.
  apply star_longest; auto. now rewrite F.
Qed.

(** A group [(a+)] takes the run [p], although the class goes on, when the
    continuation accepts after [p] and nowhere later. *)
Lemma m_grp_plus_stop (g : nat) (a : atom) (p q : jsstr) (cs : caps) (k : cont) (r : caps) :
  p <> [] -> Forall (fun c => amatch a c = true) p ->
  k q ((g, p) :: cs) = Some r ->
  (forall t1 t2 cs', q = t1 ++ t2 -> t1 <> [] -> k t2 cs' = None) ->
  m (Grp g (Plus a)) (p ++ q) cs k = Some r.
Proof.
  intros Hne Hp Hk Hq. destruct p as [|c p]; [congruence|].
  inversion Hp as [|? ? Hc Hp']; subst.
  pose proof (firstn_app_sub (c :: p) q) as F.
  change ((c :: p) ++ q) with (c :: p ++ q) in *. cbn [m]. rewrite Hc.
  apply star_stop; auto.
  - now rewrite F.
  - intros t1 t2 E Ht. now apply (Hq t1).
Qed.

Lemma one_line_dot (s : jsstr) : one_line s -> Forall (fun c => amatch Dot c = true) s.
Proof. apply Forall_impl. intros c H. simpl. now rewrite H. Qed.

Lemma digits_not_empty_stop (d : jsstr) :
  match "." ++ d with c :: _ => amatch Digit c = false | [] => True end.
Proof. reflexivity. Qed.

Lemma num_num_tail_dots (s : jsstr) (cs res : caps) :
  m Patterns.num_num_tail s cs accept = Some res -> dots s = 2%nat.
Proof.
  intros H. apply m_sound in H as (p & t & _ & -> & H & _).
  unfold Patterns.num_num_tail in H. cbn [rseq lang] in H.
  destruct H as (p1 & q1 & -> & H1 & p2 & q2 & -> & [_ H2] & p3 & q3 & -> & H3
                 & p4 & q4 & -> & [_ H4] & -> & ->).
  apply lang_str in H1, H3. subst.
  rewrite !dots_app, (dots_digits p2 H2), (dots_digits p4 H4). reflexivity.
Qed.

Lemma proper_suffix_dots (tl t1 t2 : jsstr) :
  "." ++ tl = t1 ++ t2 -> t1 <> [] -> (dots t2 <= dots tl)%nat.
Proof.
  intros E Hne. destruct t1 as [|c t1]; [congruence|].
  injection E as <- ->. rewrite dots_app. lia.
Qed.

(** The refresh pattern splits [<url>.<digits>.<digits>] at its last two
    dots. *)
Lemma exec_url_num_num (url d1 d2 : jsstr) :
  url <> [] -> one_line url ->
  d1 <> [] -> all_digits d1 -> d2 <> [] -> all_digits d2 ->
  exec Patterns.url_num_num (url ++ "." ++ d1 ++ "." ++ d2)
  = Some [(3%nat, d2); (2%nat, d1); (1%nat, url)].
Proof.
  intros Hu Hl Hn1 Hd1 Hn2 Hd2.
  assert (Hm : m Patterns.url_num_num (url ++ "." ++ d1 ++ "." ++ d2) [] accept
               = Some [(3%nat, d2); (2%nat, d1); (1%nat, url)]).
  { change Patterns.url_num_num with (Cat (Grp 1 (Plus Dot)) Patterns.num_num_tail).
    rewrite m_cat. apply m_grp_plus_stop; auto using one_line_dot.
    - unfold Patterns.num_num_tail. cbn [rseq]. rewrite m_cat, m_str.
      change (startsWith "." ("." ++ d1 ++ "." ++ d2)) with true. cbv iota.
      change (skipn (length (lit ".")) ("." ++ d1 ++ "." ++ d2)) with (d1 ++ "." ++ d2).
      rewrite m_cat. apply m_grp_plus; auto; [reflexivity|].
      rewrite m_cat, m_str.
      change (startsWith "." ("." ++ d2)) with true. cbv iota.
      change (skipn (length (lit ".")) ("." ++ d2)) with d2.
      rewrite m_cat. rewrite <- (app_nil_r d2) at 1.
      apply m_grp_plus; auto.
    - intros t1 t2 cs' E Hne.
      destruct (m Patterns.num_num_tail t2 cs' accept) eqn:Em; [|reflexivity].
      apply num_num_tail_dots in Em.
      pose proof (proper_suffix_dots _ _ _ E Hne) as Hle.
      rewrite !dots_app, (dots_digits d1 Hd1), (dots_digits d2 Hd2) in Hle.
      change (dots ".") with 1%nat in Hle. lia. }
  destruct (url ++ "." ++ d1 ++ "." ++ d2); cbn [exec]; now rewrite Hm.
Qed.

(** ** Numbers written in digits *)

Lemma digit_val_digit (c : ascii) :
  is_digit c = true -> digit_val 10 c = Some (Z.of_N (code c) - 48).
Proof.
  intros H. unfold digit_val. rewrite H.
  unfold is_digit, in_range in H. apply andb_prop in H as [H1 H2].
  apply N.leb_le in H1, H2.
  destruct (Z.ltb_spec (Z.of_N (code c) - 48) 10); [reflexivity|lia].
Qed.

Lemma parse_digits_decimal (s : jsstr) (a : Z) :
  all_digits s ->
  parse_digits 10 s (Some a)
  = Some (fold_left (fun acc c => acc * 10 + (Z.of_N (code c) - 48)) s a).
Proof.
  intros H. revert a. induction H as [|c s Hc _ IH]; intros a; [reflexivity|].
  cbn [parse_digits fold_left]. rewrite (digit_val_digit c Hc). apply IH.
Qed.

Lemma digit_facts (c : ascii) :
  is_digit c = true ->
  is_space c = false /\ Ascii.eqb c "-" = false /\ Ascii.eqb c "+" = false /\
  Ascii.eqb c "x" = false /\ Ascii.eqb c "X" = false.
Proof.
  intros H. unfold is_digit, in_range in H. apply andb_prop in H as [H1 H2].
  apply N.leb_le in H1, H2.
  assert (Hne : forall d : ascii, (code d < 48 \/ 57 < code d)%N -> Ascii.eqb c d = false).
  { intros d Hd. apply Ascii.eqb_neq. intros ->. lia. }
  repeat split; try (apply Hne; vm_compute; intuition congruence).
  unfold is_space, in_range.
  destruct (N.leb_spec (code c) 13); [lia|].
  destruct (N.eqb_spec (code c) 32); [lia|].
  destruct (N.eqb_spec (code c) 160); [lia|].
  now rewrite andb_false_r.
Qed.

(** [parseInt] reads a string of digits as the decimal number it is. *)
Lemma parseInt_digits (d : jsstr) :
  d <> [] -> all_digits d -> parseInt d = Some (decimal d).
Proof.
  intros Hne Hd. destruct d as [|c d]; [congruence|].
  inversion Hd as [|? ? Hc Hd']; subst.
  destruct (digit_facts c Hc) as (Hs & Hm & Hp & _).
  unfold parseInt. cbn [trimStart]. rewrite Hs, Hm, Hp.
  assert (Hv : parse_digits 10 (c :: d) None = Some (decimal (c :: d))).
  { cbn [parse_digits]. rewrite (digit_val_digit c Hc).
    now rewrite (parse_digits_decimal d _ Hd'). }
  destruct d as [|x d]; [now rewrite Hv|].
  inversion Hd' as [|? ? Hx _]; subst.
  destruct (digit_facts x Hx) as (_ & _ & _ & H1 & H2).
  rewrite H1, H2, andb_false_r. now rewrite Hv.
Qed.

(** ** Refresh *)

Lemma decimal_nonneg (d : jsstr) : all_digits d -> 0 <= decimal d.
Proof.
  unfold decimal. intros H.
  assert (G : forall a, 0 <= a ->
            0 <= fold_left (fun acc c => acc * 10 + (Z.of_N (code c) - 48)) d a);
    [|apply G; lia].
  induction H as [|c d Hc _ IH]; intros a Ha; cbn [fold_left]; [exact Ha|].
  apply IH. unfold is_digit, in_range in Hc. apply andb_prop in Hc as [H1 H2].
  apply N.leb_le in H1, H2. lia.
Qed.

Lemma tab_ids_continue_from_tabs url count type st :
  activeTabs (openTabs url count type st) = activeTabs st ++ opened url count type st.
Proof.
  unfold opened. rewrite openTabs_tabs, skipn_app, skipn_all, Nat.sub_diag.
  reflexivity.
Qed.


Lemma reload_fold (d : Z) (l : list tab) :
  forall s : state,
    let s' := fold_left
                (fun s t => snd (setInterval (CbReload (tab_element t)) d s)) l s in
    activeTabs s' = activeTabs s /\
    timers s' = timers s
                ++ reload_timers (nextTimer s) (now s + Z.max 0 d) (Z.max 0 d) l.
Proof.
  induction l as [|t l IH]; intros s; cbn [fold_left reload_timers].
  - split; [reflexivity|now rewrite app_nil_r].
  - destruct (IH (snd (setInterval (CbReload (tab_element t)) d s))) as [H1 H2].
    cbv zeta in *. rewrite H1, H2. split; [reflexivity|].
    simpl. now rewrite <- app_assoc.
Qed.

Lemma reload_timers_In (first : nat) (due period : Z) (tabs : list tab) (t : tab) :
  In t tabs ->
  exists tm, In tm (reload_timers first due period tabs) /\
             (first <= tm_id tm)%nat /\ tm_due tm = due /\
             tm_period tm = Some period /\ tm_cb tm = CbReload (tab_element t).
Proof.
  revert first; induction tabs as [|u r IH]; intros first; [contradiction|].
  intros [->|H]; cbn [reload_timers].
  - eexists; split; [now left|]. simpl. auto.
  - destruct (IH (S first) H) as (tm & Hin & Hid & Hrest).
    exists tm. split; [now right|]. split; [lia|exact Hrest].
Qed.

(** C9: after the refresh command [<url>.<intervalSec>.<tabCount>], the tab
    table is the old table followed by the tabs the command opens, and the
    timers created are exactly one reload interval of [intervalSec * 1000]
    ms for each tab of that whole table; so every tab that was open before
    the command has a new reload interval too. *)
Theorem refresh_reloads_every_tab (url sec cnt : jsstr) (st : state) :
  url <> [] -> one_line url ->
  sec <> [] -> all_digits sec -> cnt <> [] -> all_digits cnt ->
  let params := url ++ "." ++ sec ++ "." ++ cnt in
  let period := decimal sec * 1000 in
  let st' := snd (executeRefresh params st) in
  (exists message, fst (executeRefresh params st) = Ok message) /\
  activeTabs st' = activeTabs st ++ opened (trim url) (Some (decimal cnt)) "refresh" st /\
  timers st' = timers st
               ++ reload_timers (nextTimer st) (now st + period) period (activeTabs st') /\
  (forall t, In t (activeTabs st) ->
     exists tm, In tm (timers st') /\ (nextTimer st <= tm_id tm)%nat /\
                tm_period tm = Some period /\ tm_cb tm = CbReload (tab_element t)).
Proof.
  intros Hu Hl Hn1 Hd1 Hn2 Hd2. cbv zeta.
  unfold executeRefresh. rewrite exec_url_num_num by assumption.
  change (group 1 _) with url. change (group 2 _) with sec. change (group 3 _) with cnt.
  rewrite (parseInt_digits sec), (parseInt_digits cnt) by assumption.
  cbn [fst snd nmul]. unfold openTabsWithRefresh.
  destruct (reload_fold (delay_of (Some (decimal sec * 1000)))
              (activeTabs (openTabs (trim url) (Some (decimal cnt)) "refresh" st))
              (openTabs (trim url) (Some (decimal cnt)) "refresh" st)) as [Ht Htm].
  cbv zeta in Ht, Htm. cbn [delay_of] in *.
  rewrite Z.max_r in Htm by (pose proof (decimal_nonneg sec Hd1); lia).
  change (timers (openTabs (trim url) (Some (decimal cnt)) "refresh" st))
    with (timers st) in Htm.
  change (nextTimer (openTabs (trim url) (Some (decimal cnt)) "refresh" st))
    with (nextTimer st) in Htm.
  change (now (openTabs (trim url) (Some (decimal cnt)) "refresh" st))
    with (now st) in Htm.
  split; [eauto|]. split; [|split].
  - rewrite Ht. apply (tab_ids_continue_from_tabs (trim url) (Some (decimal cnt)) "refresh" st).
  - rewrite Htm, Ht. reflexivity.
  - intros t Hin. rewrite Htm.
    destruct (reload_timers_In (nextTimer st) (now st + decimal sec * 1000)
                (decimal sec * 1000)
                (activeTabs (openTabs (trim url) (Some (decimal cnt)) "refresh" st)) t)
      as (tm & H1 & H2 & _ & H3 & H4).
    + rewrite openTabs_tabs. apply in_or_app. now left.
    + exists tm. split; [apply in_or_app; now right|auto].
Qed.

Lemma refresh_reloads_every_tab_witness :
  let st := openTabs "https://a.example/x.mp4" (Some 1) "watch" idle in
  exists tm, In tm (timers (snd (executeRefresh "https://b.example/y.mp4.30.2" st))) /\
             tm_period tm = Some 30000 /\ tm_cb tm = CbReload 0%nat.
Proof.
  cbv zeta.
  destruct (refresh_reloads_every_tab "https://b.example/y.mp4" "30" "2"
              (openTabs "https://a.example/x.mp4" (Some 1) "watch" idle))
    as (_ & _ & _ & H); try discriminate; try (repeat constructor).
  destruct (H (mkTab 0 "https://a.example/x.mp4" "watch" 0%nat None))
    as (tm & H1 & _ & H2 & H3); [now left|].
  exists tm. auto.
Defined.

(** ** Occurrences of a marker in a url *)

Lemma startsWith_app (p a x : jsstr) :
  startsWith p (a ++ x) =
  (startsWith p a || (startsWith a p && startsWith (skipn (length a) p) x))%bool.
Proof.
  revert p; induction a as [|c a IH]; intros p.
  - simpl. destruct p; reflexivity.
  - destruct p as [|d p]; [reflexivity|]. cbn [app startsWith skipn length].
    rewrite IH, (ascii_eqb_sym c d). destruct (Ascii.eqb d c); reflexivity.
Qed.

Lemma includes_app_l (p a x : jsstr) : includes p a = true -> includes p (a ++ x) = true.
Proof.
  induction a as [|c a IH]; cbn [includes app].
  - destruct p; [destruct x; reflexivity|discriminate].
  - intros H. apply orb_prop in H as [H|H].
    + change (c :: a ++ x) with ((c :: a) ++ x).
      now rewrite startsWith_app, H.
    + rewrite IH by assumption. apply orb_true_r.
Qed.

Lemma includes_clear (p a x : jsstr) :
  clear_of p a = true -> includes p (a ++ x) = includes p x.
Proof.
  induction a as [|c a IH]; [reflexivity|]. cbn [clear_of]. intros H.
  apply andb_prop in H as [H H3]. apply andb_prop in H as [H1 H2].
  apply negb_true_iff in H1, H2.
  change ((c :: a) ++ x) with (c :: a ++ x). cbn [includes].
  change (c :: a ++ x) with ((c :: a) ++ x).
  rewrite startsWith_app, H1, H2. now apply IH.
Qed.

Lemma straddle (p y s : jsstr) :
  p <> [] -> y <> [] -> Forall (fun c => is_id_char c = true) y ->
  startsWith p (y ++ s) = true ->
  exists k, (1 <= k <= length p)%nat /\ forallb is_id_char (firstn k p) = true /\
            startsWith (skipn k p) s = true.
Proof.
  revert p; induction y as [|c y IH]; intros p Hp Hy Hok H; [congruence|].
  destruct p as [|a p]; [congruence|].
  inversion Hok as [|? ? Hc Hok']; subst.
  cbn [app startsWith] in H. apply andb_prop in H as [Ha H].
  apply Ascii.eqb_eq in Ha. subst c.
  destruct p as [|b p].
  - exists 1%nat. simpl. rewrite Hc. repeat split; auto.
  - destruct y as [|d y].
    + exists 1%nat. cbn [firstn skipn forallb length]. rewrite Hc.
      repeat split; auto; lia.
    + destruct (IH (b :: p)) as (k & Hk & H1 & H2); auto; try discriminate.
      exists (S k). cbn [firstn skipn forallb length] in *. rewrite Hc, H1.
      repeat split; auto; lia.
Qed.

(** A marker apart from [s] does not occur in an identifier followed by [s]. *)
Lemma includes_apart (p x s : jsstr) :
  apart p s = true -> Forall (fun c => is_id_char c = true) x ->
  includes p (x ++ s) = false.
Proof.
  unfold apart. intros H Hx. apply andb_prop in H as [Hk Hs].
  apply negb_true_iff in Hs. rewrite forallb_forall in Hk.
  assert (Hp : p <> []) by (intros ->; destruct s; discriminate).
  induction Hx as [|c x Hc Hx IH]; [exact Hs|].
  change ((c :: x) ++ s) with (c :: x ++ s). cbn [includes]. rewrite IH, orb_false_r.
  destruct (startsWith p (c :: x ++ s)) eqn:E; [|reflexivity].
  destruct (straddle p (c :: x) s) as (k & Hr & H1 & H2); auto; [discriminate|].
  assert (Hin : In k (seq 1 (length p))) by (apply in_seq; lia).
  apply Hk in Hin. rewrite H1, H2 in Hin. discriminate.
Qed.

(** ** Splitting at a marker *)

Lemma split_go_skip (sep y x : jsstr) :
  split_go sep (y ++ x) (length y) = split_go sep x 0.
Proof. induction y as [|c y IH]; [reflexivity|]. destruct x; exact IH. Qed.

Lemma startsWith_self (p x : jsstr) : startsWith p (p ++ x) = true.
Proof. induction p as [|c p IH]; [reflexivity|]. simpl. now rewrite Ascii.eqb_refl. Qed.

(** The first piece ends at the first occurrence of the separator. *)
Lemma split_at_first (sep a x : jsstr) :
  sep <> [] -> clear_of sep a = true ->
  split sep (a ++ sep ++ x) = a :: split sep x.
Proof.
  intros Hsep. unfold split. induction a as [|c a IH]; intros H.
  - destruct sep as [|d sep]; [congruence|].
    change ([] ++ (d :: sep) ++ x) with (d :: sep ++ x).
    cbn [split_go]. change (d :: sep ++ x) with ((d :: sep) ++ x).
    rewrite startsWith_self. f_equal.
    change (length (d :: sep) - 1)%nat with (length sep - 0)%nat.
    rewrite Nat.sub_0_r. apply split_go_skip.
  - cbn [clear_of] in H. apply andb_prop in H as [H H3]. apply andb_prop in H as [H1 H2].
    apply negb_true_iff in H1, H2.
    change ((c :: a) ++ sep ++ x) with (c :: a ++ sep ++ x). cbn [split_go].
    change (c :: a ++ sep ++ x) with ((c :: a) ++ sep ++ x).
    rewrite startsWith_app, H1, H2. cbn [orb andb]. now rewrite IH.
Qed.

(** A string without the separator is one piece. *)
Lemma split_none (sep x : jsstr) : includes sep x = false -> split sep x = [x].
Proof.
  unfold split. induction x as [|c x IH]; intros H; [reflexivity|].
  cbn [includes] in H. apply orb_false_elim in H as [H1 H2].
  cbn [split_go]. now rewrite H1, IH.
Qed.

Lemma first_split_char (c : ascii) (x y : jsstr) :
  Forall (fun d => Ascii.eqb c d = false) x ->
  first (split [c] (x ++ c :: y)) = x.
Proof.
  unfold split, first. induction 1 as [|d x Hd _ IH].
  - simpl. now rewrite Ascii.eqb_refl.
  - change ((d :: x) ++ c :: y) with (d :: x ++ c :: y). cbn [split_go startsWith].
    rewrite Hd. cbn [andb].
    destruct (split_go [c] (x ++ c :: y) 0) as [|p ps]; simpl in *; congruence.
Qed.

Lemma id_char_facts (c : ascii) :
  is_id_char c = true -> Ascii.eqb "?" c = false.
Proof.
  intros H. apply Ascii.eqb_neq. intros <-. discriminate.
Qed.

(** ** Embed URLs *)

Lemma convert_prefix (url : jsstr) (autoplay : bool) (st : state) (e : jsstr)
    (p : platform) :
  platform_of url = Some p ->
  fst (convertToEmbedUrl url autoplay st) = Ok e ->
  exists rest, e = embed_prefix p ++ rest.
Proof.
  unfold platform_of, convertToEmbedUrl.
  destruct (includes "youtube.com" url || includes "youtu.be" url)%bool.
  { intros [= <-]. cbn [fst]. unfold convertYouTubeUrl.
    destruct (if includes "youtube.com/watch?v=" url then _ else _) as [[|c v]|];
      try discriminate.
    intros [= <-]. destruct autoplay; eexists; reflexivity. }
  destruct (includes "twitch.tv" url).
  { intros [= <-]. cbn [fst]. unfold convertTwitchUrl.
    destruct (includes "/videos/" url).
    - destruct (second (split "/videos/" url)); try discriminate.
      intros [= <-]. destruct autoplay; eexists; reflexivity.
    - destruct (match second (split "twitch.tv/" url) with
                | Some (c :: p0) => _ | _ => [] end); try discriminate.
      intros [= <-]. destruct autoplay; eexists; reflexivity. }
  destruct (includes "vimeo.com" url).
  { intros [= <-]. cbn [fst]. unfold convertVimeoUrl.
    destruct (if includes "vimeo.com/" url then _ else _) as [[|c v]|];
      try discriminate.
    intros [= <-]. destruct autoplay; eexists; reflexivity. }
  destruct (includes "dailymotion.com" url || includes "dai.ly" url)%bool;
    [|discriminate].
  intros [= <-]. cbn [fst]. unfold convertDailyMotionUrl.
  destruct (if includes "dailymotion.com/video/" url then _ else _) as [[|c v]|];
    try discriminate.
  intros [= <-]. destruct autoplay; eexists; reflexivity.
Qed.

Lemma youtube_result (url : jsstr) (autoplay : bool) (e : jsstr) :
  convertYouTubeUrl url autoplay = Ok e ->
  exists videoId, videoId <> [] /\ e = youtube_embed videoId autoplay.
Proof.
  unfold convertYouTubeUrl.
  destruct (if includes "youtube.com/watch?v=" url then _ else _) as [[|c v]|];
    try discriminate.
  intros [= <-]. exists (c :: v). split; [discriminate|].
  unfold youtube_embed, youtube_query. destruct autoplay; cbn [embed_prefix].
  - now rewrite <- !app_assoc.
  - now rewrite app_nil_r.
Qed.

(** Converting the embed URL of a YouTube video again gives the embed URL
    of the same video. *)
Lemma youtube_renormalize (videoId : jsstr) (a a' : bool) (st : state) :
  identifier_like videoId ->
  convertToEmbedUrl (youtube_embed videoId a) a' st = (Ok (youtube_embed videoId a'), st).
Proof.
  intros [Hne Hid].
  assert (Hq : exists q, youtube_query a = "?"%char :: q
                         /\ apart "youtube.com/watch?v=" (youtube_query a) = true
                         /\ apart "youtu.be/" (youtube_query a) = true
                         /\ apart "youtube.com/live/" (youtube_query a) = true
                         /\ apart "embed/" (youtube_query a) = true).
  { destruct a; eexists; repeat split; reflexivity. }
  destruct Hq as (q & Hq & A1 & A2 & A3 & A4).
  remember (youtube_embed videoId a') as target eqn:Et.
  unfold convertToEmbedUrl, youtube_embed. cbn [embed_prefix].
  rewrite (includes_app_l "youtube.com" "https://www.youtube.com/embed/") by reflexivity.
  cbn [orb]. f_equal. unfold convertYouTubeUrl.
  rewrite (includes_clear "youtube.com/watch?v=" "https://www.youtube.com/embed/")
    by reflexivity.
  rewrite (includes_apart _ _ _ A1 Hid).
  rewrite (includes_clear "youtu.be/" "https://www.youtube.com/embed/") by reflexivity.
  rewrite (includes_apart _ _ _ A2 Hid).
  rewrite (includes_clear "youtube.com/live/" "https://www.youtube.com/embed/")
    by reflexivity.
  rewrite (includes_apart _ _ _ A3 Hid).
  rewrite (includes_app_l "youtube.com/embed/" "https://www.youtube.com/embed/")
    by reflexivity.
  change (lit "https://www.youtube.com/embed/" ++ videoId ++ youtube_query a)
    with (lit "https://www.youtube.com/" ++ lit "embed/" ++ videoId ++ youtube_query a).
  rewrite split_at_first by (reflexivity || discriminate).
  rewrite (split_none "embed/" _ (includes_apart _ _ _ A4 Hid)).
  cbn [second nth_error option_map]. rewrite Hq.
  change (lit "?") with ["?"%char].
  rewrite first_split_char
    by (eapply Forall_impl; [|exact Hid]; intros c Hc; now apply id_char_facts).
  destruct videoId as [|c v]; [congruence|]. subst target.
  unfold youtube_embed, youtube_query. destruct a'; cbn [embed_prefix].
  - now rewrite <- !app_assoc.
  - now rewrite app_nil_r.
Qed.

(** The first conversion: for every url that [convertToEmbedUrl] hands to
    the YouTube, Twitch, Vimeo or DailyMotion converter and converts, the
    result starts with that platform's embed URL prefix, which holds its
    embed path segment; and for YouTube the result is the embed URL of a
    non-empty video identifier, and when that identifier is made of
    letters, digits, [_] and [-], converting the embed URL a second time
    succeeds and gives the embed URL of the same identifier. *)
Theorem embed_url_shape (url : jsstr) (autoplay : bool) (st : state) (e : jsstr)
    (p : platform) :
  platform_of url = Some p ->
  fst (convertToEmbedUrl url autoplay st) = Ok e ->
  (exists rest, e = embed_prefix p ++ rest) /\
  (p = YouTube ->
   exists videoId,
     videoId <> [] /\ e = youtube_embed videoId autoplay /\
     (Forall (fun c => is_id_char c = true) videoId ->
      forall autoplay' st',
        convertToEmbedUrl e autoplay' st' = (Ok (youtube_embed videoId autoplay'), st'))).
Proof.
  intros Hp He. split; [eapply convert_prefix; eauto|].
  intros ->. unfold platform_of, convertToEmbedUrl in *.
  destruct (includes "youtube.com" url || includes "youtu.be" url)%bool.
  - cbn [fst] in He. apply youtube_result in He as (v & Hv & ->).
    exists v. repeat split; auto. intros Hid a' st'.
    apply youtube_renormalize. split; auto.
  - destruct (includes "twitch.tv" url); [discriminate|].
    destruct (includes "vimeo.com" url); [discriminate|].
    destruct (includes "dailymotion.com" url || includes "dai.ly" url)%bool;
      discriminate.
Qed.

Lemma embed_url_shape_witness :
  convertToEmbedUrl "https://www.youtube.com/embed/dQw4w9WgXcQ?rel=0&modestbranding=1&controls=1&showinfo=0"
    true idle
  = (Ok "https://www.youtube.com/embed/dQw4w9WgXcQ?rel=0&modestbranding=1&controls=1&showinfo=0&autoplay=1&mute=1",
     idle).
Proof.
  destruct (embed_url_shape "https://youtu.be/dQw4w9WgXcQ?t=42" false idle
              "https://www.youtube.com/embed/dQw4w9WgXcQ?rel=0&modestbranding=1&controls=1&showinfo=0"
              YouTube eq_refl eq_refl) as (_ & H).
  destruct (H eq_refl) as (v & _ & Hv & Hr).
  assert (E : v = lit "dQw4w9WgXcQ").
  { unfold youtube_embed, youtube_query in Hv. cbn [embed_prefix] in Hv.
    rewrite app_nil_r in Hv.
    change (lit "https://www.youtube.com/embed/dQw4w9WgXcQ?rel=0&modestbranding=1&controls=1&showinfo=0")
      with (lit "https://www.youtube.com/embed/"
            ++ (lit "dQw4w9WgXcQ" ++ "?rel=0&modestbranding=1&controls=1&showinfo=0")) in Hv.
    apply app_inv_head in Hv. apply app_inv_tail in Hv. now symmetry. }
  subst v. apply (Hr ltac:(repeat constructor) true idle).
Defined.

(** C7 fails on the second conversion.  The URL
    [https://vimeo.com/12345] is on the allow-list and is converted to the
    player URL of the video 12345; that player URL is on the allow-list
    too, yet converting it yields the player URL of a video named
    [video]: [convertVimeoUrl] takes what follows [vimeo.com/] up to the
    next [/] or [?] and has no branch for the player form, where
    [convertYouTubeUrl] has one for [youtube.com/embed/].  The embed URL
    of a Twitch channel and that of a DailyMotion video make the second
    conversion throw. *)
Theorem embed_url_is_not_renormalized :
  isValidStreamingUrl "https://vimeo.com/12345" = true /\
  convertToEmbedUrl "https://vimeo.com/12345" false idle
    = (Ok "https://player.vimeo.com/video/12345?title=0&byline=0&portrait=0", idle) /\
  isValidStreamingUrl "https://player.vimeo.com/video/12345?title=0&byline=0&portrait=0"
    = true /\
  convertToEmbedUrl "https://player.vimeo.com/video/12345?title=0&byline=0&portrait=0"
      false idle
    = (Ok "https://player.vimeo.com/video/video?title=0&byline=0&portrait=0", idle) /\
  isValidStreamingUrl "https://twitch.tv/foo" = true /\
  convertToEmbedUrl "https://twitch.tv/foo" false idle
    = (Ok "https://player.twitch.tv/?channel=foo&parent=localhost", idle) /\
  convertToEmbedUrl "https://player.twitch.tv/?channel=foo&parent=localhost" false idle
    = (Throw "Could not extract Twitch channel", idle) /\
  isValidStreamingUrl "https://www.dailymotion.com/video/x8abc" = true /\
  convertToEmbedUrl "https://www.dailymotion.com/video/x8abc" false idle
    = (Ok "https://www.dailymotion.com/embed/video/x8abc?ui-logo=0", idle) /\
  convertToEmbedUrl "https://www.dailymotion.com/embed/video/x8abc?ui-logo=0" false idle
    = (Throw "Could not extract DailyMotion video ID", idle).
Proof. vm_compute. repeat split. Qed.

(** ** What the handlers do to the timers *)

Lemma lookup_store_eq {A} (k : Z) (v : A) (l : list (Z * A)) :
  lookup k (store k v l) = Some v.
Proof. unfold store. simpl. now rewrite Z.eqb_refl. Qed.

Lemma lookup_store_ne {A} (k k' : Z) (v : A) (l : list (Z * A)) :
  k' <> k -> lookup k' (store k v l) = lookup k' l.
Proof.
  intros H. unfold store. simpl.
  destruct (Z.eqb_spec k k') as [->|_]; [congruence|].
  induction l as [|[a b] l IH]; simpl; [reflexivity|].
  destruct (Z.eqb_spec a k) as [->|Hk]; simpl.
  - destruct (Z.eqb_spec k k'); [congruence|exact IH].
  - destruct (a =? k'); [reflexivity|exact IH].
Qed.

Lemma same_sched_refl st : same_sched st st.
Proof. repeat split. Qed.

Lemma same_sched_trans st1 st2 st3 :
  same_sched st1 st2 -> same_sched st2 st3 -> same_sched st1 st3.
Proof.
  intros (A1 & A2 & A3 & A4 & A5) (B1 & B2 & B3 & B4 & B5).
  repeat split; congruence.
Qed.

Lemma extends_same own st st' : same_sched st st' -> extends own st st'.
Proof.
  intros (A1 & A2 & A3 & A4 & A5). unfold extends.
  rewrite A1, A2, A3, A4, A5. repeat split; auto.
  exists []. rewrite app_nil_r. repeat split; auto; [constructor|]. eauto.
Qed.

Lemma extends_refl own st : extends own st st.
Proof. apply extends_same, same_sched_refl. Qed.

Lemma made_mono own st1 st2 st3 st4 tm :
  made own st2 st3 tm ->
  now st1 = now st2 ->
  (nextTimer st1 <= nextTimer st2)%nat -> (nextTimer st3 <= nextTimer st4)%nat ->
  (nextArray st1 <= nextArray st2)%nat -> (nextArray st3 <= nextArray st4)%nat ->
  made own st1 st4 tm.
Proof.
  intros (H1 & H2 & H3 & H4) En Ht1 Ht2 Ha1 Ha2. repeat split; try lia; auto.
  intros a Ha. destruct (H4 a Ha); [left; lia|now right].
Qed.

Lemma extends_trans own st1 st2 st3 :
  extends own st1 st2 -> extends own st2 st3 -> extends own st1 st3.
Proof.
  intros (A1 & A2 & A3 & n1 & A4 & A5 & A6 & A7) (B1 & B2 & B3 & n2 & B4 & B5 & B6 & B7).
  split; [congruence|]. split; [lia|]. split; [lia|].
  exists (n1 ++ n2). split; [rewrite B4, A4; now rewrite app_assoc|]. split; [|split].
  - apply Forall_app. split.
    + eapply Forall_impl; [|exact A5]. intros tm H.
      eapply made_mono; eauto.
    + eapply Forall_impl; [|exact B5]. intros tm H.
      eapply made_mono; eauto.
  - rewrite map_app. apply NoDup_app; auto.
    intros i H1 H2. apply in_map_iff in H1 as (t1 & <- & H1), H2 as (t2 & E & H2).
    rewrite Forall_forall in A5, B5.
    destruct (A5 _ H1) as [? _], (B5 _ H2) as [? _]. lia.
  - intros l loop T Hl HT. destruct (B7 l loop T Hl HT) as [(loop0 & Hl0 & HT0)|(tm & Hin & Hid & Hlp)].
    + destruct (A7 l loop0 T Hl0 HT0) as [?|(tm & Hin & Hid & Hlp)]; [now left|].
      right. exists tm. split; [apply in_or_app; now left|auto].
    + right. exists tm. split; [apply in_or_app; now right|auto].
Qed.

(** A state that extends a well-formed state is well formed. *)
Lemma extends_wf own st st' :
  wf st -> (forall a, own = Some a -> (a < nextArray st)%nat) ->
  extends own st st' -> wf st'.
Proof.
  intros [W1 W2 W3 W4 W5 W6] Hown (E1 & E2 & E3 & new & E4 & E5 & E6 & E7).
  rewrite Forall_forall in E5. constructor; rewrite ?E4, ?E1.
  - intros tm [H|H]%in_app_or; [apply W1 in H; lia|]. now destruct (E5 _ H) as [? _].
  - rewrite map_app. apply NoDup_app; auto.
    intros i H1 H2. apply in_map_iff in H1 as (t1 & <- & H1), H2 as (t2 & E & H2).
    apply W1 in H1. destruct (E5 _ H2) as [? _]. lia.
  - intros tm a [H|H]%in_app_or Ha; [apply (W3 _ _ H) in Ha; lia|].
    destruct (E5 _ H) as (_ & _ & _ & H4). destruct (H4 a Ha) as [?|Ho]; [lia|].
    apply Hown in Ho. lia.
  - intros tm [H|H]%in_app_or; [now apply W4|]. now destruct (E5 _ H) as (_ & ? & _).
  - intros tm p [H|H]%in_app_or Hp; [now apply (W5 _ _ H)|].
    destruct (E5 _ H) as (_ & _ & H3 & _). now apply H3.
  - intros l loop T Hl HT.
    destruct (E7 l loop T Hl HT) as [(loop0 & Hl0 & HT0)|(tm0 & Hin & Hid & Hlp)].
    + destruct (W6 l loop0 T Hl0 HT0) as [Hlt Hall]. split; [lia|].
      intros tm [H|H]%in_app_or Hi; [now apply Hall|].
      destruct (E5 _ H) as [? _]. lia.
    + destruct (E5 _ Hin) as [Hr _]. split; [lia|].
      intros tm [H|H]%in_app_or Hi; [apply W1 in H; lia|].
      assert (tm = tm0); [|now subst].
      clear - E6 H Hin Hi Hid. subst T.
      induction new as [|x new IH]; [contradiction|].
      inversion E6 as [|? ? Hn Hd]; subst. simpl in Hn.
      destruct H as [->|H], Hin as [->|Hin]; auto.
      * exfalso. apply Hn. rewrite Hi. now apply in_map.
      * exfalso. apply Hn. rewrite <- Hi. now apply in_map.
Qed.

Lemma convert_same url autoplay st :
  same_sched st (snd (convertToEmbedUrl url autoplay st)).
Proof.
  unfold convertToEmbedUrl.
  repeat match goal with
         | |- context [if ?b then _ else _] => destruct b
         end; repeat split.
Qed.

Lemma executeWatch_same params st : same_sched st (snd (executeWatch params st)).
Proof.
  unfold executeWatch. destruct (exec _ _); [|apply same_sched_refl].
  destruct (_ || _)%bool; [apply same_sched_refl|].
  destruct (negb _); [apply same_sched_refl|].
  pose proof (convert_same (trim (group 1 c)) false st) as H.
  destruct (convertToEmbedUrl _ _ _) as [[r|e] st1]; cbn [snd] in *; [|exact H].
  eapply same_sched_trans; [exact H|]. repeat split.
Qed.

Lemma executeLurk_same params st : same_sched st (snd (executeLurk params st)).
Proof.
  unfold executeLurk. destruct (exec _ _); [|apply same_sched_refl].
  destruct (_ || _)%bool; [apply same_sched_refl|].
  destruct (negb _); [apply same_sched_refl|].
  pose proof (convert_same (trim (group 1 c)) true st) as H.
  destruct (convertToEmbedUrl _ _ _) as [[r|e] st1]; cbn [snd] in *; [|exact H].
  eapply same_sched_trans; [exact H|]. repeat split.
Qed.

Lemma made_weaken own st st' tm : made None st st' tm -> made own st st' tm.
Proof.
  intros (H1 & H2 & H3 & H4). repeat split; auto; try lia.
  intros a Ha. destruct (H4 a Ha) as [?|?]; [now left|discriminate].
Qed.

Lemma extends_weaken own st st' : extends None st st' -> extends own st st'.
Proof.
  intros (E1 & E2 & E3 & new & E4 & E5 & E6 & E7). repeat split; auto.
  exists new. repeat split; auto.
  eapply Forall_impl; [|exact E5]. intros tm. apply made_weaken.
Qed.

Lemma setTimeout_extends own cb delay st :
  (forall a, chain_of cb = Some a -> own = Some a) ->
  extends own st (snd (setTimeout cb delay st)).
Proof.
  intros Hcb. unfold setTimeout, extends. cbn. repeat split; try lia.
  eexists. split; [reflexivity|]. split; [|split].
  - constructor; [|constructor]. unfold made; cbn. repeat split; try lia.
    + discriminate.
    + intros a Ha. right. auto.
  - cbn. repeat constructor. intros [].
  - intros l loop T H1 H2. left. eauto.
Qed.

Lemma setInterval_extends own cb delay st :
  chain_of cb = None ->
  extends own st (snd (setInterval cb delay st)).
Proof.
  intros Hcb. unfold setInterval, extends. cbn. repeat split; try lia.
  eexists. split; [reflexivity|]. split; [|split].
  - constructor; [|constructor]. unfold made; cbn. repeat split; try lia.
    + intros p [= <-]. lia.
    + intros a Ha. congruence.
  - cbn. repeat constructor. intros [].
  - intros l loop T H1 H2. left. eauto.
Qed.

Lemma reload_extends own d (l : list tab) (st : state) :
  extends own st
    (fold_left (fun s t => snd (setInterval (CbReload (tab_element t)) d s)) l st).
Proof.
  revert st; induction l as [|t l IH]; intros st; cbn [fold_left].
  - apply extends_refl.
  - eapply extends_trans; [|apply IH]. now apply setInterval_extends.
Qed.

Lemma executeRefresh_extends own params st :
  extends own st (snd (executeRefresh params st)).
Proof.
  unfold executeRefresh. destruct (exec _ _); [|apply extends_refl].
  cbn [snd]. unfold openTabsWithRefresh.
  eapply extends_trans; [|apply reload_extends].
  apply extends_same. repeat split.
Qed.

Lemma parallel_forEach_extends own (l : list jsstr) (i : nat) (st : state) :
  extends own st
    (forEach_from (fun cmd i s => snd (setTimeout (CbParallel i cmd) (Z.of_nat i * 100) s))
                  l i st).
Proof.
  revert i st; induction l as [|c l IH]; intros i st; cbn [forEach_from].
  - apply extends_refl.
  - eapply extends_trans; [|apply IH]. apply setTimeout_extends. discriminate.
Qed.

Lemma executeParallel_extends own params st :
  extends own st (snd (executeParallel params st)).
Proof.
  unfold executeParallel. cbn [snd]. unfold forEach.
  eapply extends_trans; [|apply parallel_forEach_extends].
  apply extends_same. repeat split.
Qed.

Lemma executeLoop_extends own params st :
  extends own st (snd (executeLoop params st)).
Proof.
  unfold executeLoop. destruct (exec _ _) as [mt|]; [|apply extends_refl].
  cbn [snd]. unfold startLoop.
  destruct (negb _).
  { unfold extends. cbn -[store lookup]. repeat split; try lia. exists [].
    rewrite app_nil_r. repeat split; [constructor|constructor|].
    intros l loop T Hl HT. left.
    destruct (Z.eq_dec l (taskIdCounter st)) as [->|Hne].
    - rewrite lookup_store_eq in Hl. injection Hl as <-. discriminate.
    - rewrite lookup_store_ne in Hl by assumption. eauto. }
  cbn [loopObjects set_activeLoops set_loopObjects set_taskIdCounter].
  rewrite lookup_store_eq. unfold extends. cbn -[store lookup]. repeat split; try lia.
  eexists. split; [reflexivity|]. split; [|split].
  - constructor; [|constructor]. unfold made; cbn. repeat split; try lia.
    + intros p [= <-]. lia.
    + discriminate.
  - cbn. repeat constructor. intros [].
  - intros l loop T Hl HT.
    destruct (Z.eq_dec l (taskIdCounter st)) as [->|Hne].
    + rewrite lookup_store_eq in Hl. injection Hl as <-. cbn in HT.
      injection HT as <-. right. eexists. split; [now left|]. split; reflexivity.
    + rewrite !lookup_store_ne in Hl by assumption. left. eauto.
Qed.

Lemma executeRaithaCommand_extends own action params st :
  extends own st (snd (executeRaithaCommand action params st)).
Proof.
  unfold executeRaithaCommand.
  destruct (JsString.eqb action "watch"); [apply extends_same, executeWatch_same|].
  destruct (JsString.eqb action "lurk"); [apply extends_same, executeLurk_same|].
  destruct (JsString.eqb action "refresh"); [apply executeRefresh_extends|].
  apply extends_same.
  unfold executeMute, executeUnmute, executeScroll, executeFullscreen.
  repeat match goal with
         | |- context [if ?b then _ else _] => destruct b
         end; repeat split.
Qed.

Lemma executeRenaCommand_same action params st :
  same_sched st (snd (executeRenaCommand action params st)).
Proof.
  unfold executeRenaCommand, executeTest, executeScrape, executeCompare,
    executeMonitor, executeDownload, executePing.
  repeat match goal with
         | |- context [if ?b then _ else _] => destruct b
         | |- context [match exec ?r ?p with _ => _ end] => destruct (exec r p)
         end; repeat split.
Qed.

Lemma executeSchedule_same params st : same_sched st (snd (executeSchedule params st)).
Proof. unfold executeSchedule. destruct (exec _ _); repeat split. Qed.

Lemma executeRotate_same params st : same_sched st (snd (executeRotate params st)).
Proof. unfold executeRotate. destruct (exec _ _); repeat split. Qed.

Section DispatchEffect.

Variable dispatch : jsstr -> state -> outcome * state.
Hypothesis dispatch_extends : forall c s, extends None s (snd (dispatch c s)).

Lemma executeChainSequence_with_extends a cmds i st :
  extends (Some a) st (executeChainSequence_with dispatch a cmds i st).
Proof.
  unfold executeChainSequence_with.
  destruct (nth_error cmds i) as [c|]; [|apply extends_same; repeat split].
  pose proof (dispatch_extends c st) as H.
  destruct (dispatch c st) as [[r|e] st1]; cbn [snd] in H.
  - eapply extends_trans; [apply extends_weaken, H|].
    eapply extends_trans; [|apply setTimeout_extends].
    + apply extends_same. repeat split.
    + intros b [= <-]. reflexivity.
  - eapply extends_trans; [apply extends_weaken, H|].
    apply extends_same. repeat split.
Qed.

Lemma executeChain_with_extends own params st :
  extends own st (snd (executeChain_with dispatch params st)).
Proof.
  unfold executeChain_with. cbn [snd].
  set (cmds := map trim (split "->" params)).
  remember (logInfo _ (set_nextArray (S (nextArray st)) st)) as st1 eqn:Es.
  assert (F1 : now st1 = now st) by now subst.
  assert (F2 : nextTimer st1 = nextTimer st) by now subst.
  assert (F3 : nextArray st1 = S (nextArray st)) by now subst.
  assert (F4 : timers st1 = timers st) by now subst.
  assert (F5 : loopObjects st1 = loopObjects st) by now subst.
  clear Es.
  destruct (executeChainSequence_with_extends (nextArray st) cmds 0 st1)
    as (E1 & E2 & E3 & new & E4 & E5 & E6 & E7).
  rewrite ?F1, ?F2, ?F3, ?F4, ?F5 in *.
  split; [exact E1|]. split; [exact E2|]. split; [lia|].
  exists new. split; [exact E4|]. split; [|split; [exact E6|exact E7]].
  eapply Forall_impl; [|exact E5]. intros tm (H1 & H2 & H3 & H4).
  rewrite ?F1, ?F2, ?F3 in *. repeat split; auto; try lia.
  intros a Ha. left. destruct (H4 a Ha) as [?|[= <-]]; lia.
Qed.

Lemma parseAndExecute_with_extends command st :
  extends None st (snd (parseAndExecute_with dispatch command st)).
Proof.
  unfold parseAndExecute_with.
  destruct (exec_anchored _ _); [|apply extends_refl].
  destruct (exec Patterns.action command); [|apply extends_refl].
  destruct (exec Patterns.params command); [|apply extends_refl].
  unfold executeAction_with.
  destruct (JsString.eqb _ "raitha"); [apply executeRaithaCommand_extends|].
  destruct (JsString.eqb _ "rena"); [apply extends_same, executeRenaCommand_same|].
  destruct (JsString.eqb _ "leaf"); [|apply extends_refl].
  unfold executeLeafCommand_with.
  destruct (JsString.eqb _ "schedule"); [apply extends_same, executeSchedule_same|].
  destruct (JsString.eqb _ "loop"); [apply executeLoop_extends|].
  destruct (JsString.eqb _ "batch"); [apply extends_same; repeat split|].
  destruct (JsString.eqb _ "parallel"); [apply executeParallel_extends|].
  destruct (JsString.eqb _ "chain"); [apply executeChain_with_extends|].
  destruct (JsString.eqb _ "rotate"); [apply extends_same, executeRotate_same|].
  apply extends_refl.
Qed.

End DispatchEffect.

Lemma parseAndExecute_fuel_extends n :
  forall command st, extends None st (snd (parseAndExecute_fuel n command st)).
Proof.
  induction n as [|n IH]; intros command st; [apply extends_refl|].
  cbn [parseAndExecute_fuel]. now apply parseAndExecute_with_extends.
Qed.

(** Dispatching a command leaves the pending timers in place and creates
    new ones only. *)
Lemma parseAndExecute_extends command st :
  extends None st (snd (parseAndExecute command st)).
Proof. apply parseAndExecute_fuel_extends. Qed.

(** ** The event loop *)


Lemma to_long_le (d : Z) : 0 <= d -> to_long d <= d.
Proof.
  intros H. unfold to_long.
  pose proof (Z.mod_le (d + 2 ^ 31) (2 ^ 32) ltac:(lia) ltac:(lia)). lia.
Qed.

Lemma host_delay_nonneg (d : Z) : 0 <= host_delay d.
Proof. unfold host_delay. lia. Qed.

Lemma host_delay_le (d : Z) : 0 <= d -> host_delay d <= d.
Proof. intros H. unfold host_delay. pose proof (to_long_le d H). lia. Qed.


Lemma host_period_pos (d : Z) : 1 <= host_period d.
Proof. unfold host_period. lia. Qed.


Lemma fire_time_timeout (t : timer) : tm_period t = None -> fire_time t = tm_due t.
Proof. intros H. unfold fire_time. now rewrite H. Qed.


Lemma fire_time_le (t : timer) :
  (forall p, tm_period t = Some p -> 0 <= p) -> fire_time t <= tm_due t.
Proof.
  intros H. unfold fire_time. destruct (tm_period t) as [p|]; [|lia].
  pose proof (host_delay_le p (H p eq_refl)). lia.
Qed.

Lemma next_timer_spec (ts : list timer) (t : timer) :
  next_timer ts = Some t ->
  In t ts /\ forall u, In u ts -> fire_time t <= fire_time u.
Proof.
  revert t; induction ts as [|x ts IH]; intros t; cbn [next_timer]; [discriminate|].
  destruct (next_timer ts) as [u|] eqn:E.
  - destruct (IH u eq_refl) as [Hin Hmin]. intros [= <-].
    destruct (earlier x u) eqn:Ee.
    + split; [now left|]. intros v [<-|Hv]; [lia|].
      apply Hmin in Hv. unfold earlier in Ee.
      apply orb_prop in Ee as [Ee|Ee]; [apply Z.ltb_lt in Ee; lia|].
      apply andb_prop in Ee as [Ee _]. apply Z.eqb_eq in Ee. lia.
    + split; [now right|]. intros v [<-|Hv]; [|now apply Hmin].
      unfold earlier in Ee. apply orb_false_elim in Ee as [Ee _].
      apply Z.ltb_ge in Ee. lia.
  - intros [= <-]. destruct ts as [|y ts]; [|simpl in E; destruct (next_timer ts); discriminate].
    split; [now left|]. intros v [<-|[]]. lia.
Qed.

Lemma filter_distinct_ids (keep : timer -> bool) (ts : list timer) :
  NoDup (map tm_id ts) -> NoDup (map tm_id (filter keep ts)).
Proof.
  intros Hd. induction ts as [|tm ts IH]; [constructor|].
  cbn [map filter] in *. apply NoDup_cons_iff in Hd as [Hfresh Hrest].
  destruct (keep tm); cbn [map]; [|now apply IH].
  constructor; [|now apply IH].
  rewrite in_map_iff. intros (u & E & Hu). apply Hfresh.
  rewrite <- E. apply in_map. now apply filter_In in Hu.
Qed.

Lemma same_id_same_timer (ts : list timer) (t u : timer) :
  NoDup (map tm_id ts) -> In t ts -> In u ts -> tm_id t = tm_id u -> t = u.
Proof.
  induction ts as [|x ts IH]; intros Hd Ht Hu E; [contradiction|].
  inversion Hd as [|? ? Hn Hd']; subst. simpl in Hn.
  destruct Ht as [->|Ht], Hu as [->|Hu]; auto.
  - exfalso. apply Hn. rewrite E. now apply in_map.
  - exfalso. apply Hn. rewrite <- E. now apply in_map.
Qed.

Lemma rearm_ids (t : timer) (ts : list timer) :
  forall i, In i (map tm_id (rearm t ts)) -> In i (map tm_id ts).
Proof.
  intros i. unfold rearm. destruct (tm_period t).
  - rewrite map_map. rewrite !in_map_iff. intros (u & <- & Hu). exists u.
    split; [|exact Hu]. now destruct (Nat.eqb _ _).
  - rewrite !in_map_iff. intros (u & <- & Hu). apply filter_In in Hu as [Hu _]. eauto.
Qed.

Lemma rearm_In (t : timer) (ts : list timer) (u : timer) :
  In u (rearm t ts) ->
  (In u ts /\ tm_id u <> tm_id t) \/
  (exists p v, tm_period t = Some p /\ In v ts /\ tm_id v = tm_id t /\
               u = mkTimer (tm_id v) (tm_due v + host_period p) (tm_period v) (tm_cb v)).
Proof.
  unfold rearm. destruct (tm_period t) as [p|].
  - intros (v & E & Hv)%in_map_iff. destruct (Nat.eqb_spec (tm_id v) (tm_id t)).
    + right. exists p, v. auto.
    + left. subst. auto.
  - intros [Hu E]%filter_In. left. split; auto.
    apply negb_true_iff, Nat.eqb_neq in E. exact E.
Qed.

Lemma rearm_other (t : timer) (ts : list timer) (u : timer) :
  In u ts -> tm_id u <> tm_id t -> In u (rearm t ts).
Proof.
  intros Hu Hne. unfold rearm. destruct (tm_period t).
  - apply in_map_iff. exists u. split; [|exact Hu].
    destruct (Nat.eqb_spec (tm_id u) (tm_id t)); [contradiction|reflexivity].
  - apply filter_In. split; [exact Hu|]. now apply negb_true_iff, Nat.eqb_neq.
Qed.

Lemma rearm_NoDup (t : timer) (ts : list timer) :
  NoDup (map tm_id ts) -> NoDup (map tm_id (rearm t ts)).
Proof.
  unfold rearm. destruct (tm_period t).
  - rewrite map_map. intros H.
    erewrite map_ext; [exact H|]. intros u. now destruct (Nat.eqb _ _).
  - apply filter_distinct_ids.
Qed.

(** The start of a turn: the timer that fires is the pending timer that
    runs first, the clock is at the time it runs, which for a timeout is
    its due time, and the other timers are as they were. *)
Lemma prepare_spec (st : state) (t : timer) (st1 : state) :
  wf st -> prepare st = Some (t, st1) ->
  In t (timers st) /\ (tm_period t = None -> now st1 = tm_due t) /\ wf st1 /\
  nextTimer st1 = nextTimer st /\ nextArray st1 = nextArray st /\
  timers st1 = rearm t (timers st).
Proof.
  intros W. unfold prepare. destruct (next_timer (timers st)) as [t'|] eqn:E; [|discriminate].
  intros [= <- <-]. destruct (next_timer_spec _ _ E) as [Hin Hmin].
  destruct W as [W1 W2 W3 W4 W5 W6].
  assert (Hle : forall u, In u (timers st) -> fire_time u <= tm_due u)
    by (intros u Hu; apply fire_time_le; intros p; apply (W5 u p Hu)).
  split; [exact Hin|]. split; [|split; [|repeat split]].
  { intros Hp. cbn [now set_now set_timers]. rewrite (fire_time_timeout _ Hp).
    apply W4 in Hin. lia. }
  constructor; cbn [timers nextTimer nextArray now loopObjects set_timers set_now].
  - intros u Hu. apply (in_map tm_id), rearm_ids, in_map_iff in Hu as (v & <- & Hv).
    now apply W1.
  - now apply rearm_NoDup.
  - intros u a [[Hu _]|(p & v & Hp & Hv & Hi & ->)]%rearm_In Ha; [now apply (W3 u)|].
    now apply (W3 v).
  - intros u [[Hu _]|(p & v & Hp & Hv & Hi & ->)]%rearm_In.
    + pose proof (Hmin u Hu). pose proof (Hle u Hu). pose proof (W4 u Hu). lia.
    + cbn. assert (v = t') by (eapply same_id_same_timer; eauto). subst v.
      pose proof (Hle t' Hin). pose proof (W4 t' Hin). pose proof (host_period_pos p). lia.
  - intros u p [[Hu _]|(q & v & Hq & Hv & Hi & ->)]%rearm_In Hp; [now apply (W5 u)|].
    now apply (W5 v).
  - intros l loop T Hl HT. destruct (W6 l loop T Hl HT) as [Hlt Hall]. split; [exact Hlt|].
    intros u [[Hu _]|(q & v & Hq & Hv & Hi & ->)]%rearm_In Hid; [now apply Hall|].
    now apply (Hall v).
Qed.

(** The clock at the start of a turn. *)
Lemma prepare_now (st : state) (t : timer) (st1 : state) :
  prepare st = Some (t, st1) -> now st1 = Z.max (now st) (fire_time t).
Proof.
  unfold prepare. destruct (next_timer (timers st)) as [t'|]; [|discriminate].
  now intros [= <- <-].
Qed.

Lemma filter_all {A} (l : list A) : filter (fun _ => true) l = l.
Proof. induction l as [|x l IH]; simpl; [reflexivity|now rewrite IH]. Qed.

Lemma filter_filter_keep {A} (p keep : A -> bool) (l : list A) :
  (forall u, In u l -> keep u = false -> p u = false) ->
  filter p (filter keep l) = filter p l.
Proof.
  induction l as [|x l IH]; intros H; simpl; [reflexivity|].
  rewrite <- IH by (intros u Hu; apply H; now right).
  destruct (keep x) eqn:Ek; simpl; [reflexivity|].
  rewrite (H x) by (auto; now left). reflexivity.
Qed.

Lemma filter_none {A} (p : A -> bool) (l : list A) :
  (forall u, In u l -> p u = false) -> filter p l = [].
Proof.
  induction l as [|x l IH]; intros H; simpl; [reflexivity|].
  rewrite (H x) by now left. apply IH. intros u Hu. apply H. now right.
Qed.

Lemma extends_evolves own st st' : extends own st st' -> evolves own st st'.
Proof.
  intros H. exists st', (fun _ => true).
  split; [exact H|]. split; [reflexivity|]. split; [reflexivity|].
  split; [reflexivity|]. split; [now rewrite filter_all|].
  split; [discriminate|eauto].
Qed.

Lemma loop_not_chain (a : nat) (u : timer) : is_loop (tm_cb u) = true -> of_chain a u = false.
Proof. unfold of_chain. now destruct (tm_cb u). Qed.

(** A state that evolves from a well-formed state is well formed. *)
Lemma evolves_wf own st st' :
  wf st -> (forall a, own = Some a -> (a < nextArray st)%nat) ->
  evolves own st st' -> wf st'.
Proof.
  intros W Hown (mid & keep & E & E1 & E2 & E3 & E4 & E5 & E6).
  pose proof (extends_wf own st mid W Hown E) as [W1 W2 W3 W4 W5 W6].
  constructor; rewrite ?E1, ?E2, ?E3, ?E4.
  - intros u [Hu _]%filter_In. now apply W1.
  - now apply filter_distinct_ids.
  - intros u a [Hu _]%filter_In. now apply W3.
  - intros u [Hu _]%filter_In. now apply W4.
  - intros u p [Hu _]%filter_In. now apply W5.
  - intros l loop T Hl HT. destruct (E6 l loop T Hl HT) as (loop0 & Hl0 & HT0).
    destruct (W6 l loop0 T Hl0 HT0) as [Hlt Hall]. split; [exact Hlt|].
    intros u [Hu _]%filter_In. now apply Hall.
Qed.

(** What a turn's callback can do to the pending timers. *)
Lemma evolves_facts own st st' :
  evolves own st st' ->
  now st' = now st /\ (nextTimer st <= nextTimer st')%nat /\
  (nextArray st <= nextArray st')%nat /\
  (forall u, In u (timers st) -> is_loop (tm_cb u) = false -> In u (timers st')) /\
  (forall u, In u (timers st') -> In u (timers st) \/ (nextTimer st <= tm_id u)%nat) /\
  (forall a, (a < nextArray st)%nat -> own <> Some a ->
             filter (of_chain a) (timers st') = filter (of_chain a) (timers st)).
Proof.
  intros (mid & keep & (X1 & X2 & X3 & new & X4 & X5 & X6 & X7)
          & E1 & E2 & E3 & E4 & E5 & E6).
  rewrite Forall_forall in X5.
  split; [congruence|]. split; [lia|]. split; [lia|]. split; [|split].
  - intros u Hu Hl. rewrite E4. apply filter_In. split.
    + rewrite X4. apply in_or_app. now left.
    + destruct (keep u) eqn:Ek; [reflexivity|].
      rewrite E5 in Hl; [discriminate| |exact Ek].
      rewrite X4. apply in_or_app. now left.
  - intros u Hu. rewrite E4 in Hu. apply filter_In in Hu as [Hu _].
    rewrite X4 in Hu. apply in_app_or in Hu as [Hu|Hu]; [now left|].
    right. now destruct (X5 _ Hu) as [? _].
  - intros a Ha Hown. rewrite E4, filter_filter_keep.
    + rewrite X4, filter_app, (filter_none _ new), app_nil_r; [reflexivity|].
      intros u Hu. destruct (X5 _ Hu) as (_ & _ & _ & H4).
      unfold of_chain. destruct (chain_of (tm_cb u)) as [b|] eqn:Eb; [|reflexivity].
      apply Nat.eqb_neq. intros <-. destruct (H4 a eq_refl) as [?|?]; [lia|congruence].
    + intros u Hu Hk. apply loop_not_chain. now apply E5.
Qed.

Lemma loopTick_evolves loopId st : wf st -> evolves None st (loopTick loopId st).
Proof.
  intros W. unfold loopTick.
  destruct (lookup loopId (loopObjects st)) as [loop0|];
    [|apply extends_evolves, extends_refl].
  pose proof (parseAndExecute_extends (loop_command loop0) st) as H.
  destruct (parseAndExecute (loop_command loop0) st) as [[r|e] st1]; cbn [snd] in H.
  2:{ apply extends_evolves. eapply extends_trans; [exact H|].
      apply extends_same. repeat split. }
  destruct (lookup loopId (loopObjects st1)) as [loop|] eqn:El;
    [|now apply extends_evolves].
  assert (W1 : wf st1) by (eapply extends_wf; eauto; discriminate).
  assert (Hloops : forall l lp T,
             lookup l (store loopId
                         (mkLoop (loop_command loop) (loop_iterations loop)
                                 (loop_delay loop) (loop_current loop + 1)
                                 (loop_interval loop)) (loopObjects st1)) = Some lp ->
             loop_interval lp = Some T ->
             exists loop0, lookup l (loopObjects st1) = Some loop0 /\
                           loop_interval loop0 = Some T).
  { intros l lp T Hl HT. destruct (Z.eq_dec l loopId) as [->|Hne].
    - rewrite lookup_store_eq in Hl. injection Hl as <-. eauto.
    - rewrite lookup_store_ne in Hl by assumption. eauto. }
  cbn [loop_current loop_iterations loop_interval].
  destruct (nge _ _).
  - destruct (loop_interval loop) as [T|] eqn:EI.
    + exists st1, (fun t => negb (Nat.eqb (tm_id t) T)).
      split; [exact H|]. repeat split; auto.
      intros u Hu Hk. apply negb_false_iff, Nat.eqb_eq in Hk.
      destruct (wf_loops st1 W1 loopId loop T El EI) as [_ Hall]. now apply Hall.
    + exists st1, (fun _ => true). split; [exact H|]. repeat split; auto.
      * cbn. now rewrite filter_all.
      * discriminate.
  - exists st1, (fun _ => true). split; [exact H|]. repeat split; auto.
    + cbn. now rewrite filter_all.
    + discriminate.
Qed.

Lemma run_callback_evolves cb st :
  wf st -> evolves (chain_of cb) st (run_callback cb st).
Proof.
  intros W. destruct cb as [r i c|r|l|i c|a cmds i|e]; cbn [run_callback chain_of].
  - apply extends_evolves. unfold multiRun.
    pose proof (parseAndExecute_extends c st) as H.
    destruct (parseAndExecute c st) as [[[|x res]|err] st1]; cbn [snd] in H; auto;
      (eapply extends_trans; [exact H|]; apply extends_same; repeat split).
  - apply extends_evolves, extends_same. unfold summary.
    destruct (nth r (counters st) (0, 0)) as [cc ec]. destruct (ec =? 0); repeat split.
  - now apply loopTick_evolves.
  - apply extends_evolves. unfold parallelRun.
    pose proof (parseAndExecute_extends c st) as H.
    destruct (parseAndExecute c st) as [[res|err] st1]; cbn [snd] in H; exact H.
  - apply extends_evolves. apply executeChainSequence_with_extends.
    apply parseAndExecute_extends.
  - apply extends_evolves, extends_refl.
Qed.

(** A turn of the event loop keeps the state well formed. *)
Lemma turn_wf (st : state) (t : timer) (st1 : state) :
  wf st -> prepare st = Some (t, st1) ->
  wf st1 /\ wf (run_callback (tm_cb t) st1) /\
  evolves (chain_of (tm_cb t)) st1 (run_callback (tm_cb t) st1).
Proof.
  intros W P. destruct (prepare_spec st t st1 W P) as (Hin & Hnow & W1 & Ht & Ha & Htm).
  pose proof (run_callback_evolves (tm_cb t) st1 W1) as E.
  split; [exact W1|]. split; [|exact E].
  eapply evolves_wf; eauto. intros a Hc. rewrite Ha.
  apply (wf_arrays st W t a Hin). exact Hc.
Qed.

Lemma run_step (n : nat) (st : state) (t : timer) (st1 : state) :
  prepare st = Some (t, st1) ->
  run (S n) st = ((t, st1) :: fst (run n (run_callback (tm_cb t) st1)),
                  snd (run n (run_callback (tm_cb t) st1))).
Proof.
  intros P. cbn [run]. rewrite P.
  now destruct (run n (run_callback (tm_cb t) st1)).
Qed.

Lemma run_stop (n : nat) (st : state) : prepare st = None -> run n st = ([], st).
Proof. intros P. destruct n; [reflexivity|]. cbn [run]. now rewrite P. Qed.



(** ** Chains *)





Lemma wf_initial host fs : wf (initial host fs).
Proof.
  constructor; cbn; try (intros; contradiction); [constructor|discriminate].
Qed.


(** ** Parallel commands *)




(** ** Lines with several commands *)

Lemma multi_forEach_timers (run : nat) (l : list jsstr) :
  forall (i : nat) (st : state),
    let st' := forEach_from
                 (fun cmd i s => snd (setTimeout (CbMulti run i cmd) (Z.of_nat i * 200) s))
                 l i st in
    timers st' = timers st ++ multi_timers run (nextTimer st) (now st) i l /\
    activeTabs st' = activeTabs st /\ output st' = output st.
Proof.
  induction l as [|c l IH]; intros i st; cbn [forEach_from multi_timers].
  - rewrite app_nil_r. auto.
  - destruct (IH (S i) (snd (setTimeout (CbMulti run i c) (Z.of_nat i * 200) st)))
      as (H1 & H2 & H3).
    cbv zeta in *. rewrite H1, H2, H3. cbn. rewrite <- app_assoc.
    rewrite Z.max_r by lia. auto.
Qed.

(** What [executeCommand] does with a line that holds [|]: when the line
    does not start with [Leaf Ex.parallel], written exactly so, it is split
    at [|] and each part gets a timeout 200 ms after the part before it,
    nothing being dispatched at once; when it does, the whole line goes to
    [parseAndExecute]. *)
Lemma executeLine_pipe (run : nat) (line : jsstr) (index : nat) (st : state) :
  nonblank (trim line) = true -> startsWith "//" (trim line) = false ->
  includes "|" (trim line) = true ->
  (startsWith "Leaf Ex.parallel" (trim line) = false ->
   let parts := map trim (split "|" (trim line)) in
   let st' := executeLine run line index st in
   timers st' = timers st ++ multi_timers run (nextTimer st) (now st) 0 parts /\
   activeTabs st' = activeTabs st /\
   output st' = output st ++ [(Info, "Executing " ++ count_str (length parts)
                                     ++ " commands simultaneously...")]) /\
  (startsWith "Leaf Ex.parallel" (trim line) = true ->
   executeLine run line index st
   = match parseAndExecute (trim line) st with
     | (Ok [], st1) => st1
     | (Ok result, st1) =>
         logSuccess (glyph_check ++ " Command " ++ count_str (index + 1) ++ ": " ++ result)
                    (set_counters (bump_command run (counters st1)) st1)
     | (Throw message, st1) =>
         logError (glyph_cross ++ " Command " ++ count_str (index + 1) ++ ": " ++ message)
                  (set_counters (bump_error run (counters st1)) st1)
     end).
Proof.
  intros Hb Hc Hp. unfold executeLine. rewrite Hb, Hc, Hp. cbn [negb orb andb].
  split; intros Hs; rewrite Hs; cbn [negb]; [|reflexivity].
  apply (multi_forEach_timers run (map trim (split "|" (trim line))) 0
           (logInfo _ st)).
Qed.

(** C6 fails on the letter case of the agent: the line
    [leaf Ex.parallel -- ...|...] is a parallel command for the parser, as
    the same line with [Leaf] is, yet [executeCommand] splits it at [|]
    into two commands 200 ms apart, where the line with [Leaf] is passed
    whole and its two sub-commands run 100 ms apart. *)
Theorem lowercase_parallel_line_is_split :
  let line := lit "leaf Ex.parallel -- Raitha Ex.mute -- all | Raitha Ex.unmute -- all" in
  let Line := lit "Leaf Ex.parallel -- Raitha Ex.mute -- all | Raitha Ex.unmute -- all" in
  let view := map (fun tm => (tm_due tm, tm_cb tm)) in
  parse true line
    = Command "leaf" "parallel" "Raitha Ex.mute -- all | Raitha Ex.unmute -- all" /\
  parse true Line = parse true line /\
  view (timers (executeCommand line idle))
    = [(0, CbMulti 0 0 "leaf Ex.parallel -- Raitha Ex.mute -- all");
       (200, CbMulti 0 1 "Raitha Ex.unmute -- all");
       (1000, CbSummary 0)] /\
  view (timers (executeCommand Line idle))
    = [(0, CbParallel 0 "Raitha Ex.mute -- all");
       (100, CbParallel 1 "Raitha Ex.unmute -- all");
       (1000, CbSummary 0)].
Proof. vm_compute. repeat split. Qed.

(** ** Loops *)

(** The command of the loop fails in every state. *)
Lemma watch_without_marker_fails (st : state) :
  parseAndExecute "Raitha Ex.watch test.1" st
  = (Throw "Missing parameters. Use: -- [params]", st).
Proof. vm_compute. reflexivity. Qed.

(** A tick whose dispatch fails logs the error and changes nothing else:
    the counter of the loop is not incremented and the interval stays. *)
Lemma loopTick_failure (loopId : Z) (loop : loopTask) (message : jsstr)
    (st st1 : state) :
  lookup loopId (loopObjects st) = Some loop ->
  parseAndExecute (loop_command loop) st = (Throw message, st1) ->
  loopTick loopId st
  = logError ("Loop " ++ show (Some loopId) ++ " error: " ++ message) st1.
Proof. intros H1 H2. unfold loopTick. now rewrite H1, H2. Qed.

Lemma stuck_loop_turn (k : nat) :
  exists st',
    prepare (stuck_loop k)
    = Some (mkTimer 1 (1000 * (Z.of_nat k + 1)) (Some 1000) (CbLoop 0), st') /\
    run_callback (CbLoop 0) st' = stuck_loop (S k).
Proof.
  eexists. split.
  - unfold prepare, stuck_loop. cbn [timers next_timer]. reflexivity.
  - cbn [run_callback].
    erewrite loopTick_failure;
      [ | reflexivity | apply watch_without_marker_fails ].
    unfold stuck_loop, logError, log, set_output, set_timers, set_now, fire_time.
    cbn -[Z.mul Z.add Z.sub Z.of_nat Z.max repeat lit host_delay host_period].
    change (host_delay 1000) with 1000. change (host_period 1000) with 1000.
    rewrite Z.max_r by lia.
    f_equal.
    + now replace (1000 * (Z.of_nat (S k) + 1)) with (1000 * (Z.of_nat k + 1) + 1000) by lia.
    + lia.
    + cbn [repeat]. rewrite repeat_cons. reflexivity.
Qed.

Lemma stuck_loop_run (n : nat) :
  forall k : nat,
    fired (fst (run n (stuck_loop k)))
    = map (fun i => (1000 * (Z.of_nat i + 1), CbLoop 0)) (seq k n) /\
    snd (run n (stuck_loop k)) = stuck_loop (k + n).
Proof.
  induction n as [|n IH]; intros k.
  - cbn [run fst snd seq map fired]. now rewrite Nat.add_0_r.
  - destruct (stuck_loop_turn k) as (st' & Hp & Hc).
    cbn [run]. rewrite Hp. cbn [tm_cb]. rewrite Hc.
    destruct (IH (S k)) as (H1 & H2).
    destruct (run n (stuck_loop (S k))) as [turns st2].
    cbn [fst snd] in *. split.
    + unfold fired in *. cbn [map seq fst tm_due tm_cb]. now rewrite H1.
    + rewrite H2. f_equal. lia.
Qed.

(** C3 fails for a loop with a failing dispatch: the tick that fails does
    not increment the counter, so the loop fires more than [n] dispatches.
    The loop of [Leaf Ex.loop -- Raitha Ex.watch test.1.3.1] (3 iterations,
    1000 ms), whose command fails at every tick, fires a dispatch every
    1000 ms for ever: after any number of turns it is still registered
    with its counter at 0 and its interval pending.  A loop of 3 iterations
    whose second tick alone fails fires 4 dispatches, and is still
    registered after the third. *)
Theorem failing_tick_is_not_counted :
  (fst (parseAndExecute "Leaf Ex.loop -- Raitha Ex.watch test.1.3.1" idle)
   = Ok "Loop started: 3 times with 1s delay (ID: 0)" /\
   forall n : nat,
     let r := run n (snd (parseAndExecute "Leaf Ex.loop -- Raitha Ex.watch test.1.3.1"
                                          idle)) in
     fired (fst r) = map (fun i => (1000 * (Z.of_nat i + 1), CbLoop 0)) (seq 0 n) /\
     activeLoops (snd r) = [0] /\
     lookup 0 (loopObjects (snd r))
     = Some (mkLoop "Raitha Ex.watch test.1" (Some 3) (Some 1000) 0 (Some 1%nat)) /\
     timers (snd r) = [mkTimer 1 (1000 * (Z.of_nat n + 1)) (Some 1000) (CbLoop 0)] /\
     output (snd r)
     = (Info, lit "Loop 0 started")
         :: repeat (Error, lit "Loop 0 error: Missing parameters. Use: -- [params]") n) /\
  let watch := lit "Raitha Ex.watch -- twitch.tv/a.1" in
  let loop := lit "Leaf Ex.loop -- Raitha Ex.fullscreen -- 1.3.1" in
  let current st := map (fun entry => loop_current (snd entry)) (loopObjects st) in
  let s1 := snd (parseAndExecute loop (snd (parseAndExecute watch idle))) in
  let s2 := closeTab 0 (snd (run 1 s1)) in
  let s3 := snd (parseAndExecute watch (snd (run 1 s2))) in
  fst (parseAndExecute loop (snd (parseAndExecute watch idle)))
  = Ok "Loop started: 3 times with 1s delay (ID: 0)" /\
  fired (fst (run 1 s1)) = [(1000, CbLoop 0)] /\ current (snd (run 1 s1)) = [1] /\
  fired (fst (run 1 s2)) = [(2000, CbLoop 0)] /\ current (snd (run 1 s2)) = [1] /\
  output (snd (run 1 s2)) = output s2 ++ [(Error, lit "Loop 0 error: Tab 1 not found")] /\
  fired (fst (run 1 s3)) = [(3000, CbLoop 0)] /\ current (snd (run 1 s3)) = [2] /\
  activeLoops (snd (run 1 s3)) = [0] /\
  fired (fst (run 5 s3)) = [(3000, CbLoop 0); (4000, CbLoop 0)] /\
  current (snd (run 5 s3)) = [3] /\ activeLoops (snd (run 5 s3)) = [] /\
  timers (snd (run 5 s3)) = [] /\
  output (snd (run 5 s3)) = output s3 ++ [(Success, lit "Loop 0 completed 3 iterations")].
Proof.
  split; [split|].
  - vm_compute. reflexivity.
  - intros n.
    assert (E : snd (parseAndExecute "Leaf Ex.loop -- Raitha Ex.watch test.1.3.1" idle)
                = stuck_loop 0) by (vm_compute; reflexivity).
    rewrite E. destruct (stuck_loop_run n 0) as (H1 & H2).
    cbv zeta. rewrite H1, H2. cbn [Nat.add]. unfold stuck_loop.
    cbn [activeLoops loopObjects timers output]. repeat split.
  - vm_compute. repeat split.
Qed.

(** ** Substrings and the pieces of [split] *)

Lemma startsWith_true (p s : jsstr) :
  startsWith p s = true <-> exists y, s = p ++ y.
Proof.
  split.
  - revert s; induction p as [|a p IH]; intros s H; [now exists s|].
    destruct s as [|b s]; [discriminate|]. cbn [startsWith] in H.
    apply andb_prop in H as [Hab H]. apply Ascii.eqb_eq in Hab. subst b.
    destruct (IH s H) as [y ->]. now exists y.
  - intros [y ->]. apply startsWith_self.
Qed.

Lemma includes_true (p s : jsstr) :
  includes p s = true <-> exists x y, s = x ++ p ++ y.
Proof.
  split.
  - induction s as [|c s IH]; cbn [includes]; intros H.
    + rewrite orb_false_r in H. apply startsWith_true in H as [y Hy]. now exists [], y.
    + apply orb_prop in H as [H|H].
      * apply startsWith_true in H as [y Hy]. now exists [], y.
      * destruct (IH H) as (x & y & ->). now exists (c :: x), y.
  - intros (x & y & ->). induction x as [|c x IH].
    + destruct (p ++ y) eqn:E; cbn [app includes]; rewrite <- ?E.
      * destruct p; [reflexivity|discriminate].
      * now rewrite startsWith_self.
    + change ((c :: x) ++ p ++ y) with (c :: x ++ p ++ y). cbn [includes].
      rewrite IH. apply orb_true_r.
Qed.

(** A string that holds [a ++ q ++ b] holds [q]. *)
Lemma includes_part (a q b s : jsstr) :
  includes (a ++ q ++ b) s = true -> includes q s = true.
Proof.
  rewrite !includes_true. intros (x & y & ->).
  exists (x ++ a), (b ++ y). now rewrite <- !app_assoc.
Qed.

(** [s.split(sep)[1]] is defined when [sep] occurs in [s]. *)
Lemma second_split (sep s : jsstr) :
  sep <> [] -> includes sep s = true -> exists x, second (split sep s) = Some x.
Proof.
  intros Hsep. unfold split, second. induction s as [|c s IH]; cbn [includes]; intros H.
  - destruct sep; [congruence|discriminate].
  - cbn [split_go]. destruct (startsWith sep (c :: s)) eqn:E.
    + pose proof (split_go_nonempty sep s (length sep - 1)) as Hne.
      destruct (split_go sep s (length sep - 1)) as [|x r]; [congruence|].
      now exists x.
    + destruct (IH H) as [x Hx].
      destruct (split_go sep s 0) as [|p [|y r]]; try discriminate.
      now exists y.
Qed.

(** ** Failures of the converters *)

Ltac marker_occurs H a q b :=
  let x := fresh "x" in
  let Hx := fresh "Hx" in
  destruct (second_split q _ ltac:(discriminate)
              (includes_part a q b _ H)) as [x Hx];
  rewrite Hx.

Lemma convertYouTubeUrl_throw (url : jsstr) (autoplay : bool) (e : jsstr) :
  convertYouTubeUrl url autoplay = Throw e -> e = extraction_error YouTube.
Proof.
  unfold convertYouTubeUrl.
  destruct (includes "youtube.com/watch?v=" url) eqn:E1.
  { marker_occurs E1 (lit "youtube.com/watch?") (lit "v=") (@nil ascii).
    cbn [option_map]. destruct (first _); [now intros [= <-]|discriminate]. }
  destruct (includes "youtu.be/" url) eqn:E2.
  { marker_occurs E2 (@nil ascii) (lit "youtu.be/") (@nil ascii).
    cbn [option_map]. destruct (first _); [now intros [= <-]|discriminate]. }
  destruct (includes "youtube.com/live/" url) eqn:E3.
  { marker_occurs E3 (lit "youtube.com/") (lit "live/") (@nil ascii).
    cbn [option_map]. destruct (first _); [now intros [= <-]|discriminate]. }
  destruct (includes "youtube.com/embed/" url) eqn:E4.
  { marker_occurs E4 (lit "youtube.com/") (lit "embed/") (@nil ascii).
    cbn [option_map]. destruct (first _); [now intros [= <-]|discriminate]. }
  now intros [= <-].
Qed.

Lemma convertTwitchUrl_throw (host url : jsstr) (autoplay : bool) (e : jsstr) :
  convertTwitchUrl host url autoplay = Throw e -> e = extraction_error Twitch.
Proof.
  unfold convertTwitchUrl.
  destruct (includes "/videos/" url) eqn:E1.
  { marker_occurs E1 (@nil ascii) (lit "/videos/") (@nil ascii). discriminate. }
  destruct (match second (split "twitch.tv/" url) with
            | Some (c :: p) => _ | _ => [] end);
    [now intros [= <-]|discriminate].
Qed.

Lemma convertVimeoUrl_throw (url : jsstr) (autoplay : bool) (e : jsstr) :
  convertVimeoUrl url autoplay = Throw e -> e = extraction_error Vimeo.
Proof.
  unfold convertVimeoUrl.
  destruct (includes "vimeo.com/" url) eqn:E1; [|now intros [= <-]].
  marker_occurs E1 (@nil ascii) (lit "vimeo.com/") (@nil ascii).
  cbn [option_map]. destruct (first _); [now intros [= <-]|discriminate].
Qed.

Lemma convertDailyMotionUrl_throw (url : jsstr) (autoplay : bool) (e : jsstr) :
  convertDailyMotionUrl url autoplay = Throw e -> e = extraction_error DailyMotion.
Proof.
  unfold convertDailyMotionUrl.
  destruct (includes "dailymotion.com/video/" url) eqn:E1.
  { marker_occurs E1 (lit "dailymotion.com") (lit "/video/") (@nil ascii).
    cbn [option_map]. destruct (first _); [now intros [= <-]|discriminate]. }
  destruct (includes "dai.ly/" url) eqn:E2; [|now intros [= <-]].
  marker_occurs E2 (@nil ascii) (lit "dai.ly/") (@nil ascii).
  cbn [option_map]. destruct (first _); [now intros [= <-]|discriminate].
Qed.

(** X1: the only failures of [convertToEmbedUrl] are the four extraction
    errors, each raised by the converter of its own platform; the pieces
    that the converters take from [split] are always there, so no
    [TypeError] is raised, and a failure leaves the page as it was. *)
Theorem conversion_fails_only_without_identifier (url : jsstr) (autoplay : bool)
    (st st' : state) (e : jsstr) :
  convertToEmbedUrl url autoplay st = (Throw e, st') ->
  st' = st /\ exists p, platform_of url = Some p /\ e = extraction_error p.
Proof.
  unfold convertToEmbedUrl, platform_of.
  destruct (includes "youtube.com" url || includes "youtu.be" url)%bool.
  { intros [= H <-]. split; [reflexivity|]. exists YouTube.
    split; [reflexivity|]. eapply convertYouTubeUrl_throw; eauto. }
  destruct (includes "twitch.tv" url).
  { intros [= H <-]. split; [reflexivity|]. exists Twitch.
    split; [reflexivity|]. eapply convertTwitchUrl_throw; eauto. }
  destruct (includes "vimeo.com" url).
  { intros [= H <-]. split; [reflexivity|]. exists Vimeo.
    split; [reflexivity|]. eapply convertVimeoUrl_throw; eauto. }
  destruct (includes "dailymotion.com" url || includes "dai.ly" url)%bool.
  { intros [= H <-]. split; [reflexivity|]. exists DailyMotion.
    split; [reflexivity|]. eapply convertDailyMotionUrl_throw; eauto. }
  destruct (includes "facebook.com" url || includes "fb.watch" url)%bool; [discriminate|].
  destruct (includes "instagram.com" url); [discriminate|].
  destruct (includes "tiktok.com" url); discriminate.
Qed.

Lemma conversion_fails_only_without_identifier_witness :
  convertToEmbedUrl "https://www.youtube.com/channel/abc" false idle
  = (Throw "Could not extract YouTube video ID", idle) /\
  idle = idle /\
  exists p, platform_of "https://www.youtube.com/channel/abc" = Some p /\
            lit "Could not extract YouTube video ID" = extraction_error p.
Proof.
  split; [reflexivity|].
  apply (conversion_fails_only_without_identifier
           "https://www.youtube.com/channel/abc" false idle idle
           "Could not extract YouTube video ID").
  reflexivity.
Defined.

(** X2: with [autoplay] the converters give the URL they give without it,
    followed by the autoplay suffix of the platform; they fail on the same
    URLs with the same error; and a URL of no embeddable platform
    (Facebook, Instagram, TikTok or any other) is handed back as it is,
    with or without [autoplay]. *)
Theorem autoplay_only_appends (url : jsstr) (st : state) :
  match convertToEmbedUrl url false st with
  | (Ok e, st') =>
      convertToEmbedUrl url true st
      = (Ok (e ++ match platform_of url with
                  | Some p => autoplay_suffix p
                  | None => []
                  end), st')
  | (Throw message, st') => convertToEmbedUrl url true st = (Throw message, st')
  end /\
  (platform_of url = None ->
   forall autoplay, fst (convertToEmbedUrl url autoplay st) = Ok url).
Proof.
  split.
  - unfold convertToEmbedUrl, platform_of.
    destruct (includes "youtube.com" url || includes "youtu.be" url)%bool.
    { unfold convertYouTubeUrl.
      destruct (if includes "youtube.com/watch?v=" url then _ else _) as [[|c v]|];
        reflexivity. }
    destruct (includes "twitch.tv" url).
    { unfold convertTwitchUrl. destruct (includes "/videos/" url).
      - destruct (second (split "/videos/" url)); reflexivity.
      - destruct (match second (split "twitch.tv/" url) with
                  | Some (c :: p) => _ | _ => [] end); reflexivity. }
    destruct (includes "vimeo.com" url).
    { unfold convertVimeoUrl.
      destruct (if includes "vimeo.com/" url then _ else _) as [[|c v]|]; reflexivity. }
    destruct (includes "dailymotion.com" url || includes "dai.ly" url)%bool.
    { unfold convertDailyMotionUrl.
      destruct (if includes "dailymotion.com/video/" url then _ else _) as [[|c v]|];
        reflexivity. }
    destruct (includes "facebook.com" url || includes "fb.watch" url)%bool;
      [now rewrite app_nil_r|].
    destruct (includes "instagram.com" url); [now rewrite app_nil_r|].
    destruct (includes "tiktok.com" url); now rewrite app_nil_r.
  - unfold convertToEmbedUrl, platform_of. intros H autoplay.
    destruct (includes "youtube.com" url || includes "youtu.be" url)%bool; [discriminate|].
    destruct (includes "twitch.tv" url); [discriminate|].
    destruct (includes "vimeo.com" url); [discriminate|].
    destruct (includes "dailymotion.com" url || includes "dai.ly" url)%bool; [discriminate|].
    destruct (includes "facebook.com" url || includes "fb.watch" url)%bool; [reflexivity|].
    destruct (includes "instagram.com" url); [reflexivity|].
    destruct (includes "tiktok.com" url); reflexivity.
Qed.

Lemma autoplay_only_appends_witness :
  platform_of "https://www.facebook.com/watch/?v=1234" = None /\
  fst (convertToEmbedUrl "https://www.facebook.com/watch/?v=1234" true idle)
  = Ok "https://www.facebook.com/watch/?v=1234".
Proof.
  split; [reflexivity|].
  exact (proj2 (autoplay_only_appends "https://www.facebook.com/watch/?v=1234" idle)
               eq_refl true).
Defined.

(** ** What a group has captured *)

Lemma m_grp_sound (g : nat) (r : regex) (s : jsstr) (cs : caps) (k : cont) (res : caps) :
  m (Grp g r) s cs k = Some res ->
  exists p t cs', s = p ++ t /\ lang r p t /\ k t ((g, p) :: cs') = Some res.
Proof.
  cbn [m]. intros H. apply m_sound in H as (p & t & cs' & -> & Hl & Hk).
  rewrite firstn_app_sub in Hk. eauto 8.
Qed.

(** The last group of [/(.+)\.(\d+)$/] is a run of digits. *)
Lemma url_count_digits (params : jsstr) (mt : caps) :
  exec Patterns.url_count params = Some mt ->
  exists d, capture 2 mt = Some d /\ d <> [] /\ all_digits d.
Proof.
  intros H. apply exec_suffix in H as (p & t & -> & H).
  unfold Patterns.url_count in H. cbn [rseq] in H. rewrite m_cat in H.
  apply m_sound in H as (p1 & t1 & cs1 & -> & _ & H).
  rewrite m_cat, m_str in H. destruct (startsWith "." t1); [|discriminate].
  rewrite m_cat in H. apply m_grp_sound in H as (d & t2 & cs2 & E & [Hne Hd] & H).
  cbn [m] in H. destruct t2; [|discriminate]. injection H as <-.
  exists d. cbn [capture Nat.eqb]. auto.
Qed.

Lemma convert_throw_state (url : jsstr) (autoplay : bool) (st st' : state) (e : jsstr) :
  convertToEmbedUrl url autoplay st = (Throw e, st') -> st' = st.
Proof.
  unfold convertToEmbedUrl.
  repeat match goal with
         | |- context [if ?b then _ else _] => destruct b
         end; now intros [= _ <-].
Qed.

Lemma convert_tabs (url : jsstr) (autoplay : bool) (st : state) :
  let st' := snd (convertToEmbedUrl url autoplay st) in
  activeTabs st' = activeTabs st /\ nextElement st' = nextElement st /\
  timers st' = timers st.
Proof.
  unfold convertToEmbedUrl.
  repeat match goal with
         | |- context [if ?b then _ else _] => destruct b
         end; repeat split.
Qed.

(** ** Watch and lurk *)

Lemma open_after_convert (lurk : bool) (url : jsstr) (n : Z) (type : jsstr)
    (st : state) (e : jsstr) (st1 : state) :
  convertToEmbedUrl url lurk st = (Ok e, st1) ->
  activeTabs (openTabs e (Some n) type st1)
  = activeTabs st ++ fresh_tabs e type (Z.to_nat n) st /\
  timers (openTabs e (Some n) type st1) = timers st.
Proof.
  intros H. pose proof (convert_tabs url lurk st) as Hc. cbv zeta in Hc.
  rewrite H in Hc. cbn [snd] in Hc. destruct Hc as (H1 & H2 & H3).
  unfold openTabs, fresh_tabs. cbn. now rewrite H1, H2, H3.
Qed.

(** X3: watch and lurk open all their tabs or change nothing.  When the
    command fails (wrong format, a count outside 1..100, a URL that is not
    on the allow-list, or no identifier to extract) the page is as it was:
    no tab, no log line.  When it succeeds it has appended between 1 and
    100 tabs, all with one embed URL and the type of the command, with
    consecutive ids from [startId] on, and has created no timer. *)
Theorem watch_lurk_all_or_nothing (lurk : bool) (params : jsstr) (st : state) :
  let handler := if lurk then executeLurk else executeWatch in
  let type := if lurk then lit "lurk" else lit "watch" in
  match handler params st with
  | (Throw _, st') => st' = st
  | (Ok _, st') =>
      exists (n : Z) (embedUrl : jsstr),
        1 <= n <= 100 /\
        activeTabs st' = activeTabs st ++ fresh_tabs embedUrl type (Z.to_nat n) st /\
        timers st' = timers st
  end.
Proof.
  assert (G : forall type message,
             match
               match exec Patterns.url_count params with
               | None => (Throw "Format: <url>.<tabs>", st)
               | Some mt =>
                   let url := trim (group 1 mt) in
                   let tabCount := parseInt (group 2 mt) in
                   if (nlt tabCount 1 || ngt tabCount 100)%bool
                   then (Throw "Tab count: 1-100", st)
                   else if negb (isValidStreamingUrl url)
                        then (Throw "Invalid streaming platform URL", st)
                        else match convertToEmbedUrl url lurk st with
                             | (Throw e, st1) => (Throw e, st1)
                             | (Ok embedUrl, st1) =>
                                 (Ok (message tabCount url),
                                  openTabs embedUrl tabCount type st1)
                             end
               end
             with
             | (Throw _, st') => st' = st
             | (Ok _, st') =>
                 exists (n : Z) (embedUrl : jsstr),
                   1 <= n <= 100 /\
                   activeTabs st' = activeTabs st ++ fresh_tabs embedUrl type (Z.to_nat n) st /\
                   timers st' = timers st
             end).
  { intros type message.
    destruct (exec Patterns.url_count params) as [mt|] eqn:E; [|reflexivity].
    destruct (url_count_digits params mt E) as (d & Hc & Hne & Hd).
    assert (Hg : group 2 mt = d) by (unfold group; now rewrite Hc).
    cbv zeta. rewrite Hg, (parseInt_digits d Hne Hd).
    cbn [nlt ngt]. destruct (decimal d <? 1) eqn:E1; [reflexivity|].
    destruct (100 <? decimal d) eqn:E2; [reflexivity|]. cbn [orb].
    destruct (negb (isValidStreamingUrl (trim (group 1 mt)))); [reflexivity|].
    destruct (convertToEmbedUrl (trim (group 1 mt)) lurk st) as [[e|e] st1] eqn:Ec.
    - exists (decimal d), e. split; [lia|].
      apply (open_after_convert lurk (trim (group 1 mt))); assumption.
    - eapply convert_throw_state; eauto. }
  destruct lurk; cbv zeta.
  - apply (G (lit "lurk") (fun tabCount url =>
               "Opened " ++ show tabCount ++ " tab(s) lurking in: " ++ url)).
  - apply (G (lit "watch") (fun tabCount url =>
               "Opened " ++ show tabCount ++ " tab(s) watching: " ++ url)).
Qed.

(** ** Loops that run to their end *)








(** ** The tab table and the task ids stay in order *)

Lemma tidy_same_ids (st st' : state) :
  ids st' = ids st -> scheduledTasks st' = scheduledTasks st ->
  activeLoops st' = activeLoops st -> taskIdCounter st' = taskIdCounter st ->
  tidy st -> tidy st'.
Proof.
  intros H1 H2 H3 H4 [T1 T2 T3 T4]. constructor; rewrite ?H1, ?H2, ?H3, ?H4; auto.
Qed.

Ltac same_page :=
  match goal with
  | H : tidy ?s |- tidy _ => apply (tidy_same_ids s); [reflexivity..|exact H]
  end.

Lemma tidy_initial (host : jsstr) (fs : bool) : tidy (initial host fs).
Proof. constructor; cbn; try constructor; intros k []. Qed.

Lemma tidy_openTabs url count type st : tidy st -> tidy (openTabs url count type st).
Proof.
  intros [T1 T2 T3 T4]. constructor; auto.
  apply (ids_NoDup_op st (Open url count type) T1).
Qed.

Lemma tidy_closeTab index st : tidy st -> tidy (closeTab index st).
Proof.
  intros [T1 T2 T3 T4].
  constructor; try (unfold closeTab; destruct (existsb _ _); assumption).
  apply (ids_NoDup_op st (Close index) T1).
Qed.

Lemma tidy_closeAllTabs st : tidy st -> tidy (closeAllTabs st).
Proof. intros [T1 T2 T3 T4]. constructor; auto. constructor. Qed.

Lemma tidy_convert url autoplay st :
  tidy st -> tidy (snd (convertToEmbedUrl url autoplay st)).
Proof.
  intros T. unfold convertToEmbedUrl.
  repeat match goal with
         | |- context [if ?b then _ else _] => destruct b
         end; cbn [snd]; try exact T; same_page.
Qed.

Lemma tidy_watch params st : tidy st -> tidy (snd (executeWatch params st)).
Proof.
  intros T. unfold executeWatch. destruct (exec _ _); [|exact T]. cbv zeta.
  destruct (_ || _)%bool; [exact T|]. destruct (negb _); [exact T|].
  pose proof (tidy_convert (trim (group 1 c)) false st T) as Hc.
  destruct (convertToEmbedUrl _ _ _) as [[e|e] st1]; cbn [snd] in *; [|exact Hc].
  now apply tidy_openTabs.
Qed.

Lemma tidy_lurk params st : tidy st -> tidy (snd (executeLurk params st)).
Proof.
  intros T. unfold executeLurk. destruct (exec _ _); [|exact T]. cbv zeta.
  destruct (_ || _)%bool; [exact T|]. destruct (negb _); [exact T|].
  pose proof (tidy_convert (trim (group 1 c)) true st T) as Hc.
  destruct (convertToEmbedUrl _ _ _) as [[e|e] st1]; cbn [snd] in *; [|exact Hc].
  now apply tidy_openTabs.
Qed.

Lemma tidy_reload (d : Z) (l : list tab) :
  forall s, tidy s ->
            tidy (fold_left (fun s t => snd (setInterval (CbReload (tab_element t)) d s))
                            l s).
Proof.
  induction l as [|t l IH]; intros s T; [exact T|]. cbn [fold_left].
  apply IH. same_page.
Qed.

Lemma tidy_refresh params st : tidy st -> tidy (snd (executeRefresh params st)).
Proof.
  intros T. unfold executeRefresh. destruct (exec _ _); [|exact T].
  cbn [snd]. unfold openTabsWithRefresh. apply tidy_reload. now apply tidy_openTabs.
Qed.

Lemma tidy_mute (b : bool) (l : list num) (st : state) :
  tidy st -> tidy (set_tabs (mute_all b l (activeTabs st)) st).
Proof.
  intros T. apply (tidy_same_ids st); try reflexivity; [|exact T].
  apply identity_ids, mute_all_identity.
Qed.

Lemma tidy_mute_every (b : bool) (st : state) :
  tidy st -> tidy (set_tabs (map (set_muted b) (activeTabs st)) st).
Proof.
  intros T. apply (tidy_same_ids st); try reflexivity; [|exact T].
  unfold ids. cbn. rewrite map_map. reflexivity.
Qed.

Lemma tidy_raitha action params st :
  tidy st -> tidy (snd (executeRaithaCommand action params st)).
Proof.
  intros T. unfold executeRaithaCommand.
  destruct (JsString.eqb action "watch"); [now apply tidy_watch|].
  destruct (JsString.eqb action "lurk"); [now apply tidy_lurk|].
  destruct (JsString.eqb action "refresh"); [now apply tidy_refresh|].
  destruct (JsString.eqb action "mute").
  { unfold executeMute. destruct (JsString.eqb _ _); cbn [snd];
      [now apply tidy_mute_every|now apply tidy_mute]. }
  destruct (JsString.eqb action "unmute").
  { unfold executeUnmute. destruct (JsString.eqb _ _); cbn [snd];
      [now apply tidy_mute_every|now apply tidy_mute]. }
  destruct (JsString.eqb action "scroll"); [cbn [snd executeScroll]; same_page|].
  destruct (JsString.eqb action "fullscreen"); [|exact T].
  unfold executeFullscreen. destruct (existsb _ _); [|exact T].
  destruct (fullscreenSupported st); exact T.
Qed.

Lemma tidy_rena action params st :
  tidy st -> tidy (snd (executeRenaCommand action params st)).
Proof.
  intros T. unfold executeRenaCommand.
  destruct (JsString.eqb action "test").
  { unfold executeTest. destruct (exec _ _); cbn [snd]; [same_page|exact T]. }
  destruct (JsString.eqb action "scrape").
  { unfold executeScrape. destruct (exec _ _); cbn [snd]; [|exact T].
    apply tidy_openTabs. same_page. }
  destruct (JsString.eqb action "compare").
  { unfold executeCompare. destruct (exec _ _); cbn [snd]; [same_page|exact T]. }
  destruct (JsString.eqb action "monitor").
  { unfold executeMonitor. destruct (exec _ _); cbn [snd]; [same_page|exact T]. }
  destruct (JsString.eqb action "download"); [cbn [snd executeDownload]; same_page|].
  destruct (JsString.eqb action "ping"); [|exact T].
  unfold executePing. destruct (exec _ _); cbn [snd]; [same_page|exact T].
Qed.

Lemma store_keys {A} (k : Z) (v : A) (l : list (Z * A)) (x : Z) :
  In x (map fst (store k v l)) -> x = k \/ In x (map fst l).
Proof.
  unfold store. cbn [map fst]. intros [->|H]; [now left|right].
  apply in_map_iff in H as (e & <- & He). apply filter_In in He as [He _].
  now apply in_map.
Qed.

Lemma tidy_schedule params st : tidy st -> tidy (snd (executeSchedule params st)).
Proof.
  intros [T1 T2 T3 T4]. unfold executeSchedule.
  destruct (exec _ _); [|now constructor]. cbn [snd].
  constructor; cbn -[store].
  - exact T1.
  - intros k Hk. apply store_keys in Hk as [->|Hk]; [lia|]. apply T2 in Hk. lia.
  - intros k Hk. apply T3 in Hk. lia.
  - intros k Hk Hl. apply store_keys in Hk as [->|Hk].
    + apply T3 in Hl. lia.
    + now apply (T4 k).
Qed.

Lemma tidy_loop params st : tidy st -> tidy (snd (executeLoop params st)).
Proof.
  intros [T1 T2 T3 T4]. unfold executeLoop.
  destruct (exec _ _); [|now constructor]. cbn [snd].
  match goal with
  | |- tidy (startLoop ?i ?s) => cut (tidy s); [generalize s; intros s2 T|]
  end.
  - unfold startLoop. destruct (negb _); [exact T|].
    destruct (lookup _ (loopObjects s2)); [|exact T]. same_page.
  - constructor; cbn -[store].
    + exact T1.
    + intros k Hk. apply T2 in Hk. lia.
    + intros k [<-|Hk]; [lia|]. apply filter_In in Hk as [Hk _]. apply T3 in Hk. lia.
    + intros k Hk [<-|Hl].
      * apply T2 in Hk. lia.
      * apply filter_In in Hl as [Hl _]. now apply (T4 k).
Qed.

Lemma tidy_forEach {A} (f : A -> nat -> state -> state) (l : list A) :
  (forall x i s, tidy s -> tidy (f x i s)) ->
  forall i s, tidy s -> tidy (forEach_from f l i s).
Proof.
  intros Hf. induction l as [|x l IH]; intros i s T; [exact T|].
  cbn [forEach_from]. apply IH, Hf, T.
Qed.

Lemma tidy_parallel params st : tidy st -> tidy (snd (executeParallel params st)).
Proof.
  intros T. unfold executeParallel. cbn [snd]. unfold forEach.
  apply tidy_forEach; [intros x i s Ts; same_page|same_page].
Qed.

Section DispatchTidy.

Variable dispatch : jsstr -> state -> outcome * state.
Hypothesis dispatch_tidy : forall c s, tidy s -> tidy (snd (dispatch c s)).

Lemma tidy_chainSequence_with a cmds i st :
  tidy st -> tidy (executeChainSequence_with dispatch a cmds i st).
Proof.
  intros T. unfold executeChainSequence_with.
  destruct (nth_error cmds i) as [c|]; [|same_page].
  pose proof (dispatch_tidy c st T) as H.
  destruct (dispatch c st) as [[r|e] st1]; cbn [snd] in H; same_page.
Qed.

Lemma tidy_parseAndExecute_with command st :
  tidy st -> tidy (snd (parseAndExecute_with dispatch command st)).
Proof.
  intros T. unfold parseAndExecute_with.
  destruct (exec_anchored _ _); [|exact T].
  destruct (exec Patterns.action command); [|exact T].
  destruct (exec Patterns.params command); [|exact T].
  unfold executeAction_with.
  destruct (JsString.eqb _ "raitha"); [now apply tidy_raitha|].
  destruct (JsString.eqb _ "rena"); [now apply tidy_rena|].
  destruct (JsString.eqb _ "leaf"); [|exact T].
  unfold executeLeafCommand_with.
  destruct (JsString.eqb _ "schedule"); [now apply tidy_schedule|].
  destruct (JsString.eqb _ "loop"); [now apply tidy_loop|].
  destruct (JsString.eqb _ "batch"); [cbn [snd executeBatch]; same_page|].
  destruct (JsString.eqb _ "parallel"); [now apply tidy_parallel|].
  destruct (JsString.eqb _ "chain").
  { unfold executeChain_with. cbn [snd]. apply tidy_chainSequence_with. same_page. }
  destruct (JsString.eqb _ "rotate"); [|exact T].
  unfold executeRotate. destruct (exec _ _); cbn [snd]; [same_page|exact T].
Qed.

End DispatchTidy.

Lemma tidy_parseAndExecute_fuel (n : nat) :
  forall command st, tidy st -> tidy (snd (parseAndExecute_fuel n command st)).
Proof.
  induction n as [|n IH]; intros command st T; [exact T|].
  cbn [parseAndExecute_fuel]. now apply tidy_parseAndExecute_with.
Qed.

Lemma tidy_parseAndExecute command st :
  tidy st -> tidy (snd (parseAndExecute command st)).
Proof. apply tidy_parseAndExecute_fuel. Qed.

Lemma tidy_loopTick loopId st : tidy st -> tidy (loopTick loopId st).
Proof.
  intros T. unfold loopTick. destruct (lookup loopId (loopObjects st)); [|exact T].
  pose proof (tidy_parseAndExecute (loop_command l) st T) as H.
  destruct (parseAndExecute _ _) as [[r|e] st1]; cbn [snd] in H; [|same_page].
  destruct (lookup loopId (loopObjects st1)) as [loop|]; [|exact H]. cbv zeta.
  destruct (nge _ _); [|same_page].
  cbn [loop_interval loop_iterations]. destruct H as [T1 T2 T3 T4].
  destruct (loop_interval loop); constructor; cbn; auto.
  all: try (intros k Hk; apply (T3 k); apply filter_In in Hk; apply Hk).
  all: intros k Hk Hl; apply (T4 k); auto; apply filter_In in Hl; apply Hl.
Qed.

Lemma tidy_callback cb st : tidy st -> tidy (run_callback cb st).
Proof.
  intros T. destruct cb; cbn [run_callback]; try exact T.
  - unfold multiRun. pose proof (tidy_parseAndExecute cmd st T) as H.
    destruct (parseAndExecute _ _) as [[[|c r]|e] st1]; cbn [snd] in H;
      [exact H|same_page|same_page].
  - unfold summary. destruct (nth _ _ _) as [c e].
    destruct (e =? 0); same_page.
  - now apply tidy_loopTick.
  - unfold parallelRun. pose proof (tidy_parseAndExecute cmd st T) as H.
    destruct (parseAndExecute _ _) as [[r|e] st1]; cbn [snd] in H; [exact H|same_page].
  - apply tidy_chainSequence_with; [exact tidy_parseAndExecute|exact T].
Qed.

Lemma tidy_prepare st t st1 : prepare st = Some (t, st1) -> tidy st -> tidy st1.
Proof.
  unfold prepare. destruct (next_timer _); [|discriminate].
  intros [= _ <-] T. same_page.
Qed.

Lemma tidy_run (n : nat) :
  forall st, tidy st ->
             tidy (snd (run n st)) /\
             forall turn, In turn (fst (run n st)) -> tidy (snd turn).
Proof.
  induction n as [|n IH]; intros st T; cbn [run].
  - split; [exact T|intros turn []].
  - destruct (prepare st) as [[t st1]|] eqn:E; [|split; [exact T|intros turn []]].
    pose proof (tidy_prepare st t st1 E T) as T1.
    destruct (IH _ (tidy_callback (tm_cb t) st1 T1)) as [H1 H2].
    destruct (run n (run_callback (tm_cb t) st1)) as [turns st2].
    cbn [fst snd] in *. split; [exact H1|].
    intros turn [<-|Hin]; [exact T1|now apply H2].
Qed.

Lemma tidy_executeLine r line index st : tidy st -> tidy (executeLine r line index st).
Proof.
  intros T. unfold executeLine. cbv zeta.
  destruct (_ || _)%bool; [exact T|].
  destruct (_ && _)%bool.
  - unfold forEach. apply tidy_forEach; [intros x i s Ts; same_page|same_page].
  - pose proof (tidy_parseAndExecute (trim line) st T) as H.
    destruct (parseAndExecute _ _) as [[[|c res]|e] st1]; cbn [snd] in H;
      [exact H|same_page|same_page].
Qed.

Lemma tidy_executeCommand value st : tidy st -> tidy (executeCommand value st).
Proof.
  intros T. unfold executeCommand. cbv zeta.
  destruct (trim value); [same_page|].
  match goal with
  | |- tidy (snd (setTimeout _ _ ?s)) => assert (Ts : tidy s); [|same_page]
  end.
  unfold forEach. apply tidy_forEach; [intros; now apply tidy_executeLine|same_page].
Qed.

(** X5: the tab table and the task ids stay in order.  From a page where
    the tab ids are pairwise distinct, the ids of scheduled tasks and of
    loops lie below [taskIdCounter], and no id names both a task and a
    loop, the same holds after any command, after any text run by
    [executeCommand], after closing one tab or all tabs, and before and
    after every timer callback of any run of the event loop.  So a new
    task id never overwrites a task or a loop, and [tab-<id>] names one
    tab. *)
Theorem page_stays_tidy (st : state) :
  tidy st ->
  (forall command, tidy (snd (parseAndExecute command st))) /\
  (forall value, tidy (executeCommand value st)) /\
  (forall index, tidy (closeTab index st)) /\
  tidy (closeAllTabs st) /\
  (forall n, tidy (snd (run n st)) /\
             forall turn, In turn (fst (run n st)) -> tidy (snd turn)).
Proof.
  intros T. split; [|split; [|split; [|split]]].
  - intros command. now apply tidy_parseAndExecute.
  - intros value. now apply tidy_executeCommand.
  - intros index. now apply tidy_closeTab.
  - now apply tidy_closeAllTabs.
  - intros n. now apply tidy_run.
Qed.

Lemma page_stays_tidy_witness :
  tidy idle /\
  tidy (snd (run 4 (snd (parseAndExecute
                           "Leaf Ex.chain -- Raitha Ex.watch -- https://youtu.be/abc.2 -> Leaf Ex.loop -- Raitha Ex.mute -- 1.2.1"
                           idle)))).
Proof.
  split; [apply tidy_initial|].
  pose proof (proj1 (page_stays_tidy idle (tidy_initial _ _))
                "Leaf Ex.chain -- Raitha Ex.watch -- https://youtu.be/abc.2 -> Leaf Ex.loop -- Raitha Ex.mute -- 1.2.1")
    as T.
  exact (proj1 (proj2 (proj2 (proj2 (proj2 (page_stays_tidy _ T)))) 4%nat)).
Defined.

(** ** Closing tabs *)

Lemma set_tabs_same (st : state) : set_tabs (activeTabs st) st = st.
Proof. now destruct st. Qed.

Lemma closeTab_eq (index : Z) (st : state) :
  closeTab index st
  = set_tabs (filter (fun t => negb (tab_id t =? index)) (activeTabs st)) st.
Proof.
  rewrite <- closeTab_tabs. unfold closeTab.
  destruct (existsb _ _); [reflexivity|]. symmetry. apply set_tabs_same.
Qed.

Lemma filter_swap {A} (f g : A -> bool) (l : list A) :
  filter f (filter g l) = filter g (filter f l).
Proof.
  induction l as [|x l IH]; [reflexivity|]. cbn [filter].
  destruct (f x) eqn:Ef, (g x) eqn:Eg; cbn [filter]; rewrite ?Ef, ?Eg, IH; reflexivity.
Qed.

Lemma filter_twice {A} (f : A -> bool) (l : list A) :
  filter f (filter f l) = filter f l.
Proof.
  induction l as [|x l IH]; [reflexivity|]. cbn [filter].
  destruct (f x) eqn:Ef; cbn [filter]; rewrite ?Ef, IH; reflexivity.
Qed.

(** X6: the close button of a tab removes the tabs with that id and
    nothing else: the other tabs stay in their order, no timer is
    cancelled and nothing is logged; closing an id that is not open
    changes nothing; closing twice is closing once; and two tabs can be
    closed in either order. *)
Theorem closeTab_removes_one_id (index : Z) (st : state) :
  activeTabs (closeTab index st)
  = filter (fun t => negb (tab_id t =? index)) (activeTabs st) /\
  ~ In index (ids (closeTab index st)) /\
  (forall j, j <> index -> In j (ids st) -> In j (ids (closeTab index st))) /\
  timers (closeTab index st) = timers st /\
  output (closeTab index st) = output st /\
  (~ In index (ids st) -> closeTab index st = st) /\
  closeTab index (closeTab index st) = closeTab index st /\
  (forall j, closeTab index (closeTab j st) = closeTab j (closeTab index st)).
Proof.
  split; [apply closeTab_tabs|]. split; [|split; [|split; [|split; [|split; [|split]]]]].
  - unfold ids. rewrite closeTab_tabs, in_map_iff. intros (t & Ht & Hin).
    apply filter_In in Hin as [_ Hne]. rewrite Ht, Z.eqb_refl in Hne. discriminate.
  - unfold ids. rewrite closeTab_tabs. intros j Hj Hin.
    apply in_map_iff in Hin as (t & <- & Hin). apply in_map, filter_In.
    split; [exact Hin|]. apply negb_true_iff, Z.eqb_neq. exact Hj.
  - rewrite closeTab_eq. reflexivity.
  - rewrite closeTab_eq. reflexivity.
  - intros Hn. unfold closeTab. destruct (existsb _ _) eqn:E; [|reflexivity].
    apply existsb_exists in E as (t & Hin & Ht). apply Z.eqb_eq in Ht.
    exfalso. apply Hn. unfold ids. rewrite <- Ht. now apply in_map.
  - rewrite !closeTab_eq. cbn [activeTabs set_tabs]. now rewrite filter_twice.
  - intros j. rewrite !closeTab_eq. cbn [activeTabs set_tabs].
    rewrite filter_swap. reflexivity.
Qed.

(** ** Reload intervals *)

Lemma next_timer_some (ts : list timer) : ts <> [] -> exists t, next_timer ts = Some t.
Proof.
  destruct ts as [|u r]; [congruence|]. intros _. cbn [next_timer].
  destruct (next_timer r); eauto.
Qed.

Lemma rearm_self (t : timer) (ts : list timer) (p : Z) :
  In t ts -> tm_period t = Some p ->
  In (mkTimer (tm_id t) (tm_due t + host_period p) (tm_period t) (tm_cb t)) (rearm t ts).
Proof.
  intros Hin Hp. unfold rearm. rewrite Hp. apply in_map_iff. exists t.
  rewrite Nat.eqb_refl, Hp. auto.
Qed.

Lemma reload_turn (id e : nat) (p : Z) (s : state) :
  wf s -> pending_reload id e p s ->
  exists t s1, prepare s = Some (t, s1) /\
               wf (run_callback (tm_cb t) s1) /\
               pending_reload id e p (run_callback (tm_cb t) s1).
Proof.
  intros W (u & Hin & Hid & Hcb & Hp).
  destruct (next_timer_some (timers s)) as [t Ht]; [intros E; now rewrite E in Hin|].
  assert (Hs : prepare s = Some (t, set_timers (rearm t (timers s)) (nextTimer s)
                                      (set_now (Z.max (now s) (fire_time t)) s))).
  { unfold prepare. now rewrite Ht. }
  eexists _, _. split; [exact Hs|].
  destruct (turn_wf _ _ _ W Hs) as (_ & W2 & Ev). split; [exact W2|].
  destruct (prepare_spec _ _ _ W Hs) as (Hit & _ & _ & _ & _ & Hts).
  apply evolves_facts in Ev as (_ & _ & _ & Keep & _).
  destruct (Nat.eq_dec (tm_id u) (tm_id t)) as [E|E].
  - assert (u = t) by (apply (same_id_same_timer (timers s)); auto; apply (wf_nodup s W)).
    subst u. eexists. split; [apply Keep; [rewrite Hts; apply (rearm_self t _ p); auto|]|].
    + cbn [tm_cb]. now rewrite Hcb.
    + cbn [tm_id tm_cb tm_period]. auto.
  - exists u. split; [|auto]. apply Keep; [|now rewrite Hcb].
    rewrite Hts. now apply rearm_other.
Qed.

Lemma reload_run (id e : nat) (p : Z) (n : nat) :
  forall s, wf s -> pending_reload id e p s ->
            length (fst (run n s)) = n /\ pending_reload id e p (snd (run n s)).
Proof.
  induction n as [|n IH]; intros s W H; [split; [reflexivity|exact H]|].
  destruct (reload_turn id e p s W H) as (t & s1 & Hs & W2 & H2).
  rewrite (run_step n s t s1 Hs). cbn [fst snd length].
  destruct (IH _ W2 H2) as [L R]. now rewrite L.
Qed.

Lemma tab_op_sched (st : state) (op : tab_op) : same_sched st (apply_op st op).
Proof.
  destruct op; cbn [apply_op]; [| |repeat split].
  - repeat split.
  - rewrite closeTab_eq. repeat split.
Qed.

Lemma tab_ops_sched (ops : list tab_op) :
  forall st, same_sched st (apply_ops ops st).
Proof.
  unfold apply_ops. induction ops as [|op ops IH]; intros st; [apply same_sched_refl|].
  cbn [fold_left]. eapply same_sched_trans; [apply tab_op_sched|apply IH].
Qed.

Lemma run_wf (n : nat) : forall s, wf s -> wf (snd (run n s)).
Proof.
  induction n as [|n IH]; intros s W; [exact W|]. cbn [run].
  destruct (prepare s) as [[t s1]|] eqn:E; [|exact W].
  destruct (turn_wf _ _ _ W E) as (_ & W2 & _). apply IH in W2.
  now destruct (run n (run_callback (tm_cb t) s1)).
Qed.

Lemma reload_event (id e : nat) (p : Z) (ev : page_event) (s : state) :
  wf s -> pending_reload id e p s ->
  wf (apply_event s ev) /\ pending_reload id e p (apply_event s ev).
Proof.
  intros W H. destruct ev as [op|n|command]; cbn [apply_event].
  - pose proof (tab_op_sched s op) as Hs. split.
    + eapply extends_wf; [exact W| |apply (extends_same None), Hs]. discriminate.
    + destruct Hs as (Ht & _). destruct H as (u & Hu). exists u. now rewrite Ht.
  - split; [now apply run_wf|]. now apply reload_run.
  - pose proof (parseAndExecute_extends command s) as Hx. split.
    + eapply extends_wf; [exact W| |exact Hx]. discriminate.
    + destruct Hx as (_ & _ & _ & new & Ht & _). destruct H as (u & Hin & Hu).
      exists u. rewrite Ht. split; [apply in_or_app; now left|exact Hu].
Qed.

Lemma reload_events (id e : nat) (p : Z) (evs : list page_event) :
  forall s, wf s -> pending_reload id e p s ->
            wf (apply_events evs s) /\ pending_reload id e p (apply_events evs s).
Proof.
  unfold apply_events. induction evs as [|ev evs IH]; intros s W H; [auto|].
  cbn [fold_left]. destruct (reload_event id e p ev s W H) as [W' H']. now apply IH.
Qed.

(** X7: closing tabs cancels no reload interval.  An interval that
    [openTabsWithRefresh] has created stays pending, with its page element
    and its period, whatever tabs are opened and closed afterwards (all of
    them, too), whatever commands are dispatched and however many timers
    fire in between; so from then on the event loop never comes to rest. *)
Theorem reload_outlives_its_tab (st : state) (u : timer) (e : nat) (p : Z)
    (evs : list page_event) :
  wf st -> In u (timers st) -> tm_cb u = CbReload e -> tm_period u = Some p ->
  pending_reload (tm_id u) e p (apply_events evs st) /\
  forall n, length (fst (run n (apply_events evs st))) = n.
Proof.
  intros W Hin Hcb Hp.
  destruct (reload_events (tm_id u) e p evs st W) as [W' H'].
  { exists u. auto. }
  split; [exact H'|]. intros n.
  exact (proj1 (reload_run (tm_id u) e p n _ W' H')).
Qed.

Lemma reload_outlives_its_tab_witness :
  wf (snd (executeRefresh "https://a.example/x.mp4.5.1" idle)) /\
  pending_reload 1 0 5000
    (apply_events [Turns 2; TabOp CloseAll; Dispatch "Raitha Ex.mute -- all"]
                  (snd (executeRefresh "https://a.example/x.mp4.5.1" idle))) /\
  forall n,
    length (fst (run n (apply_events
                          [Turns 2; TabOp CloseAll; Dispatch "Raitha Ex.mute -- all"]
                          (snd (executeRefresh "https://a.example/x.mp4.5.1" idle)))))
    = n.
Proof.
  assert (W : wf (snd (executeRefresh "https://a.example/x.mp4.5.1" idle))).
  { apply (extends_wf None idle);
      [apply wf_initial|intros a [=]|apply executeRefresh_extends]. }
  split; [exact W|].
  exact (reload_outlives_its_tab
           (snd (executeRefresh "https://a.example/x.mp4.5.1" idle))
           (mkTimer 1 5000 (Some 5000) (CbReload 0)) 0 5000
           [Turns 2; TabOp CloseAll; Dispatch "Raitha Ex.mute -- all"]
           W (or_introl eq_refl) eq_refl eq_refl).
Defined.

(** ** Actions that are only announced *)

Lemma simulated_cases (agent action : jsstr) :
  simulated agent action = true ->
  In (agent, action)
     [(lit "raitha", lit "scroll");
      (lit "rena", lit "test"); (lit "rena", lit "compare");
      (lit "rena", lit "monitor"); (lit "rena", lit "download");
      (lit "rena", lit "ping");
      (lit "leaf", lit "schedule"); (lit "leaf", lit "batch");
      (lit "leaf", lit "rotate")].
Proof.
  unfold simulated. intros H.
  repeat match type of H with
         | (_ || _)%bool = true => apply orb_prop in H as [H|H]
         | (_ && _)%bool = true =>
             let Ha := fresh "Ha" in
             apply andb_prop in H as [Ha H]; apply eqb_eq in Ha; subst agent
         end;
    apply eqb_eq in H; subst action; cbn [In]; auto 10.
Qed.

Ltac handler_is h :=
  match goal with
  | |- context [executeAction ?a ?b ?p ?s] =>
      change (executeAction a b p s) with (h p s)
  end.

(** X8: nine actions are only announced.  Scroll; test, compare, monitor,
    download and ping; schedule, batch and rotate open no tab, create no
    timer and register no loop: when the parameters have the handler's
    format the handler writes one line to the output (and schedule records
    the task), and that is all; otherwise it fails and the page is as it
    was.  As no timer is created, nothing they announce is ever run. *)
Theorem simulated_actions_start_nothing (agent action params : jsstr) (st : state) :
  simulated agent action = true ->
  match executeAction agent action params st with
  | (Ok _, st') =>
      activeTabs st' = activeTabs st /\ timers st' = timers st /\
      activeLoops st' = activeLoops st /\
      exists line, output st' = output st ++ [line]
  | (Throw _, st') => st' = st
  end.
Proof.
  intros H. apply simulated_cases in H. cbn [In] in H.
  repeat match type of H with
         | _ \/ _ => destruct H as [H|H]
         end; try contradiction; injection H as <- <-.
  - handler_is executeScroll.
    unfold executeScroll. repeat split. eexists. reflexivity.
  - handler_is executeTest.
    unfold executeTest. destruct (exec _ _); [|reflexivity].
    repeat split. eexists. reflexivity.
  - handler_is executeCompare.
    unfold executeCompare. destruct (exec _ _); [|reflexivity].
    repeat split. eexists. reflexivity.
  - handler_is executeMonitor.
    unfold executeMonitor. destruct (exec _ _); [|reflexivity].
    repeat split. eexists. reflexivity.
  - handler_is executeDownload.
    unfold executeDownload. repeat split. eexists. reflexivity.
  - handler_is executePing.
    unfold executePing. destruct (exec _ _); [|reflexivity].
    repeat split. eexists. reflexivity.
  - handler_is executeSchedule.
    unfold executeSchedule. destruct (exec _ _); [|reflexivity].
    repeat split. eexists. reflexivity.
  - handler_is executeBatch.
    unfold executeBatch. repeat split. eexists. reflexivity.
  - handler_is executeRotate.
    unfold executeRotate. destruct (exec _ _); [|reflexivity].
    repeat split. eexists. reflexivity.
Qed.

Lemma simulated_actions_start_nothing_witness :
  simulated "rena" "ping" = true /\
  timers (snd (executeAction "rena" "ping" "https://example.org.30.600" idle)) = [] /\
  output (snd (executeAction "rena" "ping" "https://example.org.30.600" idle))
  = [(Info, lit "Pinging https://example.org every 30sec for 600sec")].
Proof.
  split; [reflexivity|].
  pose proof (simulated_actions_start_nothing "rena" "ping" "https://example.org.30.600"
                idle eq_refl) as H.
  change (executeAction "rena" "ping" "https://example.org.30.600" idle)
    with (Ok (lit "Keep-alive ping started"),
          logInfo "Pinging https://example.org every 30sec for 600sec" idle) in *.
  destruct H as (_ & Ht & _). split; [exact Ht|reflexivity].
Defined.

(** ** Scheduled tasks *)

Lemma lang_istr (p0 p t : jsstr) : lang (istr p0) p t -> toLowerCase p = toLowerCase p0.
Proof.
  revert p t; induction p0 as [|a p0 IH]; intros p t H; [now rewrite H|].
  destruct p0 as [|b p0].
  - destruct H as (c & -> & Hc). unfold eqb_ci in Hc. apply Ascii.eqb_eq in Hc.
    cbn. now rewrite Hc.
  - change (istr (a :: b :: p0)) with (Cat (Atom (ChrI a)) (istr (b :: p0))) in H.
    destruct H as (p1 & p2 & -> & (c & -> & Hc) & H2).
    unfold eqb_ci in Hc. apply Ascii.eqb_eq in Hc. apply IH in H2.
    change (toLowerCase ([c] ++ p2)) with (lower_char c :: toLowerCase p2).
    change (toLowerCase (a :: b :: p0)) with (lower_char a :: toLowerCase (b :: p0)).
    now rewrite Hc, H2.
Qed.

(** The last group of the schedule pattern is one of its three words, in
    any letter case. *)
Lemma schedule_repeat (params : jsstr) (mt : caps) :
  exec Patterns.schedule params = Some mt ->
  exists w, capture 3 mt = Some w /\
            In (toLowerCase w) [lit "daily"; lit "weekly"; lit "hourly"].
Proof.
  intros H. apply exec_suffix in H as (p & t & -> & H).
  unfold Patterns.schedule in H. cbn [rseq] in H. rewrite m_cat in H.
  apply m_sound in H as (p1 & t1 & cs1 & -> & _ & H).
  rewrite m_cat, m_str in H. destruct (startsWith "." t1); [|discriminate].
  rewrite m_cat in H. apply m_sound in H as (p2 & t2 & cs2 & E2 & _ & H).
  rewrite m_cat, m_str in H. destruct (startsWith "." t2); [|discriminate].
  rewrite m_cat in H. apply m_grp_sound in H as (w & t3 & cs3 & E3 & Hw & H).
  cbn [m] in H. destruct t3; [|discriminate]. injection H as <-.
  exists w. split; [cbn [capture Nat.eqb]; reflexivity|].
  cbn [lang] in Hw. destruct Hw as [Hw|[Hw|Hw]]; apply lang_istr in Hw;
    rewrite Hw; cbn; auto.
Qed.

(** X9: a schedule command that is accepted records its task under the id
    [taskIdCounter] had, with the repeat word in lower case and the
    [active] flag set, and moves the counter on by one; every other task
    is as it was, and no timer is created, so the task is never run.  A
    command that is not accepted leaves the page as it was. *)
Theorem schedule_records_the_task (params : jsstr) (st : state) :
  match executeSchedule params st with
  | (Ok result, st') =>
      result = "Task scheduled (ID: " ++ show (Some (taskIdCounter st)) ++ ")" /\
      taskIdCounter st' = taskIdCounter st + 1 /\
      (exists command time repeat,
         lookup (taskIdCounter st) (scheduledTasks st')
         = Some (mkSched command time repeat true) /\
         In repeat [lit "daily"; lit "weekly"; lit "hourly"]) /\
      (forall k, k <> taskIdCounter st ->
                 lookup k (scheduledTasks st') = lookup k (scheduledTasks st)) /\
      timers st' = timers st /\ activeTabs st' = activeTabs st
  | (Throw message, st') =>
      message = lit "Format: <command>.<time>.<repeat>" /\ st' = st
  end.
Proof.
  unfold executeSchedule.
  destruct (exec Patterns.schedule params) as [mt|] eqn:E; [|split; reflexivity].
  destruct (schedule_repeat params mt E) as (w & Hc & Hw).
  cbv zeta. cbn -[store lookup lit show In].
  split; [reflexivity|]. split; [reflexivity|]. split; [|split; [|split; reflexivity]].
  - eexists _, _, _. split; [apply lookup_store_eq|].
    unfold group. now rewrite Hc.
  - intros k Hk. now apply lookup_store_ne.
Qed.

(** ** Escaped text *)

Lemma flat_map_twice {A B C} (f : A -> list B) (g : B -> list C) (l : list A) :
  flat_map g (flat_map f l) = flat_map (fun x => flat_map g (f x)) l.
Proof.
  induction l as [|x l IH]; [reflexivity|].
  cbn [flat_map]. now rewrite flat_map_app, IH.
Qed.

Lemma escapeHtml_one_pass (text : jsstr) : escapeHtml text = flat_map escape_char text.
Proof.
  unfold escapeHtml, replaceAll. rewrite !flat_map_twice.
  apply flat_map_ext. intros c.
  destruct c as [[] [] [] [] [] [] [] []]; reflexivity.
Qed.

Lemma escape_char_clean (c : ascii) :
  forallb (fun x => negb (is_markup x)) (escape_char c) = true.
Proof. destruct c as [[] [] [] [] [] [] [] []]; reflexivity. Qed.

Lemma escape_char_plain (c : ascii) :
  special c = false -> escape_char c = [c] /\ c <> "&"%char.
Proof.
  unfold special, escape_char. intros H.
  repeat (apply orb_false_elim in H as [H ?]).
  repeat match goal with E : Ascii.eqb _ _ = false |- _ => rewrite E; revert E end.
  intros E _ _ _ _. split; [reflexivity|]. now apply Ascii.eqb_neq.
Qed.

Lemma special_cases (c : ascii) :
  special c = true ->
  In c ["&"%char; "<"%char; ">"%char; quote_char; "'"%char].
Proof.
  unfold special. intros H.
  repeat (apply orb_prop in H as [H|H]); apply Ascii.eqb_eq in H; subst; cbn; auto 6.
Qed.

Lemma escape_char_head (c d : ascii) (a b : jsstr) :
  escape_char c ++ a = escape_char d ++ b -> c = d.
Proof.
  destruct (special c) eqn:Sc, (special d) eqn:Sd.
  - apply special_cases in Sc, Sd. cbn [In] in Sc, Sd.
    repeat match goal with H : _ \/ _ |- _ => destruct H as [H|H] end;
      try contradiction; subst; try reflexivity; discriminate.
  - apply special_cases in Sc. destruct (escape_char_plain d Sd) as [-> Hd].
    cbn [In] in Sc.
    repeat match goal with H : _ \/ _ |- _ => destruct H as [H|H] end;
      try contradiction; subst; intros [= E]; congruence.
  - apply special_cases in Sd. destruct (escape_char_plain c Sc) as [-> Hc].
    cbn [In] in Sd.
    repeat match goal with H : _ \/ _ |- _ => destruct H as [H|H] end;
      try contradiction; subst; intros [= E]; congruence.
  - destruct (escape_char_plain c Sc) as [-> _], (escape_char_plain d Sd) as [-> _].
    now intros [= ->].
Qed.

Lemma escape_char_nonempty (c : ascii) : escape_char c <> [].
Proof.
  destruct (special c) eqn:S.
  - apply special_cases in S. cbn [In] in S.
    repeat match goal with H : _ \/ _ |- _ => destruct H as [H|H] end;
      try contradiction; subst; discriminate.
  - destruct (escape_char_plain c S) as [-> _]. discriminate.
Qed.

Lemma flat_map_escape_injective (s : jsstr) :
  forall t, flat_map escape_char s = flat_map escape_char t -> s = t.
Proof.
  induction s as [|c s IH]; intros [|d t]; cbn [flat_map]; intros H.
  - reflexivity.
  - symmetry in H. apply app_eq_nil in H as [H _]. now apply escape_char_nonempty in H.
  - apply app_eq_nil in H as [H _]. now apply escape_char_nonempty in H.
  - pose proof (escape_char_head _ _ _ _ H) as ->.
    apply app_inv_head in H. now rewrite (IH t H).
Qed.

(** X10: [escapeHtml] works as one pass over the text that replaces each
    of the five characters by its entity: the five replacements in a row
    do not touch what an earlier one has put in.  The result holds none of
    the characters [<], [>], the double quote and the apostrophe; and no
    two different texts have the same result, so nothing of the text is
    lost. *)
Theorem escapeHtml_is_safe_and_faithful :
  (forall text, escapeHtml text = flat_map escape_char text) /\
  (forall text c, In c (escapeHtml text) -> is_markup c = false) /\
  (forall s t, escapeHtml s = escapeHtml t -> s = t) /\
  (forall s t, escapeHtml (s ++ t) = escapeHtml s ++ escapeHtml t).
Proof.
  split; [exact escapeHtml_one_pass|]. split; [|split].
  - intros text c. rewrite escapeHtml_one_pass, in_flat_map. intros (x & _ & Hc).
    pose proof (escape_char_clean x) as H. rewrite forallb_forall in H.
    apply H in Hc. now apply negb_true_iff in Hc.
  - intros s t. rewrite !escapeHtml_one_pass. apply flat_map_escape_injective.
  - intros s t. rewrite !escapeHtml_one_pass. apply flat_map_app.
Qed.

(** ** Mute after mute *)

Lemma mute_all_twice (b b' : bool) (l : list num) (tabs : list tab) :
  NoDup (map tab_id tabs) ->
  mute_all b l (mute_all b' l tabs) = mute_all b l tabs.
Proof.
  intros H.
  assert (H' : NoDup (map tab_id (mute_all b' l tabs)))
    by now rewrite (identity_ids _ _ (mute_all_identity b' l tabs)).
  rewrite (mute_all_map b l _ H'), !(mute_all_map _ l tabs H), map_map.
  apply map_ext. intros t.
  destruct (existsb (fun id => id_is id t) l) eqn:E.
  - change (existsb (fun id => id_is id (set_muted b' t)) l)
      with (existsb (fun id => id_is id t) l).
    now rewrite E.
  - now rewrite E.
Qed.

(** X11: of two mute or unmute commands with the same parameters the
    later one decides.  On a page with distinct tab ids, mute after mute
    is one mute, and unmute after mute leaves the page as unmute alone
    does (and the other way round): the requested tabs carry the flag of
    the last command, whatever they carried before. *)
Theorem last_mute_command_decides (b b' : bool) (params : jsstr) (st : state) :
  NoDup (ids st) ->
  let handler := fun x : bool => if x then executeMute else executeUnmute in
  snd (handler b params (snd (handler b' params st))) = snd (handler b params st).
Proof.
  intros H handler.
  assert (G : forall x s,
             snd (handler x params s)
             = set_tabs (if JsString.eqb (toLowerCase params) "all"
                         then map (set_muted x) (activeTabs s)
                         else mute_all x (tabIds_of params) (activeTabs s)) s).
  { intros [] s; cbn [handler]; unfold executeMute, executeUnmute;
      destruct (JsString.eqb _ _); reflexivity. }
  rewrite !G. destruct (JsString.eqb _ _); cbn [activeTabs set_tabs].
  - rewrite map_map. reflexivity.
  - now rewrite (mute_all_twice b b' _ _ H).
Qed.

Lemma last_mute_command_decides_witness :
  NoDup (ids (openTabs "u" (Some 3) "watch" idle)) /\
  snd (executeUnmute "1, 3" (snd (executeMute "1, 3" (openTabs "u" (Some 3) "watch" idle))))
  = snd (executeUnmute "1, 3" (openTabs "u" (Some 3) "watch" idle)).
Proof.
  assert (H : NoDup (ids (openTabs "u" (Some 3) "watch" idle))).
  { unfold ids. cbn. repeat constructor; cbn; intuition discriminate. }
  split; [exact H|].
  exact (last_mute_command_decides false true "1, 3" _ H).
Defined.

(** ** The allow-list of streaming URLs *)

(** A pattern that is a plain text tests containment. *)
Lemma test_str (p s : jsstr) : test (str p) s = includes p s.
Proof.
  unfold test. induction s as [|c s IH]; cbn [exec includes]; rewrite m_str.
  - destruct (startsWith p []); reflexivity.
  - destruct (startsWith p (c :: s)); [reflexivity|]. exact IH.
Qed.

Lemma star_complete (a : atom) (p q : jsstr) (cs : caps) (k : cont) :
  Forall (fun c => amatch a c = true) p -> k q cs <> None ->
  star a (p ++ q) cs k <> None.
Proof.
  intros Hp Hk. induction Hp as [|c p Hc _ IH].
  - destruct q as [|d q]; cbn [app star]; [exact Hk|].
    destruct (amatch a d); [|exact Hk]. destruct (star a q cs k); [discriminate|exact Hk].
  - cbn [app star]. rewrite Hc. destruct (star a (p ++ q) cs k); [discriminate|].
    now contradiction IH.
Qed.

Lemma exec_found (r : regex) (x t : jsstr) :
  m r t [] accept <> None -> exec r (x ++ t) <> None.
Proof.
  intros H. induction x as [|c x IH].
  - destruct t; cbn [app exec]; destruct (m r _ [] accept); congruence.
  - cbn [app exec]. destruct (m r (c :: x ++ t) [] accept); [discriminate|exact IH].
Qed.

(** A pattern [A.*B] tests for [A] and, later on the same line, [B]. *)
Lemma test_between (A B url : jsstr) :
  A <> [] -> B <> [] ->
  test (rseq [str A; Star Dot; str B]) url = true <-> between A B url.
Proof.
  intros HA HB. unfold test, between. split.
  - destruct (exec _ url) as [cs|] eqn:E; [intros _|discriminate].
    apply exec_suffix in E as (x & t & -> & E).
    apply m_sound in E as (p & y & _ & -> & L & _).
    assert (R : rseq [str A; Star Dot; str B] = Cat (str A) (Cat (Star Dot) (str B))).
    { destruct A; [congruence|]. reflexivity. }
    rewrite R in L. cbn [lang] in L.
    destruct L as (p1 & q1 & -> & L1 & mid & p3 & -> & Lm & L3).
    apply lang_str in L1, L3. subst.
    exists x, mid, y. split; [now rewrite <- !app_assoc|].
    eapply Forall_impl; [|exact Lm]. intros c Hc. cbn in Hc.
    now apply negb_true_iff in Hc.
  - intros (x & mid & y & -> & Hm).
    destruct (exec _ _) eqn:E; [reflexivity|exfalso]. revert E. apply exec_found.
    assert (R : rseq [str A; Star Dot; str B] = Cat (str A) (Cat (Star Dot) (str B))).
    { destruct A; [congruence|]. reflexivity. }
    rewrite R, m_cat, m_str, startsWith_self.
    rewrite skipn_app, Nat.sub_diag, skipn_all. cbn [skipn app].
    rewrite m_cat. cbn [m]. apply star_complete; [now apply one_line_dot|].
    rewrite m_str, startsWith_self. discriminate.
Qed.

Lemma includes_inside (p a s b : jsstr) :
  includes p s = true -> includes p (a ++ s ++ b) = true.
Proof.
  rewrite !includes_true. intros (x & y & ->).
  exists (a ++ x), (y ++ b). now rewrite <- !app_assoc.
Qed.

Lemma between_inside (A B a s b : jsstr) :
  between A B s -> between A B (a ++ s ++ b).
Proof.
  intros (x & mid & y & -> & Hm). exists (a ++ x), mid, (y ++ b).
  split; [now rewrite <- !app_assoc|exact Hm].
Qed.

Lemma allow_list_spec (url : jsstr) :
  isValidStreamingUrl url = true <-> on_allow_list url.
Proof.
  unfold isValidStreamingUrl, on_allow_list, Patterns.streaming, streaming_markers.
  cbn [existsb]. rewrite !test_str.
  rewrite <- (test_between "facebook.com/" "/videos/") by discriminate.
  rewrite <- (test_between "tiktok.com/@" "/video/") by discriminate.
  split.
  - intros H.
    repeat match type of H with
           | (_ || _)%bool = true => apply orb_prop in H as [H|H]
           end;
      try (left; eexists; split; [|exact H]; cbn [In]; tauto);
      try (right; left; exact H); try (right; right; exact H); discriminate.
  - intros [(marker & Hin & Hm)|[H|H]].
    + cbn [In] in Hin.
      repeat match type of Hin with
             | _ \/ _ => destruct Hin as [Hin|Hin]
             end; try contradiction; subst marker; rewrite Hm;
        rewrite ?orb_true_r; reflexivity.
    + rewrite H, ?orb_true_r. reflexivity.
    + rewrite H, ?orb_true_r. reflexivity.
Qed.

(** X12: the allow-list tests containment only.  [isValidStreamingUrl]
    accepts a text exactly when it holds one of sixteen markers, or
    [facebook.com/] followed on the same line by [/videos/], or
    [tiktok.com/@] followed on the same line by [/video/]; so a text that
    holds an accepted URL anywhere is accepted too, whatever stands
    before and after it. *)
Theorem allow_list_tests_containment (url : jsstr) :
  (isValidStreamingUrl url = true <-> on_allow_list url) /\
  (isValidStreamingUrl url = true ->
   forall before after, isValidStreamingUrl (before ++ url ++ after) = true).
Proof.
  split; [apply allow_list_spec|].
  intros H before after. apply allow_list_spec. apply allow_list_spec in H.
  destruct H as [(marker & Hin & Hm)|[H|H]].
  - left. exists marker. split; [exact Hin|now apply includes_inside].
  - right. left. now apply between_inside.
  - right. right. now apply between_inside.
Qed.

(** ** The order in which timers fire *)

Lemma earlier_refl (a : timer) : earlier a a = true.
Proof.
  unfold earlier. rewrite Z.eqb_refl, Nat.leb_refl. apply orb_true_r.
Qed.

Lemma earlier_total (a b : timer) : earlier a b = false -> earlier b a = true.
Proof.
  unfold earlier. intros H. apply orb_false_elim in H as [H1 H2].
  apply Z.ltb_ge in H1. destruct (Z.ltb_spec (fire_time b) (fire_time a)); [reflexivity|].
  assert (E : fire_time a = fire_time b) by lia. rewrite E, Z.eqb_refl in *.
  cbn [andb orb] in *. apply Nat.leb_gt in H2. apply Nat.leb_le. lia.
Qed.

Lemma earlier_trans (a b c : timer) :
  earlier a b = true -> earlier b c = true -> earlier a c = true.
Proof.
  unfold earlier. intros H1 H2.
  apply orb_prop in H1 as [H1|H1]; apply orb_prop in H2 as [H2|H2];
    try apply Z.ltb_lt in H1; try apply Z.ltb_lt in H2;
    try (apply andb_prop in H1 as [E1 L1]; apply Z.eqb_eq in E1; apply Nat.leb_le in L1);
    try (apply andb_prop in H2 as [E2 L2]; apply Z.eqb_eq in E2; apply Nat.leb_le in L2).
  - apply orb_true_iff. left. apply Z.ltb_lt. lia.
  - apply orb_true_iff. left. apply Z.ltb_lt. lia.
  - apply orb_true_iff. left. apply Z.ltb_lt. lia.
  - apply orb_true_iff. right. apply andb_true_iff. split.
    + apply Z.eqb_eq. lia.
    + apply Nat.leb_le. lia.
Qed.

(** The timer that fires next is not later than any pending timer. *)
Lemma next_timer_least (ts : list timer) (t : timer) :
  next_timer ts = Some t -> forall u, In u ts -> earlier t u = true.
Proof.
  revert t; induction ts as [|x r IH]; intros t H u Hu; [contradiction|].
  cbn [next_timer] in H. destruct (next_timer r) as [v|] eqn:E.
  - injection H as <-. destruct (earlier x v) eqn:Ex.
    + destruct Hu as [<-|Hu]; [apply earlier_refl|].
      eapply earlier_trans; [exact Ex|]. now apply IH.
    + destruct Hu as [<-|Hu]; [now apply earlier_total|]. now apply IH.
  - injection H as <-. destruct r as [|y r]; [|cbn in E; destruct (next_timer r); discriminate].
    destruct Hu as [<-|[]]. apply earlier_refl.
Qed.

(** A pending timer that no other pending timer is as early as fires
    next. *)
Lemma next_timer_only (ts : list timer) (t : timer) :
  In t ts -> (forall u, In u ts -> earlier u t = true -> u = t) ->
  next_timer ts = Some t.
Proof.
  intros Hin Hu. destruct (next_timer_some ts) as [v Hv]; [intros E; now rewrite E in Hin|].
  rewrite Hv. f_equal. apply Hu.
  - now apply next_timer_spec in Hv.
  - now apply (next_timer_least ts).
Qed.

Lemma run_add (a b : nat) :
  forall s, run (a + b) s
            = (fst (run a s) ++ fst (run b (snd (run a s))), snd (run b (snd (run a s)))).
Proof.
  induction a as [|a IH]; intros s.
  - cbn [Nat.add run fst snd app]. now destruct (run b s).
  - cbn [Nat.add run]. destruct (prepare s) as [[t s1]|] eqn:E.
    + rewrite IH. destruct (run a (run_callback (tm_cb t) s1)) as [turns s2].
      reflexivity.
    + cbn [fst snd app]. now rewrite run_stop.
Qed.

(** ** The summary of a [|] line *)

Lemma multi_timers_In (rid F : nat) (start : Z) (i : nat) (cmds : list jsstr) (u : timer) :
  In u (multi_timers rid F start i cmds) ->
  exists j, (i <= j < i + length cmds)%nat /\ fire_time u = start + Z.of_nat j * 200 /\
            tm_id u = (F + (j - i))%nat.
Proof.
  revert F i; induction cmds as [|c cmds IH]; intros F i; [contradiction|].
  cbn [multi_timers length]. intros [<-|H].
  - exists i. cbn. repeat split; lia.
  - destruct (IH _ _ H) as (j & Hj & Hd & Hi). exists j.
    repeat split; first [lia|exact Hd].
Qed.

Lemma skipn_nth {A} (d : A) (l : list A) :
  forall i, (i < length l)%nat -> skipn i l = nth i l d :: skipn (S i) l.
Proof.
  induction l as [|x l IH]; intros i H; [cbn in H; lia|].
  destruct i as [|i]; [reflexivity|]. cbn [skipn nth]. apply IH. cbn in H. lia.
Qed.

Lemma bump_command_nth (rid : nat) (cs : list (Z * Z)) (c e : Z) :
  nth_error cs rid = Some (c, e) -> nth_error (bump_command rid cs) rid = Some (c + 1, e).
Proof.
  intros H. unfold bump_command. rewrite H.
  assert (L : (rid < length cs)%nat) by (apply nth_error_Some; congruence).
  rewrite nth_error_app2; rewrite length_firstn, Nat.min_l by lia; [|lia].
  now rewrite Nat.sub_diag.
Qed.

Lemma filter_keeps_all {A} (f : A -> bool) (l : list A) :
  (forall x, In x l -> f x = true) -> filter f l = l.
Proof.
  intros H. induction l as [|x l IH]; [reflexivity|]. cbn [filter].
  rewrite (H x (or_introl eq_refl)), IH; [reflexivity|].
  intros y Hy. apply H. now right.
Qed.

(** The part [i] of a [|] line fires when it is the first part that
    waits, unless the summary is due before it. *)
Lemma multi_fires (rid first : nat) (start : Z) (parts : list jsstr) (i : nat)
    (pending : bool) (count : Z) (s : state) :
  awaiting rid first start parts i pending count s ->
  (i < length parts)%nat -> (pending = true -> (i <= 5)%nat) ->
  counted_command (nth i parts []) ->
  exists s',
    prepare s = Some (mkTimer (first + i) (start + Z.of_nat i * 200) None
                              (CbMulti rid i (nth i parts [])), s') /\
    awaiting rid first start parts (S i) pending (count + 1)
             (run_callback (CbMulti rid i (nth i parts [])) s').
Proof.
  intros (Ht & Hc & Hn & Hp) Hi H5 Hq.
  rewrite (@skipn_nth jsstr [] parts i Hi) in Ht. cbn [multi_timers app] in Ht.
  set (h := mkTimer (first + i) (start + Z.of_nat i * 200) None
                    (CbMulti rid i (nth i parts []))) in *.
  set (rest := multi_timers rid (S (first + i)) start (S i) (skipn (S i) parts)) in *.
  set (tail := if pending then [summary_timer rid first start (length parts)] else [])
    in *.
  assert (Hrest : forall u, In u rest ->
                    exists j, (S i <= j)%nat /\ fire_time u = start + Z.of_nat j * 200 /\
                              (first + i < tm_id u)%nat).
  { intros u Hu. apply multi_timers_In in Hu as (j & Hj & Hd & Hid).
    exists j. repeat split; first [lia|exact Hd]. }
  assert (Htail : forall u, In u tail ->
                    pending = true /\ u = summary_timer rid first start (length parts)).
  { unfold tail. destruct pending; [|contradiction]. intros u [<-|[]]. auto. }
  assert (Hnext : next_timer (timers s) = Some h).
  { apply next_timer_only; rewrite Ht; [now left|].
    intros u [Hu|Hu] E; [now symmetry|exfalso].
    apply in_app_or in Hu as [Hu|Hu].
    - destruct (Hrest u Hu) as (j & Hj & Hd & _). unfold earlier in E.
      rewrite Hd in E. cbn [fire_time tm_period tm_due h] in E.
      apply orb_prop in E as [E|E]; [apply Z.ltb_lt in E; lia|].
      apply andb_prop in E as [E _]. apply Z.eqb_eq in E. lia.
    - destruct (Htail u Hu) as [Ep ->]. specialize (H5 Ep).
      unfold earlier, summary_timer in E. cbn [fire_time tm_period tm_due tm_id h] in E.
      apply orb_prop in E as [E|E]; [apply Z.ltb_lt in E; lia|].
      apply andb_prop in E as [_ E]. apply Nat.leb_le in E. lia. }
  eexists. split; [unfold prepare; rewrite Hnext; reflexivity|].
  cbn [fire_time tm_period tm_due h]. rewrite Z.max_r by (apply Hn, Hi).
  assert (Hr : rearm h (timers s) = rest ++ tail).
  { unfold rearm. cbn [tm_period h]. rewrite Ht. cbn [filter tm_id h].
    rewrite Nat.eqb_refl. cbn [negb]. apply filter_keeps_all.
    intros u Hu. apply negb_true_iff, Nat.eqb_neq.
    apply in_app_or in Hu as [Hu|Hu].
    - destruct (Hrest u Hu) as (j & _ & _ & Hid). lia.
    - destruct (Htail u Hu) as [_ ->]. cbn. lia. }
  cbn [timers set_now]. rewrite Hr. cbn [run_callback]. unfold multiRun.
  match goal with |- context [parseAndExecute _ ?x] => set (s' := x) end.
  destruct (Hq s') as (r & s1 & Hd & Hne & S1 & S2 & S3). rewrite Hd.
  destruct r as [|x r]; [congruence|].
  unfold awaiting, logSuccess, log. cbn -[lit show bump_command Z.mul Z.add Z.of_nat].
  rewrite S1, S2, S3. cbn -[lit show bump_command Z.mul Z.add Z.of_nat].
  rewrite Nat.add_succ_r. fold rest. fold tail.
  repeat split.
  - now apply bump_command_nth.
  - lia.
  - intros Ep. specialize (H5 Ep). lia.
Qed.

(** The summary fires when no part is left, or when six parts have
    fired. *)
Lemma summary_fires (rid first : nat) (start : Z) (parts : list jsstr) (i : nat)
    (count : Z) (s : state) :
  awaiting rid first start parts i true count s ->
  (i <= length parts)%nat -> (i = length parts \/ 6 <= i)%nat ->
  exists s',
    prepare s = Some (summary_timer rid first start (length parts), s') /\
    awaiting rid first start parts i false count (run_callback (CbSummary rid) s') /\
    output (run_callback (CbSummary rid) s')
    = output s ++ [(Success, glyph_rule);
                   (Success, "All " ++ show (Some count) ++ " command(s) executed!");
                   (Info, glyph_rule)].
Proof.
  intros (Ht & Hc & Hn & Hp) Hle Hi.
  set (rest := multi_timers rid (first + i) start i (skipn i parts)) in *.
  set (t := summary_timer rid first start (length parts)) in *.
  assert (Hrest : forall u, In u rest ->
                    exists j, (i <= j < length parts)%nat /\
                              fire_time u = start + Z.of_nat j * 200 /\
                              (tm_id u < first + length parts)%nat).
  { intros u Hu. apply multi_timers_In in Hu as (j & Hj & Hd & Hid).
    rewrite length_skipn in Hj. exists j. repeat split; first [lia|exact Hd]. }
  assert (Hnext : next_timer (timers s) = Some t).
  { apply next_timer_only; rewrite Ht; [apply in_or_app; right; now left|].
    intros u Hu E. apply in_app_or in Hu as [Hu|[Hu|[]]]; [exfalso|now symmetry].
    destruct (Hrest u Hu) as (j & Hj & Hd & _). unfold earlier in E.
    rewrite Hd in E. cbn [fire_time tm_period tm_due t summary_timer] in E.
    apply orb_prop in E as [E|E]; [apply Z.ltb_lt in E; lia|].
    apply andb_prop in E as [E _]. apply Z.eqb_eq in E. lia. }
  eexists. split; [unfold prepare; rewrite Hnext; reflexivity|].
  cbn [fire_time tm_period tm_due t summary_timer]. rewrite Z.max_r by (now apply Hp).
  assert (Hr : rearm t (timers s) = rest).
  { unfold rearm. cbn [tm_period t summary_timer]. rewrite Ht, filter_app.
    cbn [filter tm_id t summary_timer]. rewrite Nat.eqb_refl. cbn [negb].
    rewrite app_nil_r. apply filter_keeps_all.
    intros u Hu. apply negb_true_iff, Nat.eqb_neq.
    destruct (Hrest u Hu) as (j & _ & _ & Hid). lia. }
  cbn [timers set_now]. rewrite Hr. cbn [run_callback]. unfold summary.
  cbn [counters set_timers set_now].
  rewrite (nth_error_nth _ _ (0, 0) Hc). rewrite Z.eqb_refl.
  unfold awaiting, logSuccess, logInfo, log.
  cbn -[lit show Z.mul Z.add Z.of_nat glyph_rule].
  fold rest. rewrite app_nil_r, <- !app_assoc. repeat split; auto.
  - intros Hlt. lia.
  - discriminate.
Qed.

Lemma multi_phase (rid first : nat) (start : Z) (parts : list jsstr) (pending : bool) :
  Forall counted_command parts ->
  forall (j i : nat) (count : Z) (s : state),
    awaiting rid first start parts i pending count s ->
    (i + j <= length parts)%nat -> (pending = true -> (i + j <= 6)%nat) ->
    fired (fst (run j s)) = map (multi_turn rid start parts) (seq i j) /\
    awaiting rid first start parts (i + j) pending (count + Z.of_nat j) (snd (run j s)).
Proof.
  intros Hall. induction j as [|j IH]; intros i count s Hw Hk H6.
  - cbn [run fst snd fired map seq]. rewrite Nat.add_0_r, Z.add_0_r. auto.
  - assert (Hq : counted_command (nth i parts [])).
    { rewrite Forall_forall in Hall. apply Hall, nth_In. lia. }
    destruct (multi_fires rid first start parts i pending count s Hw ltac:(lia)
                ltac:(intros E; specialize (H6 E); lia) Hq) as (s' & Hs & Hw').
    rewrite (run_step j s _ s' Hs). cbn [tm_cb fst snd].
    destruct (IH (S i) (count + 1) _ Hw' ltac:(lia)
                 ltac:(intros E; specialize (H6 E); lia)) as (H1 & H2).
    split.
    + unfold fired in *. cbn [map seq fst tm_due tm_cb]. now rewrite H1.
    + replace (i + S j)%nat with (S i + j)%nat by lia.
      replace (count + Z.of_nat (S j)) with (count + 1 + Z.of_nat j) by lia.
      exact H2.
Qed.

Lemma multi_forEach_state (rid : nat) (l : list jsstr) :
  forall (i : nat) (st : state),
    let st' := forEach_from
                 (fun cmd i s => snd (setTimeout (CbMulti rid i cmd) (Z.of_nat i * 200) s))
                 l i st in
    timers st' = timers st ++ multi_timers rid (nextTimer st) (now st) i l /\
    nextTimer st' = (nextTimer st + length l)%nat /\
    now st' = now st /\ counters st' = counters st.
Proof.
  induction l as [|c l IH]; intros i st; cbn [forEach_from multi_timers length].
  - rewrite app_nil_r, Nat.add_0_r. auto.
  - destruct (IH (S i) (snd (setTimeout (CbMulti rid i c) (Z.of_nat i * 200) st)))
      as (H1 & H2 & H3 & H4).
    cbv zeta in *. rewrite H1, H2, H3, H4. cbn. rewrite <- app_assoc.
    rewrite Z.max_r by lia. repeat split. lia.
Qed.

(** A text of one [|] line: its parts and the summary wait for their
    turns. *)
Lemma executeCommand_pipe_line (line : jsstr) (st : state) :
  trim line = line -> line <> [] -> includes newline line = false ->
  includes "|" line = true -> startsWith "Leaf Ex.parallel" line = false ->
  startsWith "//" line = false -> timers st = [] ->
  awaiting (length (counters st)) (nextTimer st) (now st) (map trim (split "|" line))
           0 true 0 (executeCommand line st).
Proof.
  intros Ht Hne Hnl Hp Hl Hc Htm.
  assert (Hb : nonblank line = true).
  { unfold nonblank. rewrite Ht. destruct line; congruence. }
  unfold executeCommand. cbv zeta. rewrite Ht.
  destruct line as [|c0 l0] eqn:El; [congruence|]. rewrite <- El in *. clear El c0 l0.
  rewrite (split_none newline line Hnl). cbn [filter]. rewrite Hb.
  unfold forEach at 1. cbn [forEach_from].
  unfold executeLine. cbv zeta. rewrite Ht, Hb, Hc, Hp, Hl. cbn [negb orb andb].
  unfold forEach.
  change (counters (logInfo "Executing commands..." (logInfo glyph_rule st)))
    with (counters st).
  match goal with
  | |- context [forEach_from ?f ?l 0%nat ?s] =>
      pose proof (multi_forEach_state (length (counters st)) l 0 s) as HH;
      cbv zeta in HH; remember (forEach_from f l 0%nat s) as st3 eqn:E3 in *
  end.
  clear E3. destruct HH as (H1 & H2 & H3 & H4).
  cbn [timers nextTimer now counters logInfo log set_output set_counters output]
    in H1, H2, H3, H4.
  unfold awaiting, setTimeout, summary_timer.
  cbn [snd timers nextTimer now counters set_timers].
  rewrite H1, H2, H3, H4, Htm, Nat.add_0_r, length_map. cbn [app skipn Z.max].
  rewrite Z.max_r by lia.
  repeat split.
  - rewrite nth_error_app2 by lia. now rewrite Nat.sub_diag.
  - intros _. lia.
  - intros _. lia.
Qed.

Lemma fired_app (a b : list (timer * state)) : fired (a ++ b) = fired a ++ fired b.
Proof. apply map_app. Qed.

(** X13: the summary of a [|] line counts at most six of its parts.  For
    a text that is one line of [k] commands separated by [|], each of
    which succeeds, the parts fire 200 ms apart and the summary after
    1000 ms: the first [min(k, 6)] parts fire, then the summary, which
    reports [min(k, 6)] commands as executed, and only then the parts from
    the seventh on. *)
Theorem summary_counts_six_parts (line : jsstr) (st : state) :
  trim line = line -> line <> [] -> includes newline line = false ->
  includes "|" line = true -> startsWith "Leaf Ex.parallel" line = false ->
  startsWith "//" line = false -> timers st = [] ->
  Forall counted_command (map trim (split "|" line)) ->
  let parts := map trim (split "|" line) in
  let k := length parts in
  let m := Nat.min k 6 in
  let rid := length (counters st) in
  let st1 := executeCommand line st in
  fired (fst (run (k + 1) st1))
  = map (multi_turn rid (now st) parts) (seq 0 m)
    ++ (now st + 1000, CbSummary rid)
    :: map (multi_turn rid (now st) parts) (seq m (k - m)) /\
  output (snd (run (m + 1) st1))
  = output (snd (run m st1))
    ++ [(Success, glyph_rule);
        (Success, "All " ++ show (Some (Z.of_nat m)) ++ " command(s) executed!");
        (Info, glyph_rule)].
Proof.
  intros Ht Hne Hnl Hp Hl Hc Htm Hall parts k m rid st1.
  pose proof (executeCommand_pipe_line line st Ht Hne Hnl Hp Hl Hc Htm) as Hw0.
  fold parts rid st1 in Hw0.
  destruct (multi_phase rid (nextTimer st) (now st) parts true Hall m 0 0 st1 Hw0
              ltac:(unfold m, k; lia) ltac:(intros _; unfold m; lia)) as (F1 & W1).
  cbn [Nat.add] in W1. rewrite Z.add_0_l in W1.
  destruct (summary_fires rid (nextTimer st) (now st) parts m (Z.of_nat m) _ W1
              ltac:(unfold m, k; lia) ltac:(unfold m, k; lia)) as (s' & Hs & W2 & Ho).
  destruct (multi_phase rid (nextTimer st) (now st) parts false Hall (k - m) m
              (Z.of_nat m) _ W2 ltac:(unfold m, k; lia) ltac:(discriminate))
    as (F2 & _).
  assert (R1 : run 1 (snd (run m st1)) = ([(summary_timer rid (nextTimer st) (now st) k, s')],
                                          run_callback (CbSummary rid) s')).
  { rewrite (run_step 0 _ _ s' Hs). reflexivity. }
  split.
  - replace (k + 1)%nat with (m + (1 + (k - m)))%nat by (unfold m; lia).
    rewrite run_add. cbn [fst]. rewrite fired_app, F1. f_equal.
    rewrite run_add, R1. cbn [fst snd]. rewrite fired_app, F2. reflexivity.
  - rewrite run_add, R1. cbn [snd]. exact Ho.
Qed.

Lemma summary_counts_six_parts_witness :
  output (snd (run 7 (executeCommand
                        "Rena Ex.download -- a | Rena Ex.download -- b | Rena Ex.download -- c | Rena Ex.download -- d | Rena Ex.download -- e | Rena Ex.download -- f | Rena Ex.download -- g"
                        idle)))
  = output (snd (run 6 (executeCommand
                          "Rena Ex.download -- a | Rena Ex.download -- b | Rena Ex.download -- c | Rena Ex.download -- d | Rena Ex.download -- e | Rena Ex.download -- f | Rena Ex.download -- g"
                          idle)))
    ++ [(Success, glyph_rule);
        (Success, "All " ++ show (Some 6) ++ " command(s) executed!");
        (Info, glyph_rule)].
Proof.
  assert (Hq : Forall counted_command
                 (map trim (split "|" "Rena Ex.download -- a | Rena Ex.download -- b | Rena Ex.download -- c | Rena Ex.download -- d | Rena Ex.download -- e | Rena Ex.download -- f | Rena Ex.download -- g"))).
  { apply Forall_forall. intros c Hin. vm_compute in Hin.
    repeat (destruct Hin as [<-|Hin];
            [intros s; eexists _, _; split; [vm_compute; reflexivity|];
             repeat split; discriminate|]).
    contradiction. }
  pose proof (proj2 (summary_counts_six_parts
                       "Rena Ex.download -- a | Rena Ex.download -- b | Rena Ex.download -- c | Rena Ex.download -- d | Rena Ex.download -- e | Rena Ex.download -- f | Rena Ex.download -- g"
                       idle eq_refl ltac:(discriminate) eq_refl eq_refl eq_refl eq_refl
                       eq_refl Hq)) as H.
  cbv zeta in H.
  change (Nat.min (length (map trim (split "|" "Rena Ex.download -- a | Rena Ex.download -- b | Rena Ex.download -- c | Rena Ex.download -- d | Rena Ex.download -- e | Rena Ex.download -- f | Rena Ex.download -- g"))) 6)
    with 6%nat in H.
  exact H.
Defined.

(** ** The recursion of the dispatcher *)

(** X14: the recursion of the dispatcher ends.  [parseAndExecute] reaches
    itself through [executeLeafCommand], [executeChain] and the first step
    of [executeChainSequence], each time on a command that is shorter than
    the text after [--] of the command at hand; so a depth of one more
    than the length of the command is never used up, [parseAndExecute] is
    the solution of the recursive equation of the source, and the first
    command of a chain is at least two code units shorter than the chain
    command. *)
Theorem dispatcher_recursion_ends (command : jsstr) (st : state) :
  parseAndExecute command st = parseAndExecute_with parseAndExecute command st /\
  (forall depth : nat, (length command < depth)%nat ->
                       parseAndExecute_fuel depth command st = parseAndExecute command st) /\
  (forall pm first_step,
     exec Patterns.params command = Some pm ->
     nth_error (map trim (split "->" (trim (group 1 pm)))) 0 = Some first_step ->
     (length first_step + 2 <= length command)%nat).
Proof.
  split; [apply parseAndExecute_unfold|]. split.
  - intros depth H. unfold parseAndExecute. apply fuel_irrelevant; lia.
  - intros pm first_step Hp Hf. apply params_shorter in Hp.
    apply chain_first_shorter in Hf. pose proof (trim_length (group 1 pm)). lia.
Qed.

(** ** Scrape *)

Lemma no_dot_no_start (t : jsstr) : dots t = 0%nat -> startsWith "." t = false.
Proof.
  destruct t as [|c t]; [reflexivity|]. unfold dots. cbn [filter startsWith lit
    list_ascii_of_string].
  destruct (Ascii.eqb "." c); [discriminate|reflexivity].
Qed.

(** The scrape pattern splits [<url>.<target>] at its last dot. *)
Lemma exec_url_target (url target : jsstr) :
  url <> [] -> one_line url -> target <> [] -> one_line target -> dots target = 0%nat ->
  exec Patterns.url_target (url ++ "." ++ target)
  = Some [(2%nat, target); (1%nat, url)].
Proof.
  intros Hu Hl Ht Hlt Hd.
  assert (Hm : m Patterns.url_target (url ++ "." ++ target) [] accept
               = Some [(2%nat, target); (1%nat, url)]).
  { unfold Patterns.url_target. cbn [rseq]. rewrite m_cat.
    apply m_grp_plus_stop; auto using one_line_dot.
    - rewrite m_cat, m_str.
      change (startsWith "." ("." ++ target)) with true. cbv iota.
      change (skipn (length (lit ".")) ("." ++ target)) with target.
      rewrite m_cat. rewrite <- (app_nil_r target) at 1.
      apply m_grp_plus; auto using one_line_dot.
    - intros t1 t2 cs' E Hne. rewrite m_cat, m_str.
      destruct t1 as [|c t1]; [congruence|]. injection E as _ E.
      assert (D : dots t2 = 0%nat).
      { rewrite E, dots_app in Hd. lia. }
      now rewrite (no_dot_no_start t2 D). }
  destruct (url ++ "." ++ target); cbn [exec]; now rewrite Hm.
Qed.

(** X15: scrape opens its URL unchecked.  For parameters [<url>.<target>]
    whose target holds no dot, scrape opens exactly one tab of the type
    [scrape] with the trimmed URL as it was typed: the URL is neither
    tested against the allow-list nor converted to an embed URL, no timer
    is created, and the two lines written say what is scraped and that
    one tab was opened. *)
Theorem scrape_opens_its_url_unchecked (url target : jsstr) (st : state) :
  url <> [] -> one_line url -> target <> [] -> one_line target -> dots target = 0%nat ->
  let message := "Scraping " ++ trim target ++ " from " ++ trim url in
  let st' := snd (executeScrape (url ++ "." ++ target) st) in
  fst (executeScrape (url ++ "." ++ target) st) = Ok message /\
  activeTabs st' = activeTabs st ++ fresh_tabs (trim url) "scrape" 1 st /\
  timers st' = timers st /\
  output st'
  = output st
    ++ [(Info, message);
        (Success, glyph_check ++ " Opened 1 tab(s) in execution screen (Total: "
                  ++ count_str (length (activeTabs st) + 1) ++ ")")].
Proof.
  intros Hu Hl Ht Hlt Hd message st'. unfold st', executeScrape.
  rewrite exec_url_target by assumption.
  change (group 1 _) with url. change (group 2 _) with target.
  cbn [fst snd]. split; [reflexivity|].
  unfold openTabs, fresh_tabs, logInfo, logSuccess, log.
  cbn -[lit show trim glyph_check startId Z.add Z.of_nat].
  rewrite length_app, <- app_assoc. cbn [length app]. repeat split.
Qed.

Lemma scrape_opens_its_url_unchecked_witness :
  isValidStreamingUrl "https://example.org/list" = false /\
  activeTabs (snd (executeScrape "https://example.org/list.h1" idle))
  = [mkTab 0 "https://example.org/list" "scrape" 0 None].
Proof.
  split; [reflexivity|].
  destruct (scrape_opens_its_url_unchecked "https://example.org/list" "h1" idle
              ltac:(discriminate) ltac:(repeat constructor)
              ltac:(discriminate) ltac:(repeat constructor) eq_refl)
    as (_ & H & _).
  exact H.
Defined.

(** ** What [executeCommand] counts *)

Ltac reported_here :=
  split; cbn [fst snd];
  [ reflexivity
  | first [ exact I
          | discriminate
          | let H := fresh in
            intros H; apply app_eq_nil in H as [_ H]; discriminate H ] ].

Lemma reported_convert url autoplay st :
  counters (snd (convertToEmbedUrl url autoplay st)) = counters st.
Proof.
  unfold convertToEmbedUrl.
  repeat match goal with
         | |- context [if ?b then _ else _] => destruct b
         end; reflexivity.
Qed.

Lemma reported_watch params st : reported (executeWatch params st) st.
Proof.
  unfold executeWatch. destruct (exec _ _); [|reported_here]. cbv zeta.
  destruct (_ || _)%bool; [reported_here|]. destruct (negb _); [reported_here|].
  pose proof (reported_convert (trim (group 1 c)) false st) as Hc.
  destruct (convertToEmbedUrl _ _ _) as [[e|e] st1]; cbn [snd] in Hc.
  - split; [exact Hc|discriminate].
  - split; [exact Hc|exact I].
Qed.

Lemma reported_lurk params st : reported (executeLurk params st) st.
Proof.
  unfold executeLurk. destruct (exec _ _); [|reported_here]. cbv zeta.
  destruct (_ || _)%bool; [reported_here|]. destruct (negb _); [reported_here|].
  pose proof (reported_convert (trim (group 1 c)) true st) as Hc.
  destruct (convertToEmbedUrl _ _ _) as [[e|e] st1]; cbn [snd] in Hc.
  - split; [exact Hc|discriminate].
  - split; [exact Hc|exact I].
Qed.

Lemma counters_reload (d : Z) (l : list tab) :
  forall s, counters (fold_left (fun s t => snd (setInterval (CbReload (tab_element t)) d s))
                                l s)
            = counters s.
Proof. induction l as [|t l IH]; intros s; [reflexivity|]. cbn [fold_left]. now rewrite IH. Qed.

Lemma reported_refresh params st : reported (executeRefresh params st) st.
Proof.
  unfold executeRefresh. destruct (exec _ _); [|reported_here].
  split; cbn [fst snd]; [|discriminate]. unfold openTabsWithRefresh.
  now rewrite counters_reload.
Qed.

Lemma reported_raitha action params st :
  reported (executeRaithaCommand action params st) st.
Proof.
  unfold executeRaithaCommand.
  destruct (JsString.eqb action "watch"); [apply reported_watch|].
  destruct (JsString.eqb action "lurk"); [apply reported_lurk|].
  destruct (JsString.eqb action "refresh"); [apply reported_refresh|].
  unfold executeMute, executeUnmute, executeScroll, executeFullscreen.
  repeat match goal with
         | |- context [if ?b then _ else _] => destruct b
         end; reported_here.
Qed.

Lemma reported_rena action params st :
  reported (executeRenaCommand action params st) st.
Proof.
  unfold executeRenaCommand, executeTest, executeScrape, executeCompare,
    executeMonitor, executeDownload, executePing.
  repeat match goal with
         | |- context [if ?b then _ else _] => destruct b
         | |- context [match exec ?r ?p with _ => _ end] => destruct (exec r p)
         end; reported_here.
Qed.

Lemma counters_forEach {A} (f : A -> nat -> state -> state) (l : list A) :
  (forall x i s, counters (f x i s) = counters s) ->
  forall i s, counters (forEach_from f l i s) = counters s.
Proof.
  intros Hf. induction l as [|x l IH]; intros i s; [reflexivity|].
  cbn [forEach_from]. now rewrite IH, Hf.
Qed.

Section DispatchReported.

Variable dispatch : jsstr -> state -> outcome * state.
Hypothesis dispatch_reported : forall c s, reported (dispatch c s) s.

Lemma counters_chainSequence_with a cmds i st :
  counters (executeChainSequence_with dispatch a cmds i st) = counters st.
Proof.
  unfold executeChainSequence_with.
  destruct (nth_error cmds i) as [c|]; [|reflexivity].
  destruct (dispatch_reported c st) as [H _].
  destruct (dispatch c st) as [[r|e] st1]; exact H.
Qed.

Lemma reported_parseAndExecute_with command st :
  reported (parseAndExecute_with dispatch command st) st.
Proof.
  unfold parseAndExecute_with.
  destruct (exec_anchored _ _); [|reported_here].
  destruct (exec Patterns.action command); [|reported_here].
  destruct (exec Patterns.params command); [|reported_here].
  unfold executeAction_with.
  destruct (JsString.eqb _ "raitha"); [apply reported_raitha|].
  destruct (JsString.eqb _ "rena"); [apply reported_rena|].
  destruct (JsString.eqb _ "leaf"); [|reported_here].
  unfold executeLeafCommand_with.
  destruct (JsString.eqb _ "schedule").
  { unfold executeSchedule. destruct (exec _ _); reported_here. }
  destruct (JsString.eqb _ "loop").
  { unfold executeLoop. destruct (exec _ _); [|reported_here].
    split; cbn [fst snd]; [|discriminate]. unfold startLoop.
    destruct (negb _); [reflexivity|]. destruct (lookup _ _); reflexivity. }
  destruct (JsString.eqb _ "batch"); [unfold executeBatch; reported_here|].
  destruct (JsString.eqb _ "parallel").
  { unfold executeParallel. split; cbn [fst snd].
    - unfold forEach. now rewrite counters_forEach.
    - intros H. apply app_eq_nil in H as [_ H]. discriminate H. }
  destruct (JsString.eqb _ "chain").
  { unfold executeChain_with. split; cbn [fst snd]; [|discriminate].
    now rewrite counters_chainSequence_with. }
  destruct (JsString.eqb _ "rotate"); [|reported_here].
  unfold executeRotate. destruct (exec _ _); reported_here.
Qed.

End DispatchReported.

Lemma reported_parseAndExecute_fuel (n : nat) :
  forall command st, reported (parseAndExecute_fuel n command st) st.
Proof.
  induction n as [|n IH]; intros command st; [reported_here|].
  cbn [parseAndExecute_fuel]. now apply reported_parseAndExecute_with.
Qed.

Lemma reported_parseAndExecute command st : reported (parseAndExecute command st) st.
Proof. apply reported_parseAndExecute_fuel. Qed.

Lemma bump_error_nth (rid : nat) (cs : list (Z * Z)) (c e : Z) :
  nth_error cs rid = Some (c, e) -> nth_error (bump_error rid cs) rid = Some (c, e + 1).
Proof.
  intros H. unfold bump_error. rewrite H.
  assert (L : (rid < length cs)%nat) by (apply nth_error_Some; congruence).
  rewrite nth_error_app2; rewrite length_firstn, Nat.min_l by lia; [|lia].
  now rewrite Nat.sub_diag.
Qed.

(** One line of the text: a line that is dispatched at once adds one to
    [commandCount] of the run when its dispatch returns and one to
    [errorCount] when it throws; any other line adds nothing. *)
Lemma executeLine_counts (rid : nat) (line : jsstr) (index : nat) (s : state) (c e : Z) :
  nth_error (counters s) rid = Some (c, e) ->
  nth_error (counters (executeLine rid line index s)) rid
  = Some (if direct line
          then match fst (parseAndExecute (trim line) s) with
               | Ok _ => (c + 1, e)
               | Throw _ => (c, e + 1)
               end
          else (c, e)).
Proof.
  intros H. unfold executeLine, direct. cbv zeta.
  destruct (nonblank (trim line)) eqn:Eb; cbn [negb orb andb]; [|exact H].
  destruct (startsWith "//" (trim line)); cbn [negb orb andb]; [exact H|].
  destruct (includes "|" (trim line) && negb (startsWith "Leaf Ex.parallel" (trim line)))%bool;
    cbn [negb].
  - unfold forEach. rewrite counters_forEach by reflexivity. exact H.
  - destruct (reported_parseAndExecute (trim line) s) as [Hc Hr].
    destruct (parseAndExecute (trim line) s) as [[[|x r]|msg] s1]; cbn [fst snd] in *.
    + congruence.
    + cbn [counters logSuccess log set_output set_counters].
      rewrite Hc. now apply bump_command_nth.
    + cbn [counters logError log set_output set_counters].
      rewrite Hc. now apply bump_error_nth.
Qed.

Lemma lines_count (rid : nat) (lines : list jsstr) :
  forall (i : nat) (s : state) (c e : Z),
    nth_error (counters s) rid = Some (c, e) ->
    nth_error (counters (forEach_from (executeLine rid) lines i s)) rid
    = Some (c + Z.of_nat (length (filter returned (outcomes rid lines i s))),
            e + Z.of_nat (length (filter failed (outcomes rid lines i s)))) /\
    length (outcomes rid lines i s) = length (filter direct lines).
Proof.
  induction lines as [|line lines IH]; intros i s c e H.
  - cbn. rewrite !Z.add_0_r. auto.
  - cbn [forEach_from filter outcomes].
    pose proof (executeLine_counts rid line i s c e H) as H1.
    destruct (direct line).
    + destruct (fst (parseAndExecute (trim line) s)) as [r|msg] eqn:Er;
        destruct (IH (S i) _ _ _ H1) as [H2 H3]; rewrite H2;
        cbn [app filter returned failed negb length]; rewrite H3;
        (split; [f_equal; f_equal; lia|reflexivity]).
    + destruct (IH (S i) _ _ _ H1) as [H2 H3]. cbn [app]. auto.
Qed.

(** X16: every line is dispatched and counted once, whatever fails.  The
    lines that are neither blank nor a comment nor a [|] line to be split
    are dispatched one after the other, each in the state the lines before
    it have left; when [executeCommand] has run the text, [commandCount]
    of its run is the number of those dispatches that returned and
    [errorCount] the number that threw, so a line that fails adds one to
    [errorCount] and stops no line after it; the counters of the runs
    before are as they were. *)
Theorem every_line_is_counted_once (value : jsstr) (st : state) :
  trim value <> [] ->
  let lines := filter nonblank (split newline (trim value)) in
  let start := set_counters (counters st ++ [(0, 0)])
                 (logInfo "Executing commands..." (logInfo glyph_rule st)) in
  let results := outcomes (length (counters st)) lines 0 start in
  length results = length (filter direct lines) /\
  counters (executeCommand value st)
  = counters st ++ [(Z.of_nat (length (filter returned results)),
                     Z.of_nat (length (filter failed results)))].
Proof.
  intros Hne lines start results. unfold executeCommand. cbv zeta.
  destruct (trim value) as [|c0 l0] eqn:Ev; [congruence|]. fold lines.
  change (counters (logInfo "Executing commands..." (logInfo glyph_rule st)))
    with (counters st).
  fold start.
  assert (H0 : nth_error (counters start) (length (counters st)) = Some (0, 0)).
  { unfold start. cbn. rewrite nth_error_app2 by lia. now rewrite Nat.sub_diag. }
  assert (Hkeep : forall ls i s,
             length (counters (forEach_from (executeLine (length (counters st))) ls i s))
             = length (counters s) /\
             firstn (length (counters st))
                    (counters (forEach_from (executeLine (length (counters st))) ls i s))
             = firstn (length (counters st)) (counters s)).
  { induction ls as [|l ls IH]; intros i s; [auto|]. cbn [forEach_from].
    destruct (IH (S i) (executeLine (length (counters st)) l i s)) as [L F].
    rewrite L, F. clear IH L F. unfold executeLine. cbv zeta.
    destruct (_ || _)%bool; [auto|]. destruct (_ && _)%bool.
    - unfold forEach. rewrite counters_forEach by reflexivity. auto.
    - destruct (reported_parseAndExecute (trim l) s) as [Hc _].
      destruct (parseAndExecute (trim l) s) as [[[|x r]|msg] s1]; cbn [snd] in Hc.
      + now rewrite Hc.
      + cbn [counters logSuccess log set_output set_counters]. rewrite Hc.
        unfold bump_command. destruct (nth_error (counters s) _) as [[a b]|] eqn:En; [|auto].
        assert (Lt : (length (counters st) < length (counters s))%nat)
          by (apply nth_error_Some; congruence).
        rewrite length_app, length_firstn. cbn [length]. rewrite length_skipn.
        split; [lia|]. rewrite firstn_app, length_firstn, Nat.min_l by lia.
        rewrite Nat.sub_diag. cbn [firstn]. rewrite app_nil_r, firstn_firstn.
        now rewrite Nat.min_id.
      + cbn [counters logError log set_output set_counters]. rewrite Hc.
        unfold bump_error. destruct (nth_error (counters s) _) as [[a b]|] eqn:En; [|auto].
        assert (Lt : (length (counters st) < length (counters s))%nat)
          by (apply nth_error_Some; congruence).
        rewrite length_app, length_firstn. cbn [length]. rewrite length_skipn.
        split; [lia|]. rewrite firstn_app, length_firstn, Nat.min_l by lia.
        rewrite Nat.sub_diag. cbn [firstn]. rewrite app_nil_r, firstn_firstn.
        now rewrite Nat.min_id. }
  destruct (lines_count (length (counters st)) lines 0 start 0 0 H0) as [Hn Hl].
  fold results in Hn, Hl. rewrite !Z.add_0_l in Hn.
  destruct (Hkeep lines 0%nat start) as [L F].
  split; [exact Hl|].
  unfold forEach. cbn [snd setTimeout counters set_timers].
  set (cs := counters (forEach_from _ lines 0 start)) in *.
  assert (Lc : length cs = S (length (counters st))).
  { rewrite L. unfold start. cbn. rewrite length_app. cbn. lia. }
  assert (Fc : firstn (length (counters st)) cs = counters st).
  { rewrite F. unfold start. cbn. rewrite firstn_app, Nat.sub_diag, firstn_all.
    cbn. apply app_nil_r. }
  rewrite <- (firstn_skipn (length (counters st)) cs), Fc. f_equal.
  pose proof (nth_error_split cs (length (counters st)) Hn) as (l1 & l2 & E & El).
  rewrite E, skipn_app, El, Nat.sub_diag.
  rewrite skipn_all2 by lia. cbn [skipn app].
  rewrite E, length_app in Lc. cbn [length] in Lc.
  destruct l2; [reflexivity|cbn in Lc; lia].
Qed.

Lemma every_line_is_counted_once_witness :
  trim ("Rena Ex.download -- a" ++ newline ++ "// note" ++ newline
        ++ "Raitha Ex.fullscreen -- 9" ++ newline ++ "Rena Ex.download -- b") <> [] /\
  counters (executeCommand
              ("Rena Ex.download -- a" ++ newline ++ "// note" ++ newline
               ++ "Raitha Ex.fullscreen -- 9" ++ newline ++ "Rena Ex.download -- b")
              idle)
  = [(2, 1)].
Proof.
  split; [discriminate|].
  exact (proj2 (every_line_is_counted_once
                  ("Rena Ex.download -- a" ++ newline ++ "// note" ++ newline
                   ++ "Raitha Ex.fullscreen -- 9" ++ newline ++ "Rena Ex.download -- b")
                  idle ltac:(discriminate))).
Defined.

(** ** Every pending timeout gets its turn *)

(** *** The bound on what a command leaves pending *)

Lemma spawn_bound_mono (H L L' : nat) :
  (L <= L')%nat -> (spawn_bound H L <= spawn_bound H L')%nat.
Proof.
  induction 1 as [|L' _ IH]; [lia|].
  etransitivity; [exact IH|]. cbn [spawn_bound].
  assert (1 <= L' + H + 3)%nat by lia. nia.
Qed.

Lemma spawn_enough (H L k : nat) :
  (k <= L + H + 3)%nat -> (k * (1 + spawn_bound H L) <= spawn_bound H (S L))%nat.
Proof. intros Hk. cbn [spawn_bound]. now apply Nat.mul_le_mono_r. Qed.

Lemma widest_nth (cmds : list jsstr) (i : nat) (c : jsstr) :
  nth_error cmds i = Some c -> (length c <= widest cmds)%nat.
Proof.
  intros H. apply nth_error_In in H. unfold widest.
  assert (F : Forall (fun k => (k <= list_max (map (@length ascii) cmds))%nat)
                     (map (@length ascii) cmds))
    by now apply list_max_le.
  rewrite Forall_forall in F. apply F. now apply in_map.
Qed.

Lemma widest_le (cmds : list jsstr) (n : nat) :
  Forall (fun c => (length c <= n)%nat) cmds -> (widest cmds <= n)%nat.
Proof.
  intros F. unfold widest. apply list_max_le. rewrite Forall_forall in *.
  intros k (c & <- & Hc)%in_map_iff. now apply F.
Qed.

(** The pieces of [split]: none is longer than the text, and there is at
    most one more of them than the text has code units. *)
Lemma split_go_pieces (sep s : jsstr) :
  forall skip,
    Forall (fun p => (length p <= length s)%nat) (split_go sep s skip) /\
    (length (split_go sep s skip) <= length s + 1)%nat.
Proof.
  induction s as [|c s IH]; intros skip; cbn [split_go].
  - split; [repeat constructor|cbn; lia].
  - destruct skip as [|n].
    + destruct (startsWith sep (c :: s)).
      * destruct (IH (length sep - 1)%nat) as [F L]. split.
        -- constructor; [cbn; lia|]. eapply Forall_impl; [|exact F].
           intros p Hp. cbn beta in Hp. cbn [length]. lia.
        -- cbn [length]. lia.
      * destruct (IH 0%nat) as [F L]. destruct (split_go sep s 0) as [|p ps] eqn:E.
        -- now apply split_go_nonempty in E.
        -- inversion F as [|? ? Hp Hps]; subst. split.
           ++ constructor; [cbn beta in Hp; cbn [length]; lia|]. eapply Forall_impl; [|exact Hps].
              intros q Hq. cbn beta in Hq. cbn [length]. lia.
           ++ cbn [length] in *. lia.
    + destruct (IH n) as [F L]. split.
      * eapply Forall_impl; [|exact F]. intros p Hp. cbn beta in Hp. cbn [length]. lia.
      * cbn [length]. lia.
Qed.

Lemma split_trim_pieces (sep params : jsstr) :
  Forall (fun c => (length c <= length params)%nat) (map trim (split sep params)) /\
  (length (map trim (split sep params)) <= length params + 1)%nat.
Proof.
  destruct (split_go_pieces sep params 0) as [F L]. fold (split sep params) in F, L.
  split; [|now rewrite length_map].
  rewrite Forall_forall in *. intros c (p & <- & Hp)%in_map_iff.
  pose proof (trim_length p). specialize (F p Hp). cbn beta in F. lia.
Qed.

Lemma exec_group_length (r : regex) (s : jsstr) (cs : caps) (g : nat) :
  exec r s = Some cs -> (length (group g cs) <= length s)%nat.
Proof.
  intros H. apply exec_suffix in H as (p & t & -> & H).
  assert (Hb : bounded (length t) cs).
  { revert H. apply (m_bounded r); auto; [apply accept_keeps|constructor]. }
  apply (group_bounded _ g) in Hb. rewrite length_app. lia.
Qed.

(** *** The load of the pending timers *)

Lemma list_sum_filter_le (f : timer -> nat) (keep : timer -> bool) (ts : list timer) :
  (list_sum (map f (filter keep ts)) <= list_sum (map f ts))%nat.
Proof.
  induction ts as [|x ts IH]; [reflexivity|]. cbn [filter].
  destruct (keep x); simpl; lia.
Qed.

Lemma load_app (f : timer -> nat) (a b : list timer) :
  list_sum (map f (a ++ b)) = (list_sum (map f a) + list_sum (map f b))%nat.
Proof. now rewrite map_app, list_sum_app. Qed.

Lemma weight_same_text (T : Z) (H : nat) (l1 l2 : list (Z * loopTask)) (t : timer) :
  (forall id, tm_cb t = CbLoop id -> loop_text l1 id = loop_text l2 id) ->
  weight T H l1 t = weight T H l2 t.
Proof.
  intros E. unfold weight. f_equal. destruct (tm_cb t); cbn [base]; try reflexivity.
  now rewrite (E loopId eq_refl).
Qed.

Lemma loads_same_text (T : Z) (H : nat) (l1 l2 : list (Z * loopTask)) (ts : list timer) :
  (forall tm id, In tm ts -> tm_cb tm = CbLoop id -> loop_text l1 id = loop_text l2 id) ->
  list_sum (map (weight T H l1) ts) = list_sum (map (weight T H l2) ts).
Proof.
  intros E. f_equal. apply map_ext_in. intros tm Hin.
  apply weight_same_text. intros id. now apply E.
Qed.

Lemma within_refl (T : Z) (H : nat) (st : state) : within T H 0 st st.
Proof. intros F _. repeat split; try apply F; lia. Qed.

Lemma within_le (T : Z) (H B B' : nat) (st st' : state) :
  (B <= B')%nat -> within T H B st st' -> within T H B' st st'.
Proof.
  intros Hle W F Hn. destruct (W F Hn) as (F' & E & C & L).
  repeat split; try apply F'; auto; lia.
Qed.

Lemma within_trans (T : Z) (H B1 B2 : nat) (s1 s2 s3 : state) :
  within T H B1 s1 s2 -> within T H B2 s2 s3 -> within T H (B1 + B2) s1 s3.
Proof.
  intros W1 W2 F Hn. destruct (W1 F Hn) as (F2 & E2 & C2 & L2).
  destruct (W2 F2) as (F3 & E3 & C3 & L3); [now rewrite E2|].
  split; [exact F3|]. split; [congruence|]. split; lia.
Qed.

(** A step that leaves the timers and the loop records alone. *)
Lemma within_same (T : Z) (H : nat) (st st' : state) :
  timers st' = timers st -> loopObjects st' = loopObjects st ->
  taskIdCounter st <= taskIdCounter st' -> now st' = now st ->
  within T H 0 st st'.
Proof.
  intros E1 E2 E3 E4 [F1 F2] _. unfold fresh_loops, load. rewrite E1, E2.
  repeat split; auto; try lia.
  - intros tm id Hin Hcb. specialize (F1 tm id Hin Hcb). lia.
  - intros id loop Hl. specialize (F2 id loop Hl). lia.
Qed.

Lemma within_quiet (T : Z) (H : nat) (st st' : state) :
  same_sched st st' -> taskIdCounter st <= taskIdCounter st' -> within T H 0 st st'.
Proof.
  intros (E1 & _ & _ & E4 & E5) E. now apply within_same.
Qed.

(** *** The handlers *)

Lemma convert_counter url autoplay st :
  taskIdCounter (snd (convertToEmbedUrl url autoplay st)) = taskIdCounter st.
Proof.
  unfold convertToEmbedUrl.
  repeat match goal with
         | |- context [if ?b then _ else _] => destruct b
         end; reflexivity.
Qed.

Lemma executeWatch_counter params st :
  taskIdCounter (snd (executeWatch params st)) = taskIdCounter st.
Proof.
  unfold executeWatch. destruct (exec _ _); [|reflexivity].
  destruct (_ || _)%bool; [reflexivity|].
  destruct (negb _); [reflexivity|].
  pose proof (convert_counter (trim (group 1 c)) false st) as H.
  destruct (convertToEmbedUrl _ _ _) as [[r|e] st1]; cbn [snd] in *; exact H.
Qed.

Lemma executeLurk_counter params st :
  taskIdCounter (snd (executeLurk params st)) = taskIdCounter st.
Proof.
  unfold executeLurk. destruct (exec _ _); [|reflexivity].
  destruct (_ || _)%bool; [reflexivity|].
  destruct (negb _); [reflexivity|].
  pose proof (convert_counter (trim (group 1 c)) true st) as H.
  destruct (convertToEmbedUrl _ _ _) as [[r|e] st1]; cbn [snd] in *; exact H.
Qed.

Lemma reload_within (T : Z) (H : nat) (d : Z) (l : list tab) :
  forall st,
    within T H 0 st
      (fold_left (fun s t => snd (setInterval (CbReload (tab_element t)) d s)) l st).
Proof.
  induction l as [|t l IH]; intros st; cbn [fold_left]; [apply within_refl|].
  eapply (within_trans T H 0 0); [|apply IH].
  intros [F1 F2] _. unfold fresh_loops, load, setInterval.
  cbn [snd timers loopObjects taskIdCounter now set_timers].
  repeat split; auto; try lia.
  - intros tm id [Hin|[<-|[]]]%in_app_or Hcb; [eauto|discriminate].
  - rewrite load_app. simpl. unfold weight at 2. cbn [tm_cb base]. lia.
Qed.

Lemma executeRefresh_within (T : Z) (H : nat) params st :
  within T H 0 st (snd (executeRefresh params st)).
Proof.
  unfold executeRefresh. destruct (exec _ _); [|apply within_refl].
  cbn [snd]. unfold openTabsWithRefresh.
  eapply (within_trans T H 0 0); [|apply reload_within].
  apply within_same; reflexivity || (cbn; lia).
Qed.

Lemma executeRaithaCommand_within (T : Z) (H : nat) action params st :
  within T H 0 st (snd (executeRaithaCommand action params st)).
Proof.
  unfold executeRaithaCommand.
  destruct (JsString.eqb action "watch").
  { apply within_quiet; [apply executeWatch_same|rewrite executeWatch_counter; lia]. }
  destruct (JsString.eqb action "lurk").
  { apply within_quiet; [apply executeLurk_same|rewrite executeLurk_counter; lia]. }
  destruct (JsString.eqb action "refresh"); [apply executeRefresh_within|].
  unfold executeMute, executeUnmute, executeScroll, executeFullscreen.
  repeat match goal with
         | |- context [if ?b then _ else _] => destruct b
         end; apply within_same; reflexivity || (cbn; lia).
Qed.

Lemma executeRenaCommand_within (T : Z) (H : nat) action params st :
  within T H 0 st (snd (executeRenaCommand action params st)).
Proof.
  unfold executeRenaCommand, executeTest, executeScrape, executeCompare,
    executeMonitor, executeDownload, executePing.
  repeat match goal with
         | |- context [if ?b then _ else _] => destruct b
         | |- context [match exec ?r ?p with _ => _ end] => destruct (exec r p)
         end; apply within_same; reflexivity || (cbn; lia).
Qed.

Lemma executeSchedule_within (T : Z) (H : nat) params st :
  within T H 0 st (snd (executeSchedule params st)).
Proof.
  unfold executeSchedule.
  destruct (exec _ _); apply within_same; reflexivity || (cbn; lia).
Qed.

Lemma executeRotate_within (T : Z) (H : nat) params st :
  within T H 0 st (snd (executeRotate params st)).
Proof.
  unfold executeRotate.
  destruct (exec _ _); apply within_same; reflexivity || (cbn; lia).
Qed.

Lemma loop_text_store_eq (id : Z) (r : loopTask) (loops : list (Z * loopTask)) :
  loop_text (store id r loops) id = length (loop_command r).
Proof. unfold loop_text. now rewrite lookup_store_eq. Qed.

Lemma loop_text_store_ne (id id' : Z) (r : loopTask) (loops : list (Z * loopTask)) :
  id' <> id -> loop_text (store id r loops) id' = loop_text loops id'.
Proof. intros H. unfold loop_text. now rewrite lookup_store_ne. Qed.

(** A new timeout adds its own weight. *)
Lemma setTimeout_within (T : Z) (H B : nat) cb delay st :
  is_loop cb = false -> (forall loops, (base H loops cb <= B)%nat) ->
  within T H B st (snd (setTimeout cb delay st)).
Proof.
  intros Hcb Hb [F1 F2] _. unfold fresh_loops, load, setTimeout.
  cbn [snd timers loopObjects taskIdCounter now set_timers].
  repeat split; auto; try lia.
  - intros tm id [Hin|[<-|[]]]%in_app_or Hl; [eauto|].
    cbn [tm_cb] in Hl. rewrite Hl in Hcb. discriminate.
  - rewrite load_app. simpl. unfold weight at 2, reps. cbn [tm_cb tm_period].
    specialize (Hb (loopObjects st)). lia.
Qed.

Lemma executeLoop_within (T : Z) (H : nat) params st :
  within T H (H * (1 + spawn_bound H (length params))) st (snd (executeLoop params st)).
Proof.
  unfold executeLoop. destruct (exec Patterns.loop params) as [mt|] eqn:Em;
    [|eapply within_le; [|apply within_refl]; lia].
  pose proof (exec_group_length _ _ _ 1 Em) as Hg.
  pose proof (trim_length (group 1 mt)) as Ht.
  cbn [snd]. unfold startLoop.
  set (c := trim (group 1 mt)) in *.
  destruct (negb _).
  - eapply within_le; [apply Nat.le_0_l|].
    intros [F1 F2] _. unfold fresh_loops, load.
    cbn -[store lookup]. repeat split; try lia.
    + intros tm id Hin Hcb. specialize (F1 tm id Hin Hcb). lia.
    + intros id loop Hl. destruct (Z.eq_dec id (taskIdCounter st)) as [->|Hne]; [lia|].
      rewrite lookup_store_ne in Hl by assumption. specialize (F2 id loop Hl). lia.
    + rewrite Nat.add_0_r. apply Nat.eq_le_incl, loads_same_text.
      intros tm id Hin Hcb. apply loop_text_store_ne.
      specialize (F1 tm id Hin Hcb). lia.
  - cbn [loopObjects set_activeLoops set_loopObjects set_taskIdCounter].
    rewrite lookup_store_eq.
    intros [F1 F2] Hn. unfold fresh_loops, load, setInterval, logInfo, log.
    cbn -[store lookup Z.max Z.add Z.sub Z.to_nat]. repeat split; try lia.
    + intros tm id [Hin|[<-|[]]]%in_app_or Hcb.
      * specialize (F1 tm id Hin Hcb). lia.
      * cbn [tm_cb] in Hcb. injection Hcb as <-. lia.
    + intros id loop Hl. destruct (Z.eq_dec id (taskIdCounter st)) as [->|Hne]; [lia|].
      rewrite !lookup_store_ne in Hl by assumption. specialize (F2 id loop Hl). lia.
    + rewrite load_app. apply Nat.add_le_mono.
      * apply Nat.eq_le_incl, loads_same_text.
        intros tm id Hin Hcb. specialize (F1 tm id Hin Hcb).
        rewrite !loop_text_store_ne by lia. reflexivity.
      * simpl. rewrite Nat.add_0_r. unfold weight, reps, fire_time.
        cbn [tm_cb tm_period tm_due base]. rewrite loop_text_store_eq.
        cbn [loop_command].
        match goal with
        | |- context [host_delay ?d] => pose proof (host_delay_nonneg d)
        end.
        pose proof (spawn_bound_mono H (length c) (length params) ltac:(lia)).
        apply Nat.mul_le_mono; lia.
Qed.

Lemma parallel_forEach_within (T : Z) (H W : nat) (l : list jsstr) :
  Forall (fun c => (length c <= W)%nat) l ->
  forall (i : nat) (st : state),
    within T H (length l * (1 + spawn_bound H W)) st
      (forEach_from (fun cmd i s => snd (setTimeout (CbParallel i cmd) (Z.of_nat i * 100) s))
                    l i st).
Proof.
  induction 1 as [|c l Hc Hl IH]; intros i st; cbn [forEach_from length];
    [apply within_refl|].
  eapply within_le; [|eapply within_trans; [|apply IH]].
  2:{ apply (setTimeout_within T H (1 + spawn_bound H W)); [reflexivity|].
      intros loops. cbn [base]. pose proof (spawn_bound_mono H _ _ Hc). lia. }
  lia.
Qed.

Lemma executeParallel_within (T : Z) (H : nat) params st :
  within T H ((length params + 1) * (1 + spawn_bound H (length params))) st
    (snd (executeParallel params st)).
Proof.
  unfold executeParallel. cbn [snd]. unfold forEach.
  destruct (split_trim_pieces "|" params) as [F L].
  eapply within_le; [|eapply (within_trans T H 0); [|apply parallel_forEach_within, F]].
  - cbn [Nat.add]. now apply Nat.mul_le_mono_r.
  - apply within_same; reflexivity || (cbn; lia).
Qed.

Section DispatchLoad.

Variable T : Z.
Variable H : nat.
Variable dispatch : jsstr -> state -> outcome * state.
Hypothesis dispatch_within :
  forall c s, within T H (spawn_bound H (length c)) s (snd (dispatch c s)).

Lemma executeChainSequence_with_within a cmds i st :
  within T H ((length cmds + 1 - i) * (1 + spawn_bound H (widest cmds))) st
    (executeChainSequence_with dispatch a cmds i st).
Proof.
  unfold executeChainSequence_with.
  destruct (nth_error cmds i) as [c|] eqn:Ec.
  2:{ eapply within_le; [apply Nat.le_0_l|]. apply within_same; reflexivity || (cbn; lia). }
  pose proof (widest_nth _ _ _ Ec) as Hw.
  assert (Hi : (i < length cmds)%nat) by (apply nth_error_Some; congruence).
  pose proof (spawn_bound_mono H _ _ Hw) as Hs.
  pose proof (dispatch_within c st) as Hd.
  destruct (dispatch c st) as [[r|e] st1]; cbn [snd] in Hd.
  - eapply within_le; [|eapply within_trans; [exact Hd|]].
    2:{ match goal with
        | |- within _ _ _ _ (snd (setTimeout _ _ ?mid)) =>
            eapply (within_trans T H 0 _ st1 mid)
        end.
        - apply within_same; reflexivity || (cbn; lia).
        - apply (setTimeout_within T H
                   (1 + (length cmds - i) * (1 + spawn_bound H (widest cmds))));
            [reflexivity|].
          intros loops. cbn [base].
          replace (length cmds + 1 - (i + 1))%nat with (length cmds - i)%nat by lia.
          lia. }
    replace (length cmds + 1 - i)%nat with (S (length cmds - i)) by lia. lia.
  - eapply within_le; [|eapply within_trans; [exact Hd|]].
    2:{ apply within_same; reflexivity || (cbn; lia). }
    replace (length cmds + 1 - i)%nat with (S (length cmds - i)) by lia. nia.
Qed.

Lemma executeChain_with_within params st :
  within T H ((length params + 2) * (1 + spawn_bound H (length params))) st
    (snd (executeChain_with dispatch params st)).
Proof.
  unfold executeChain_with. cbn [snd].
  destruct (split_trim_pieces "->" params) as [F L].
  set (cmds := map trim (split "->" params)) in *.
  eapply within_le; [|eapply (within_trans T H 0);
                       [|apply executeChainSequence_with_within]].
  2:{ apply within_same; reflexivity || (cbn; lia). }
  cbn [Nat.add]. rewrite Nat.sub_0_r.
  pose proof (spawn_bound_mono H _ _ (widest_le cmds _ F)).
  apply Nat.mul_le_mono; lia.
Qed.

Lemma within_enough (k L n : nat) (st st' : state) :
  within T H (k * (1 + spawn_bound H L)) st st' ->
  (k <= L + H + 3)%nat -> (S L <= n)%nat ->
  within T H (spawn_bound H n) st st'.
Proof.
  intros W Hk Hn. eapply within_le; [|exact W].
  etransitivity; [apply spawn_enough, Hk|]. now apply spawn_bound_mono.
Qed.

Lemma parseAndExecute_with_within command st :
  within T H (spawn_bound H (length command)) st
    (snd (parseAndExecute_with dispatch command st)).
Proof.
  assert (Z0 : forall s s', within T H 0 s s' ->
                            within T H (spawn_bound H (length command)) s s').
  { intros s s'. apply within_le. lia. }
  unfold parseAndExecute_with.
  destruct (exec_anchored _ _); [|apply Z0, within_refl].
  destruct (exec Patterns.action command); [|apply Z0, within_refl].
  destruct (exec Patterns.params command) as [pm|] eqn:Ep; [|apply Z0, within_refl].
  apply params_shorter in Ep. pose proof (trim_length (group 1 pm)) as Ht.
  set (params := trim (group 1 pm)) in *.
  unfold executeAction_with.
  destruct (JsString.eqb _ "raitha"); [apply Z0, executeRaithaCommand_within|].
  destruct (JsString.eqb _ "rena"); [apply Z0, executeRenaCommand_within|].
  destruct (JsString.eqb _ "leaf"); [|apply Z0, within_refl].
  unfold executeLeafCommand_with.
  destruct (JsString.eqb _ "schedule"); [apply Z0, executeSchedule_within|].
  destruct (JsString.eqb _ "loop").
  { apply (within_enough H (length params)); [apply executeLoop_within|lia|lia]. }
  destruct (JsString.eqb _ "batch").
  { apply Z0, within_same; reflexivity || (cbn; lia). }
  destruct (JsString.eqb _ "parallel").
  { apply (within_enough (length params + 1) (length params));
      [apply executeParallel_within|lia|lia]. }
  destruct (JsString.eqb _ "chain").
  { apply (within_enough (length params + 2) (length params));
      [apply executeChain_with_within|lia|lia]. }
  destruct (JsString.eqb _ "rotate"); [apply Z0, executeRotate_within|].
  apply Z0, within_refl.
Qed.

End DispatchLoad.

Lemma parseAndExecute_fuel_within (T : Z) (H : nat) (n : nat) :
  forall command st,
    within T H (spawn_bound H (length command)) st (snd (parseAndExecute_fuel n command st)).
Proof.
  induction n as [|n IH]; intros command st.
  - eapply within_le; [apply Nat.le_0_l|apply within_refl].
  - cbn [parseAndExecute_fuel]. now apply parseAndExecute_with_within.
Qed.

(** Dispatching a command adds to the load what the length of the command
    allows, and no more. *)
Lemma parseAndExecute_within (T : Z) (H : nat) command st :
  within T H (spawn_bound H (length command)) st (snd (parseAndExecute command st)).
Proof. apply parseAndExecute_fuel_within. Qed.

(** *** The callbacks *)

Lemma tick_within (T : Z) (H : nat) (id : Z) (loop r : loopTask) (keep : timer -> bool)
    (s s' : state) :
  lookup id (loopObjects s) = Some loop -> loop_command r = loop_command loop ->
  timers s' = filter keep (timers s) -> loopObjects s' = store id r (loopObjects s) ->
  taskIdCounter s' = taskIdCounter s -> now s' = now s ->
  within T H 0 s s'.
Proof.
  intros El Ec Et Eo Ek En [F1 F2] _.
  assert (Etext : forall id', loop_text (loopObjects s') id' = loop_text (loopObjects s) id').
  { intros id'. rewrite Eo. destruct (Z.eq_dec id' id) as [->|Hne].
    - rewrite loop_text_store_eq, Ec. unfold loop_text. now rewrite El.
    - now apply loop_text_store_ne. }
  unfold fresh_loops, load. rewrite Et, Ek, En. repeat split; try lia.
  - intros tm id' [Hin _]%filter_In Hcb. eauto.
  - intros id' lp Hl. rewrite Eo in Hl. destruct (Z.eq_dec id' id) as [->|Hne]; [eauto|].
    rewrite lookup_store_ne in Hl by assumption. eauto.
  - rewrite Nat.add_0_r.
    rewrite (loads_same_text T H (loopObjects s') (loopObjects s))
      by (intros; apply Etext).
    apply list_sum_filter_le.
Qed.

Lemma loopTick_within (T : Z) (H : nat) (id : Z) (st : state) :
  within T H (spawn_bound H (loop_text (loopObjects st) id)) st (loopTick id st).
Proof.
  unfold loopTick, loop_text.
  destruct (lookup id (loopObjects st)) as [loop0|];
    [|eapply within_le; [apply Nat.le_0_l|apply within_refl]].
  pose proof (parseAndExecute_within T H (loop_command loop0) st) as Hd.
  destruct (parseAndExecute (loop_command loop0) st) as [[r|e] st1]; cbn [snd] in Hd.
  2:{ eapply within_le; [|eapply within_trans; [exact Hd|]].
      2:{ apply within_same; reflexivity || (cbn; lia). }
      lia. }
  destruct (lookup id (loopObjects st1)) as [loop|] eqn:El; [|exact Hd].
  eapply within_le; [|eapply within_trans; [exact Hd|]].
  2:{ cbn [loop_current loop_iterations loop_interval].
      destruct (nge _ _).
      - destruct (loop_interval loop) as [h|].
        + apply (tick_within T H id loop
                   (mkLoop (loop_command loop) (loop_iterations loop) (loop_delay loop)
                           (loop_current loop + 1) (Some h))
                   (fun t => negb (Nat.eqb (tm_id t) h)));
            auto; reflexivity.
        + apply (tick_within T H id loop
                   (mkLoop (loop_command loop) (loop_iterations loop) (loop_delay loop)
                           (loop_current loop + 1) None)
                   (fun _ => true)); auto; try reflexivity.
          cbn. now rewrite filter_all.
      - apply (tick_within T H id loop
                 (mkLoop (loop_command loop) (loop_iterations loop) (loop_delay loop)
                         (loop_current loop + 1) (loop_interval loop))
                 (fun _ => true)); auto; try reflexivity.
        cbn. now rewrite filter_all. }
  lia.
Qed.

(** One run of a callback adds to the load less than the callback
    accounts for. *)
Lemma run_callback_within (T : Z) (H : nat) (cb : callback) (st : state) :
  within T H (base H (loopObjects st) cb - 1) st (run_callback cb st).
Proof.
  destruct cb as [r i c|r|l|i c|a cmds i|e]; cbn [run_callback base].
  - unfold multiRun.
    pose proof (parseAndExecute_within T H c st) as Hd.
    destruct (parseAndExecute c st) as [[[|x res]|err] st1]; cbn [snd] in Hd.
    + eapply within_le; [|exact Hd]. lia.
    + eapply within_le; [|eapply within_trans; [exact Hd|]].
      2:{ apply within_same; reflexivity || (cbn; lia). }
      lia.
    + eapply within_le; [|eapply within_trans; [exact Hd|]].
      2:{ apply within_same; reflexivity || (cbn; lia). }
      lia.
  - unfold summary. destruct (nth r (counters st) (0, 0)) as [cc ec].
    destruct (ec =? 0); apply within_same; reflexivity || (cbn; lia).
  - eapply within_le; [|apply loopTick_within]. lia.
  - unfold parallelRun.
    pose proof (parseAndExecute_within T H c st) as Hd.
    destruct (parseAndExecute c st) as [[res|err] st1]; cbn [snd] in Hd.
    + eapply within_le; [|exact Hd]. lia.
    + eapply within_le; [|eapply within_trans; [exact Hd|]].
      2:{ apply within_same; reflexivity || (cbn; lia). }
      lia.
  - eapply within_le; [|apply (executeChainSequence_with_within T H parseAndExecute
                                 (parseAndExecute_within T H))].
    lia.
  - apply within_refl.
Qed.

(** *** One turn of the event loop *)

Lemma rearm_sum (f : timer -> nat) (t : timer) (ts : list timer) :
  NoDup (map tm_id ts) -> In t ts ->
  (list_sum (map f (rearm t ts)) + f t
   = list_sum (map f ts)
     + match tm_period t with
       | Some p => f (mkTimer (tm_id t) (tm_due t + host_period p) (tm_period t) (tm_cb t))
       | None => 0
       end)%nat.
Proof.
  intros Hd Hin. unfold rearm. destruct (tm_period t) as [p|] eqn:Ep.
  - induction ts as [|x ts IH]; [contradiction|].
    cbn [map] in Hd. apply NoDup_cons_iff in Hd as [Hx Hd].
    destruct Hin as [->|Hin].
    + cbn [map]. rewrite Nat.eqb_refl, Ep.
      rewrite (map_ext_in _ (fun u => u)), map_id; [simpl; lia|].
      intros u Hu. destruct (Nat.eqb_spec (tm_id u) (tm_id t)) as [E|_]; [|reflexivity].
      exfalso. apply Hx. rewrite <- E. now apply in_map.
    + cbn [map]. destruct (Nat.eqb_spec (tm_id x) (tm_id t)) as [E|_].
      * exfalso. apply Hx. rewrite E. now apply in_map.
      * specialize (IH Hd Hin). simpl in *. lia.
  - induction ts as [|x ts IH]; [contradiction|].
    cbn [map] in Hd. apply NoDup_cons_iff in Hd as [Hx Hd].
    destruct Hin as [->|Hin].
    + cbn [filter]. rewrite Nat.eqb_refl. cbn [negb].
      rewrite filter_keeps_all; [simpl; lia|].
      intros u Hu. apply negb_true_iff, Nat.eqb_neq. intros E.
      apply Hx. rewrite <- E. now apply in_map.
    + cbn [filter]. destruct (Nat.eqb_spec (tm_id x) (tm_id t)) as [E|_].
      * exfalso. apply Hx. rewrite E. now apply in_map.
      * cbn [negb]. specialize (IH Hd Hin). simpl in *. lia.
Qed.

Lemma reps_rearm (T : Z) (t : timer) (p : Z) :
  tm_period t = Some p -> fire_time t <= T ->
  (reps T (mkTimer (tm_id t) (tm_due t + host_period p) (tm_period t) (tm_cb t)) + 1
   <= reps T t)%nat.
Proof.
  intros Hp Hf. unfold reps, fire_time in *. cbn [tm_period tm_due].
  rewrite Hp in *. pose proof (host_period_pos p). lia.
Qed.

Lemma prepare_frame (st : state) (t : timer) (st1 : state) :
  prepare st = Some (t, st1) ->
  loopObjects st1 = loopObjects st /\ taskIdCounter st1 = taskIdCounter st.
Proof.
  unfold prepare. destruct (next_timer (timers st)); [|discriminate].
  now intros [= <- <-].
Qed.

Lemma base_positive (H : nat) (loops : list (Z * loopTask)) (cb : callback) :
  base H loops cb = 0%nat ->
  forall st, timers (run_callback cb st) = timers st.
Proof.
  destruct cb as [r i c|r|l|i c|a cmds i|e]; cbn [base]; try discriminate; intros _ st.
  - cbn [run_callback]. unfold summary. destruct (nth r (counters st) (0, 0)) as [cc ec].
    now destruct (ec =? 0).
  - reflexivity.
Qed.

Lemma rest_weight_reps (H : nat) (loops : list (Z * loopTask)) (T : Z) (t : timer) :
  base H loops (tm_cb t) = 0%nat -> forall u, tm_cb u = tm_cb t -> rest_weight T u = reps T u.
Proof.
  intros Hb u E. unfold rest_weight. rewrite E.
  destruct (tm_cb t); cbn [base] in Hb; try discriminate; reflexivity.
Qed.

(** A turn whose timer runs by the time [T] brings the load down, or
    leaves it and brings the load of the timers that dispatch nothing
    down. *)
Lemma turn_progress (T : Z) (H : nat) (s : state) (t : timer) (s1 : state) :
  sound s -> (Z.to_nat (T + 1 - now s) <= H)%nat ->
  prepare s = Some (t, s1) -> fire_time t <= T ->
  sound (run_callback (tm_cb t) s1) /\ now s <= now (run_callback (tm_cb t) s1) /\
  ((load T H (run_callback (tm_cb t) s1) < load T H s)%nat \/
   ((load T H (run_callback (tm_cb t) s1) <= load T H s)%nat /\
    (rest_load T (run_callback (tm_cb t) s1) < rest_load T s)%nat)).
Proof.
  intros [W [F1 F2]] Hn P Hf.
  destruct (prepare_spec s t s1 W P) as (Hin & _ & W1 & _ & _ & Htm).
  destruct (prepare_frame s t s1 P) as [Elo Ek].
  pose proof (prepare_now s t s1 P) as Enow.
  destruct (turn_wf s t s1 W P) as (_ & W2 & _).
  assert (G1 : fresh_loops s1).
  { split.
    - intros tm id Htm' Hcb. rewrite Htm in Htm'. rewrite Ek.
      apply rearm_In in Htm' as [[Hu _]|(p & v & _ & Hv & _ & ->)]; [eauto|].
      cbn [tm_cb] in Hcb. eauto.
    - intros id loop Hl. rewrite Elo in Hl. rewrite Ek. eauto. }
  assert (Hn1 : (Z.to_nat (T + 1 - now s1) <= H)%nat) by lia.
  destruct (run_callback_within T H (tm_cb t) s1 G1 Hn1) as (G2 & En2 & _ & L).
  split; [now constructor|]. split; [lia|].
  set (B := base H (loopObjects s1) (tm_cb t)) in *.
  assert (L1 : (load T H s1 + B <= load T H s)%nat).
  { pose proof (rearm_sum (weight T H (loopObjects s)) t (timers s)
                  (wf_nodup s W) Hin) as R.
    unfold load. rewrite Htm, Elo. unfold B. rewrite Elo.
    destruct (tm_period t) as [p|] eqn:Ep.
    - pose proof (reps_rearm T t p Ep Hf) as Hr. rewrite Ep in Hr.
      unfold weight at 2 4 in R. cbn [tm_cb] in R.
      set (r1 := reps T t) in *. set (r2 := reps T (mkTimer _ _ _ _)) in *.
      set (b := base H (loopObjects s) (tm_cb t)) in *.
      assert (r2 * b + b <= r1 * b)%nat by nia. lia.
    - unfold weight at 2 in R. unfold reps in R. rewrite Ep in R. lia. }
  destruct (Nat.eq_dec B 0) as [B0|B1]; [right|left; lia].
  split; [lia|].
  unfold rest_load. rewrite (base_positive H (loopObjects s1) _ B0 s1), Htm.
  pose proof (rearm_sum (rest_weight T) t (timers s) (wf_nodup s W) Hin) as R.
  rewrite (rest_weight_reps H (loopObjects s1) T t B0 t eq_refl) in R.
  destruct (tm_period t) as [p|] eqn:Ep.
  - rewrite (rest_weight_reps H (loopObjects s1) T t B0
               (mkTimer (tm_id t) (tm_due t + host_period p) (Some p) (tm_cb t)) eq_refl)
      in R.
    pose proof (reps_rearm T t p Ep Hf) as Hr. rewrite Ep in Hr. lia.
  - unfold reps in R. rewrite Ep in R. lia.
Qed.


(** *** The states of the page are sound *)

Lemma within_fresh (B : nat) (s s' : state) :
  within 0 (Z.to_nat (0 + 1 - now s)) B s s' -> fresh_loops s -> fresh_loops s'.
Proof. intros W F. now destruct (W F (Nat.le_refl _)). Qed.


Lemma sound_dispatch (command : jsstr) (s : state) :
  sound s -> sound (snd (parseAndExecute command s)).
Proof.
  intros [W F]. constructor.
  - eapply extends_wf; [exact W| |apply parseAndExecute_extends]. discriminate.
  - eapply within_fresh; [apply parseAndExecute_within|exact F].
Qed.

Lemma sound_turn (s : state) (t : timer) (s1 : state) :
  sound s -> prepare s = Some (t, s1) -> sound (run_callback (tm_cb t) s1).
Proof.
  intros Hs P.
  now destruct (turn_progress (fire_time t) (Z.to_nat (fire_time t + 1 - now s))
                  s t s1 Hs (Nat.le_refl _) P (Z.le_refl _)).
Qed.

Lemma run_sound (n : nat) : forall s, sound s -> sound (snd (run n s)).
Proof.
  induction n as [|n IH]; intros s Hs; [exact Hs|]. cbn [run].
  destruct (prepare s) as [[t s1]|] eqn:E; [|exact Hs].
  pose proof (IH _ (sound_turn s t s1 Hs E)) as H.
  now destruct (run n (run_callback (tm_cb t) s1)).
Qed.

(** Whatever happens on the page, its state is sound. *)
Lemma sound_event (ev : page_event) (s : state) : sound s -> sound (apply_event s ev).
Proof.
  intros Hs. destruct ev as [op|n|command]; cbn [apply_event].
  - destruct Hs as [W F]. pose proof (tab_op_sched s op) as Hq. constructor.
    + eapply extends_wf; [exact W| |apply (extends_same None), Hq]. discriminate.
    + eapply (within_fresh 0); [|exact F]. apply within_quiet; [exact Hq|].
      destruct op; cbn [apply_op]; [cbn; lia| |cbn; lia].
      rewrite closeTab_eq. cbn. lia.
  - now apply run_sound.
  - now apply sound_dispatch.
Qed.

Lemma sound_events (evs : list page_event) :
  forall s, sound s -> sound (apply_events evs s).
Proof.
  unfold apply_events. induction evs as [|ev evs IH]; intros s Hs; [exact Hs|].
  cbn [fold_left]. apply IH. now apply sound_event.
Qed.

Lemma sound_step (B : nat) (s s' : state) :
  extends None s s' -> within 0 (Z.to_nat (0 + 1 - now s)) B s s' ->
  sound s -> sound s'.
Proof.
  intros E Wi [W F]. constructor.
  - eapply extends_wf; [exact W| |exact E]. discriminate.
  - eapply within_fresh; [exact Wi|exact F].
Qed.

Lemma sound_same (s s' : state) :
  same_sched s s' -> taskIdCounter s <= taskIdCounter s' -> sound s -> sound s'.
Proof.
  intros Hq Hc. apply (sound_step 0); [now apply extends_same|now apply within_quiet].
Qed.

Lemma sound_setTimeout (cb : callback) (delay : Z) (s : state) :
  is_loop cb = false -> chain_of cb = None ->
  sound s -> sound (snd (setTimeout cb delay s)).
Proof.
  intros Hl Hc.
  apply (sound_step (base (Z.to_nat (0 + 1 - now s)) [] cb
                     + base (Z.to_nat (0 + 1 - now s)) (loopObjects s) cb)).
  - apply setTimeout_extends. congruence.
  - apply setTimeout_within; [exact Hl|]. intros loops.
    destruct cb; try discriminate; cbn [base]; lia.
Qed.

Lemma sound_forEach {A} (f : A -> nat -> state -> state) (l : list A) :
  (forall x i s, sound s -> sound (f x i s)) ->
  forall i s, sound s -> sound (forEach_from f l i s).
Proof.
  intros Hf. induction l as [|x l IH]; intros i s Hs; [exact Hs|].
  cbn [forEach_from]. apply IH, Hf, Hs.
Qed.

Lemma sound_executeLine (rid : nat) (line : jsstr) (index : nat) (s : state) :
  sound s -> sound (executeLine rid line index s).
Proof.
  intros Hs. unfold executeLine. cbv zeta.
  destruct (_ || _)%bool; [exact Hs|]. destruct (_ && _)%bool.
  - unfold forEach. apply sound_forEach.
    + intros c i s' Hs'. now apply sound_setTimeout.
    + revert Hs. apply sound_same; [repeat split|cbn; lia].
  - pose proof (sound_dispatch (trim line) s Hs) as Hd.
    destruct (parseAndExecute (trim line) s) as [[[|x r]|msg] s1]; cbn [snd] in Hd.
    + exact Hd.
    + revert Hd. apply sound_same; [repeat split|cbn; lia].
    + revert Hd. apply sound_same; [repeat split|cbn; lia].
Qed.

(** Running a text keeps the page sound, as dispatching a command, a turn
    of the event loop and the operations on the tabs do ([sound_event]):
    the states the page can reach are sound. *)
Lemma sound_executeCommand (value : jsstr) (s : state) :
  sound s -> sound (executeCommand value s).
Proof.
  intros Hs. unfold executeCommand. cbv zeta. destruct (trim value) as [|c0 l0].
  - revert Hs. apply sound_same; [repeat split|cbn; lia].
  - apply sound_setTimeout; [reflexivity|reflexivity|].
    unfold forEach. apply sound_forEach; [intros; now apply sound_executeLine|].
    revert Hs. apply sound_same; [repeat split|cbn; lia].
Qed.

(** *** Timeouts fire *)



(** *** Chains run to their end *)





(** *** Chains and parallel commands on a busy page *)



(** On that page the loop ticks every millisecond, and the chain takes
    its second step after 1000 ms and comes to its end after 2000 ms. *)
Lemma chain_beside_a_busy_loop :
  let busy := snd (parseAndExecute "Leaf Ex.loop -- Raitha Ex.watch test.1.3.0" idle) in
  let cmds := [lit "Raitha Ex.mute -- all"; lit "Raitha Ex.unmute -- all"] in
  fired (chain_turns 0
           (fst (run 2010
                   (snd (executeChain "Raitha Ex.mute -- all -> Raitha Ex.unmute -- all"
                                      busy)))))
  = [(1000, CbChain 0 cmds 1); (2000, CbChain 0 cmds 2)].
Proof. vm_compute. reflexivity. Qed.



(** The second sub-command of that parallel command is dispatched after
    100 ms, between the ticks of the loop its sibling has started. *)
Lemma sibling_beside_a_busy_loop :
  let st1 := snd (executeParallel
                    "Leaf Ex.loop -- Raitha Ex.watch test.1.3.0 | Raitha Ex.mute -- all"
                    idle) in
  fired (filter (fun turn => negb (is_loop (tm_cb (fst turn)))) (fst (run 110 st1)))
  = [(0, CbParallel 0 "Leaf Ex.loop -- Raitha Ex.watch test.1.3.0");
     (100, CbParallel 1 "Raitha Ex.mute -- all")].
Proof. vm_compute. reflexivity. Qed.
